(** * Tickets dashboard: date normalizer and aggregator

    A shallow embedding of the date-string normalizer and of the
    aggregation helpers of the dashboard:

    - [parseDateToMySQL] and the handlers [OPTIONS], [POST], [GET] and
      [DELETE]                      (src/app/api/tickets/route.js)
    - [parseDate], [dateKey], [dateKeyUTC], [isIsoUTC], [normalizeBrand],
      [ticketsToday], [ticketsYesterday], [unsolvedCount],
      [resolvedCount], [ticketsPerDay], [handleDelete], [ticketsByBrand],
      [brandChartData], [ticketsBarSize], [brandBarSize],
      [filteredTickets]             (src/app/page.tsx)
    - [startOfDay], [sameDay]       (src/unnamed/part_000, an earlier
      version of the page)

    Strings are lists of code units below 256.  On that range the white
    space, the line terminators and the case of the letters are those of
    ECMAScript, but for the capitals of U+00B5 and U+00FF, which lie
    beyond it; the statements that depend on the case of the letters of
    a brand name are about names of the ASCII range.  Regular expressions are
    kept as syntax trees that mirror the literals of the source and are
    run by a backtracking matcher that lists the successful continuations
    in the priority order of the ECMAScript matcher.  A [Date] is its time
    value, an integer number of milliseconds since the epoch; the invalid
    date is [None]. *)

From Stdlib Require Import String Ascii NArith ZArith List Bool Arith Lia Permutation
  Sorted.
Import ListNotations.

Set Implicit Arguments.
Local Open Scope list_scope.

(** ** Characters and strings *)

Definition str := list ascii.

Definition lit (s : string) : str := list_ascii_of_string s.

Definition code (c : ascii) : N := N_of_ascii c.

Definition between (lo hi : N) (c : ascii) : bool :=
  (lo <=? code c)%N && (code c <=? hi)%N.

Definition isDigit : ascii -> bool := between 48 57.
Definition isUpper : ascii -> bool := between 65 90.
Definition isLower : ascii -> bool := between 97 122.
Definition isAlpha (c : ascii) : bool := isUpper c || isLower c.

(** [\w]: letters, digits and the underscore. *)
Definition isWord (c : ascii) : bool := isAlpha c || isDigit c || (code c =? 95)%N.

(** [\s] and the blanks removed by [String.prototype.trim]: TAB, LF, VT,
    FF, CR, SPACE and the no-break space U+00A0, which are the white
    space and the line terminators among the code units below 256. *)
Definition isSpace (c : ascii) : bool :=
  between 9 13 c || (code c =? 32)%N || (code c =? 160)%N.

(** The line terminators that [.] does not match. *)
Definition isLineTerminator (c : ascii) : bool :=
  (code c =? 10)%N || (code c =? 13)%N.

(** The two cases of a letter of the ASCII range.  The expressions of the
    source hold code units of the ASCII range only; under the [i] flag
    such a code unit matches the code units that have the same image: a
    letter matches its two cases and nothing else, any other code unit
    matches itself only. *)
Definition toLower (c : ascii) : ascii :=
  if isUpper c then ascii_of_N (code c + 32) else c.

Definition toUpper (c : ascii) : ascii :=
  if isLower c then ascii_of_N (code c - 32) else c.

(** [String.prototype.toLowerCase], code unit by code unit: the capital
    letters A to Z and U+00C0 to U+00DE, the multiplication sign U+00D7
    apart, move 32 places up; every other code unit below 256 is its own
    lower case. *)
Definition lowerUnit (c : ascii) : ascii :=
  if isUpper c || between 192 214 c || between 216 222 c
  then ascii_of_N (code c + 32) else c.

Definition toLowerCase (s : str) : str := map lowerUnit s.

(** [String.prototype.toUpperCase]: the small letters a to z and U+00E0
    to U+00FE, the division sign U+00F7 apart, move 32 places down, and
    the sharp s U+00DF becomes the two letters SS.  The capitals of the
    micro sign U+00B5 and of U+00FF are U+039C and U+0178, which a [str]
    cannot hold: these two code units are left as they are, and the
    statements on the case of brand names, which they would make wrong,
    are about names in the ASCII range. *)
Definition upperUnit (c : ascii) : str :=
  if isLower c || between 224 246 c || between 248 254 c
  then [ascii_of_N (code c - 32)]
  else if (code c =? 223)%N then lit "SS" else [c].

Definition toUpperCase (s : str) : str := flat_map upperUnit s.

Definition ascii_eqb (a b : ascii) : bool := Ascii.eqb a b.
Arguments ascii_eqb (a b)%_char_scope.

Fixpoint str_eqb (s t : str) : bool :=
  match s, t with
  | [], [] => true
  | a :: s', b :: t' => ascii_eqb a b && str_eqb s' t'
  | _, _ => false
  end.

(** [String.prototype.trim]. *)
Fixpoint trimStart (s : str) : str :=
  match s with
  | a :: s' => if isSpace a then trimStart s' else s
  | [] => []
  end.

Definition trimEnd (s : str) : str := rev (trimStart (rev s)).

Definition trim (s : str) : str := trimEnd (trimStart s).

(** [String.prototype.slice (a, b)] for [0 <= a <= b]. *)
Definition slice (a b : nat) (s : str) : str := firstn (b - a) (skipn a s).

(** [Array.prototype.join]. *)
Fixpoint join (sep : str) (l : list str) : str :=
  match l with
  | [] => []
  | [x] => x
  | x :: l' => x ++ sep ++ join sep l'
  end.

(** ** Regular expressions

    The syntax covers what the literals of the source use: character
    classes, concatenation, alternation, a quantifier on a class
    ([*], [+], [{lo,hi}], greedy or lazy), [?] on a sub-expression,
    capture groups and the assertions [^], [$] and [\b]. *)

Inductive regex : Type :=
| Eps
| Cls (p : ascii -> bool)
| Cat (r1 r2 : regex)
| Alt (r1 r2 : regex)
| Rep (greedy : bool) (lo : nat) (hi : option nat) (p : ascii -> bool)
| Opt (r : regex)
| Grp (i : nat) (r : regex)
| Bol
| Eol
| WordB.

(** The state of a match attempt: the capture table, the code unit just
    before the current position ([None] at the start of the input) and the
    input still to be read.  A capture is stored as the pair of the
    numbers of code units that remained when the group was entered and
    when it was left. *)
Record mstate : Type := MState {
  caps : list (nat * (nat * nat));
  prev : option ascii;
  rest : str
}.

Definition setcap (i : nat) (span : nat * nat) (st : mstate) : mstate :=
  MState ((i, span) :: caps st) (prev st) (rest st).

(** States reached by reading [k] code units of the class [p], for each
    [k] between [lo] and [hi] that the input allows, fewest first. *)
Fixpoint runs (p : ascii -> bool) (lo : nat) (hi : option nat)
         (c : list (nat * (nat * nat))) (pv : option ascii) (s : str) : list mstate :=
  (if (lo =? 0)%nat then [MState c pv s] else []) ++
  match hi with
  | Some O => []
  | _ =>
    match s with
    | a :: s' =>
        if p a then runs p (Nat.pred lo) (option_map Nat.pred hi) c (Some a) s' else []
    | [] => []
    end
  end.

Definition wordAt (o : option ascii) : bool :=
  match o with Some a => isWord a | None => false end.

(** [m r st]: the states in which a match of [r] started in [st] can end,
    in the order in which a backtracking matcher tries them. *)
Fixpoint m (r : regex) (st : mstate) : list mstate :=
  match r with
  | Eps => [st]
  | Cls p =>
      match rest st with
      | a :: s' => if p a then [MState (caps st) (Some a) s'] else []
      | [] => []
      end
  | Cat r1 r2 => flat_map (m r2) (m r1 st)
  | Alt r1 r2 => m r1 st ++ m r2 st
  | Rep greedy lo hi p =>
      let l := runs p lo hi (caps st) (prev st) (rest st) in
      if greedy then rev l else l
  | Opt r1 => m r1 st ++ [st]
  | Grp i r1 =>
      map (fun st' => setcap i (length (rest st), length (rest st')) st') (m r1 st)
  | Bol => match prev st with None => [st] | Some _ => [] end
  | Eol => match rest st with [] => [st] | _ :: _ => [] end
  | WordB =>
      if xorb (wordAt (prev st)) (wordAt (hd_error (rest st))) then [st] else []
  end.

(** A match found by a search: the input from the start of the match and
    the final state. *)
Record found : Type := Found { from : str; final : mstate }.

(** Leftmost match at or after the current position. *)
Fixpoint search (r : regex) (pv : option ascii) (s : str) : option found :=
  match m r (MState [] pv s) with
  | st :: _ => Some (Found s st)
  | [] =>
      match s with
      | a :: s' => search r (Some a) s'
      | [] => None
      end
  end.

(** [RegExp.prototype.test] and [String.prototype.match] without [g]. *)
Definition test (r : regex) (s : str) : bool :=
  match search r None s with Some _ => true | None => false end.

Definition exec (r : regex) (s : str) : option found := search r None s.

Fixpoint lookup_cap (i : nat) (c : list (nat * (nat * nat))) : option (nat * nat) :=
  match c with
  | [] => None
  | (j, sp) :: c' => if (i =? j)%nat then Some sp else lookup_cap i c'
  end.

(** Text of capture group [i] of a match ([undefined] is [None]). *)
Definition group (f : found) (i : nat) : option str :=
  match lookup_cap i (caps (final f)) with
  | Some (a, b) => Some (firstn (a - b) (skipn (length (from f) - a) (from f)))
  | None => None
  end.

(** Text of the whole match. *)
Definition matched (f : found) : str :=
  firstn (length (from f) - length (rest (final f))) (from f).

(** [String.prototype.replace] with a regular expression without [g]:
    the first match is replaced. *)
Definition replace1 (r : regex) (repl : found -> str) (s : str) : str :=
  match search r None s with
  | None => s
  | Some f => firstn (length s - length (from f)) s ++ repl f ++ rest (final f)
  end.

(** [String.prototype.replace] with the [g] flag: every match is replaced,
    the search resuming where the previous match ended (one code unit
    further after an empty match).  [skip] counts the code units of the
    current match that are still to be passed. *)
Fixpoint replaceAll_from (r : regex) (repl : found -> str) (skip : nat)
         (pv : option ascii) (s : str) : str :=
  match skip with
  | S k =>
      match s with
      | a :: s' => replaceAll_from r repl k (Some a) s'
      | [] => []
      end
  | O =>
      match m r (MState [] pv s) with
      | st :: _ =>
          repl (Found s st) ++
          match (length s - length (rest st))%nat, s with
          | O, a :: s' => a :: replaceAll_from r repl 0 (Some a) s'
          | S k, a :: s' => replaceAll_from r repl k (Some a) s'
          | _, [] => []
          end
      | [] =>
          match s with
          | a :: s' => a :: replaceAll_from r repl 0 (Some a) s'
          | [] => []
          end
      end
  end.

Definition replaceAll (r : regex) (repl : found -> str) (s : str) : str :=
  replaceAll_from r repl 0 None s.

(** [String.prototype.split] with a regular expression without capture
    groups.  [cur] is the piece being collected, reversed. *)
Fixpoint split_from (r : regex) (skip : nat) (pv : option ascii) (s : str)
         (cur : str) : list str :=
  match skip with
  | S k =>
      match s with
      | a :: s' => split_from r k (Some a) s' cur
      | [] => [rev cur]
      end
  | O =>
      match s with
      | [] => [rev cur]
      | a :: s' =>
          match m r (MState [] pv s) with
          | st :: _ =>
              match (length s - length (rest st))%nat with
              | O =>
                  match cur with
                  | [] => split_from r 0 (Some a) s' [a]
                  | _ :: _ => rev cur :: split_from r 0 (Some a) s' [a]
                  end
              | S k => rev cur :: split_from r k (Some a) s' []
              end
          | [] => split_from r 0 (Some a) s' (a :: cur)
          end
      end
  end.

Definition split (r : regex) (s : str) : list str :=
  match s with
  | [] => match m r (MState [] None []) with [] => [[]] | _ :: _ => [] end
  | _ :: _ => split_from r 0 None s []
  end.

(** *** Building blocks for the literals *)

Definition chr (a : ascii) : regex := Cls (ascii_eqb a).

(** A code unit under the [i] flag. *)
Definition chr_i (a : ascii) : regex := Cls (fun c => ascii_eqb (toLower c) (toLower a)).

Fixpoint cat (l : list regex) : regex :=
  match l with
  | [] => Eps
  | [r] => r
  | r :: l' => Cat r (cat l')
  end.

Definition word (s : string) : regex := cat (map chr (lit s)).
Definition word_i (s : string) : regex := cat (map chr_i (lit s)).

Definition star (p : ascii -> bool) : regex := Rep true 0 None p.
Definition plus (p : ascii -> bool) : regex := Rep true 1 None p.
Definition times (lo hi : nat) (p : ascii -> bool) : regex := Rep true lo (Some hi) p.
Definition exactly (n : nat) (p : ascii -> bool) : regex := Rep true n (Some n) p.
Definition lazy_star (p : ascii -> bool) : regex := Rep false 0 None p.

Definition anyChar (c : ascii) : bool := negb (isLineTerminator c).
Definition oneOf (s : string) (c : ascii) : bool := existsb (ascii_eqb c) (lit s).

(** ** Numbers and their decimal text *)

Local Open Scope Z_scope.

Definition digitVal (c : ascii) : Z := Z.of_N (code c) - 48.

Definition digitChar (n : Z) : ascii := ascii_of_N (Z.to_N (n + 48)).

(** [Number (s)] for a string of decimal digits. *)
Definition Number (s : str) : Z :=
  fold_left (fun acc c => 10 * acc + digitVal c) s 0.

(** Decimal digits of a natural number, at least one. *)
Fixpoint digitsOf (fuel : nat) (n : Z) (acc : str) : str :=
  match fuel with
  | O => acc
  | S f =>
      let acc' := digitChar (n mod 10) :: acc in
      if n / 10 =? 0 then acc' else digitsOf f (n / 10) acc'
  end.

(** [String (n)] for an integer. *)
Definition NumberToString (n : Z) : str :=
  if n <? 0 then "-"%char :: digitsOf (S (Z.to_nat (Z.log2 (- n)))) (- n) []
  else digitsOf (S (Z.to_nat (Z.log2 n))) n [].

(** [String.prototype.padStart (n, "0")]. *)
Definition padStart0 (n : nat) (s : str) : str :=
  repeat "0"%char (n - length s) ++ s.

Definition pad2 (n : Z) : str := padStart0 2 (NumberToString n).

(** ** Time values and calendar fields (ECMAScript, section Date)

    [Day], [TimeWithinDay], [MakeTime], [MakeDay], [MakeDate], [TimeClip]
    and the [...FromTime] functions of the language specification, the
    proleptic Gregorian calendar being computed with the usual
    era-based day-number formulas. *)

Definition msPerSecond : Z := 1000.
Definition msPerMinute : Z := 60000.
Definition msPerHour : Z := 3600000.
Definition msPerDay : Z := 86400000.

Definition Day (t : Z) : Z := t / msPerDay.
Definition TimeWithinDay (t : Z) : Z := t mod msPerDay.

(** Day number (days since the epoch) of the civil date [y]-[mo]-[d],
    [mo] counted from 1. *)
Definition daysFromCivil (y mo d : Z) : Z :=
  let y' := if mo <=? 2 then y - 1 else y in
  let era := y' / 400 in
  let yoe := y' - era * 400 in
  let mp := if 2 <? mo then mo - 3 else mo + 9 in
  let doy := (153 * mp + 2) / 5 + d - 1 in
  let doe := yoe * 365 + yoe / 4 - yoe / 100 + doy in
  era * 146097 + doe - 719468.

(** Civil date (year, month from 1, day of month) of a day number. *)
Definition civilFromDays (z : Z) : Z * Z * Z :=
  let z' := z + 719468 in
  let era := z' / 146097 in
  let doe := z' - era * 146097 in
  let yoe := (doe - doe / 1460 + doe / 36524 - doe / 146096) / 365 in
  let doy := doe - (365 * yoe + yoe / 4 - yoe / 100) in
  let mp := (5 * doy + 2) / 153 in
  let d := doy - (153 * mp + 2) / 5 + 1 in
  let mo := if mp <? 10 then mp + 3 else mp - 9 in
  let y := yoe + era * 400 in
  ((if mo <=? 2 then y + 1 else y), mo, d).

Definition YearFromTime (t : Z) : Z := fst (fst (civilFromDays (Day t))).
(** Month counted from 0, as [getMonth] returns it. *)
Definition MonthFromTime (t : Z) : Z := snd (fst (civilFromDays (Day t))) - 1.
Definition DateFromTime (t : Z) : Z := snd (civilFromDays (Day t)).
Definition HourFromTime (t : Z) : Z := (t / msPerHour) mod 24.
Definition MinFromTime (t : Z) : Z := (t / msPerMinute) mod 60.
Definition SecFromTime (t : Z) : Z := (t / msPerSecond) mod 60.
Definition msFromTime (t : Z) : Z := t mod msPerSecond.

Definition MakeTime (h mi s ms : Z) : Z :=
  h * msPerHour + mi * msPerMinute + s * msPerSecond + ms.

(** [month] counted from 0 and of any size, [date] of any size. *)
Definition MakeDay (year month date : Z) : Z :=
  let ym := year + month / 12 in
  let mn := month mod 12 in
  daysFromCivil ym (mn + 1) 1 + date - 1.

Definition MakeDate (day time : Z) : Z := day * msPerDay + time.

Definition TimeClip (t : Z) : option Z :=
  if Z.abs t <=? 8640000000000000 then Some t else None.

Definition DaysInMonth (y mo : Z) : Z :=
  daysFromCivil (y + mo / 12) (mo mod 12 + 1) 1 - daysFromCivil y mo 1.

(** ** The runtime

    What the program takes from its JavaScript runtime and does not
    define: the implementation-defined part of [Date.parse] and the local
    time zone.  [LocalTZA t true] is the offset of local time from UTC at
    the UTC time value [t], [LocalTZA t false] the offset at the local
    time value [t]. *)
Record Runtime : Type := {
  legacyParse : str -> option Z;
  LocalTZA : Z -> bool -> Z
}.

Definition LocalTime (rt : Runtime) (t : Z) : Z := t + LocalTZA rt t true.
Definition UTC (rt : Runtime) (t : Z) : Z := t - LocalTZA rt t false.

(** A date is its time value. *)
Definition Date := Z.

Definition getFullYear (rt : Runtime) (d : Date) : Z := YearFromTime (LocalTime rt d).
Definition getMonth (rt : Runtime) (d : Date) : Z := MonthFromTime (LocalTime rt d).
Definition getDate (rt : Runtime) (d : Date) : Z := DateFromTime (LocalTime rt d).
Definition getUTCFullYear (d : Date) : Z := YearFromTime d.
Definition getUTCMonth (d : Date) : Z := MonthFromTime d.
Definition getUTCDate (d : Date) : Z := DateFromTime d.

(** [new Date (year, month, date, hours, minutes, seconds)] with integer
    arguments; a year from 0 to 99 stands for 1900 + year. *)
Definition newDateFields (rt : Runtime) (year month date h mi s : Z) : option Date :=
  let yr := if (0 <=? year) && (year <=? 99) then 1900 + year else year in
  TimeClip (UTC rt (MakeDate (MakeDay yr month date) (MakeTime h mi s 0))).

Definition allDigits (s : str) : bool := forallb isDigit s.

(** The code unit at index [i] is [c]. *)
Definition symAt (s : str) (i : nat) (c : ascii) : bool :=
  match nth_error s i with Some a => ascii_eqb a c | None => false end.
Arguments symAt s i%_nat_scope c%_char_scope.

(** The part of [Date.parse] that the language fixes and that the program
    relies on: the date-time format with time zone [Z],
    [YYYY-MM-DDTHH:mm:ss[.sss]Z], the year also in the expanded form of a
    sign and six digits, every field within its range.  Any other string
    is left to the runtime. *)
Definition isoParse (s : str) : option Z :=
  let '(sign, ylen, s1) :=
    match s with
    | c :: s' =>
        if ascii_eqb c "+" then (1, 6%nat, s')
        else if ascii_eqb c "-" then (-1, 6%nat, s')
        else (1, 4%nat, s)
    | [] => (1, 4%nat, s)
    end in
  let y := firstn ylen s1 in
  let tl := skipn ylen s1 in
  let short := (length tl =? 16)%nat in
  let long := (length tl =? 20)%nat in
  let mo := slice 1 3 tl in
  let d := slice 4 6 tl in
  let h := slice 7 9 tl in
  let mi := slice 10 12 tl in
  let sec := slice 13 15 tl in
  let ms := if long then slice 16 19 tl else [] in
  if (length y =? ylen)%nat && (short || long)
     && symAt tl 0 "-" && symAt tl 3 "-" && symAt tl 6 "T" && symAt tl 9 ":" && symAt tl 12 ":"
     && (if long then symAt tl 15 "." && symAt tl 19 "Z" else symAt tl 15 "Z")
     && allDigits (y ++ mo ++ d ++ h ++ mi ++ sec ++ ms)
     && negb ((sign <? 0) && (Number y =? 0))
     && (1 <=? Number mo) && (Number mo <=? 12)
     && (1 <=? Number d) && (Number d <=? DaysInMonth (sign * Number y) (Number mo))
     && (Number h <=? 23) && (Number mi <=? 59) && (Number sec <=? 59)
  then
    TimeClip (MakeDate (daysFromCivil (sign * Number y) (Number mo) (Number d))
                       (MakeTime (Number h) (Number mi) (Number sec) (Number ms)))
  else None.

(** [new Date (s)] for a string: the time value, [None] for the invalid
    date. *)
Definition newDateString (rt : Runtime) (s : str) : option Date :=
  match isoParse s with
  | Some t => Some t
  | None => legacyParse rt s
  end.

(** [Date.prototype.toISOString] of a valid date. *)
Definition toISOString (d : Date) : str :=
  let y := YearFromTime d in
  let ys :=
    if (0 <=? y) && (y <=? 9999) then padStart0 4 (NumberToString y)
    else (if y <? 0 then "-"%char else "+"%char) :: padStart0 6 (NumberToString (Z.abs y)) in
  ys ++ lit "-" ++ pad2 (MonthFromTime d + 1) ++ lit "-" ++ pad2 (DateFromTime d)
     ++ lit "T" ++ pad2 (HourFromTime d) ++ lit ":" ++ pad2 (MinFromTime d)
     ++ lit ":" ++ pad2 (SecFromTime d) ++ lit "."
     ++ padStart0 3 (NumberToString (msFromTime d)) ++ lit "Z".

(** ** The wall clock

    Every [new Date ()] and [Date.now ()] is one reading of the wall
    clock.  A computation that reads the clock is run against a timeline,
    the sequence of the values that successive readings return, and
    threads the number of readings made so far. *)

Definition Timeline := nat -> Z.

Definition Clock (A : Type) : Type := Timeline -> nat -> A * nat.

Definition ret {A} (a : A) : Clock A := fun _ n => (a, n).

Definition bind {A B} (c : Clock A) (k : A -> Clock B) : Clock B :=
  fun tl n => let (a, n') := c tl n in k a tl n'.

Definition readClock : Clock Date := fun tl n => (tl n, S n).

Notation "x <- c1 ;; c2" := (bind c1 (fun x => c2))
  (at level 61, c1 at next level, right associativity).

(** Result of a computation started at the first reading. *)
Definition runClock {A} (c : Clock A) (tl : Timeline) : A := fst (c tl O).

(** [Array.prototype.filter] with a callback that reads the clock. *)
Fixpoint filterM {A} (f : A -> Clock bool) (l : list A) : Clock (list A) :=
  match l with
  | [] => ret []
  | x :: l' =>
      b <- f x ;;
      r <- filterM f l' ;;
      ret (if b then x :: r else r)
  end.

(** ** src/app/page.tsx: [parseDate] *)

Definition re_ordinal : regex :=            (* /(\d+)(st|nd|rd|th)/gi *)
  Cat (Grp 1 (plus isDigit))
      (Grp 2 (Alt (word_i "st") (Alt (word_i "nd") (Alt (word_i "rd") (word_i "th"))))).

Definition re_fromIP : regex :=             (* /from IP.*$/i *)
  cat [word_i "from IP"; star anyChar; Eol].

Definition re_labels : regex :=             (* /Updated|Created/gi *)
  Alt (word_i "Updated") (word_i "Created").

Definition re_gmt : regex :=                (* /\s+GMT[+\-]\d{2,4}$/i *)
  cat [plus isSpace; word_i "GMT"; Cls (oneOf "+-"); times 2 4 isDigit; Eol].

Definition commaOrSpace (c : ascii) : bool := ascii_eqb c "," || isSpace c.
Definition dashOrSlash (c : ascii) : bool := oneOf "-/" c.

(* /([A-Za-z]{3,9})\.?\s+(\d{1,2}),?\s*(\d{4})?[,\s]*?(\d{1,2}):(\d{2})(?::(\d{2}))?\s*(AM|PM)?/i *)
Definition re_monthTime : regex :=
  cat [Grp 1 (times 3 9 isAlpha); Opt (chr "."); plus isSpace;
       Grp 2 (times 1 2 isDigit); Opt (chr ","); star isSpace;
       Opt (Grp 3 (exactly 4 isDigit)); lazy_star commaOrSpace;
       Grp 4 (times 1 2 isDigit); chr ":"; Grp 5 (exactly 2 isDigit);
       Opt (Cat (chr ":") (Grp 6 (exactly 2 isDigit)));
       star isSpace; Opt (Grp 7 (Alt (word_i "AM") (word_i "PM")))].

(* /([A-Za-z]{3,9})\.?\s+(\d{1,2}),?\s*(\d{4})?/i *)
Definition re_monthOnly : regex :=
  cat [Grp 1 (times 3 9 isAlpha); Opt (chr "."); plus isSpace;
       Grp 2 (times 1 2 isDigit); Opt (chr ","); star isSpace;
       Opt (Grp 3 (exactly 4 isDigit))].

(* /(\d{4})[-\/](\d{1,2})[-\/](\d{1,2})/ *)
Definition re_ymd : regex :=
  cat [Grp 1 (exactly 4 isDigit); Cls dashOrSlash; Grp 2 (times 1 2 isDigit);
       Cls dashOrSlash; Grp 3 (times 1 2 isDigit)].

(* /(\d{1,2})[\/\-](\d{1,2})[\/\-](\d{4})/ *)
Definition re_mdy : regex :=
  cat [Grp 1 (times 1 2 isDigit); Cls dashOrSlash; Grp 2 (times 1 2 isDigit);
       Cls dashOrSlash; Grp 3 (exactly 4 isDigit)].

(** The replacement pattern ['$1']. *)
Definition dollar1 (f : found) : str :=
  match group f 1 with Some g => g | None => [] end.

Definition noText (f : found) : str := [].

(** The clean-up of [parseDate] (lines 55 to 63). *)
Definition cleanupDisplay (ts : str) : str :=
  let raw := trim ts in
  trim (replace1 re_gmt noText
         (replaceAll re_labels noText
           (replace1 re_fromIP noText
             (replaceAll re_ordinal dollar1 raw)))).

Definition saneYear (nowYear y : Z) : bool := (2000 <=? y) && (y <=? nowYear + 2).

Definition monthMap : list (string * Z) :=
  [("jan", 0); ("january", 0);
   ("feb", 1); ("february", 1);
   ("mar", 2); ("march", 2);
   ("apr", 3); ("april", 3);
   ("may", 4);
   ("jun", 5); ("june", 5);
   ("jul", 6); ("july", 6);
   ("aug", 7); ("august", 7);
   ("sep", 8); ("sept", 8); ("september", 8);
   ("oct", 9); ("october", 9);
   ("nov", 10); ("november", 10);
   ("dec", 11); ("december", 11)]%string.

Fixpoint lookupMonth (tbl : list (string * Z)) (name : str) : option Z :=
  match tbl with
  | [] => None
  | (k, v) :: tbl' => if str_eqb (lit k) name then Some v else lookupMonth tbl' name
  end.

(** A date is returned only when it is valid and its local year is sane:
    [!isNaN (d.getTime ()) && saneYear (d.getFullYear ())]. *)
Definition accept (rt : Runtime) (nowYear : Z) (d : option Date) : option Date :=
  match d with
  | Some t => if saneYear nowYear (getFullYear rt t) then Some t else None
  | None => None
  end.

Definition orElse {A} (a : option A) (b : option A) : option A :=
  match a with Some _ => a | None => b end.

Definition groupText (f : found) (i : nat) : str :=
  match group f i with Some g => g | None => [] end.

(** Strategy 2 (lines 88 to 111). *)
Definition tryMonthTime (rt : Runtime) (nowYear : Z) (cleaned : str) : option Date :=
  match exec re_monthTime cleaned with
  | Some f =>
      let monthName := toLowerCase (groupText f 1) in
      let day := Number (groupText f 2) in
      let year := match group f 3 with Some y => Number y | None => nowYear end in
      let hour := Number (groupText f 4) in
      let minute := Number (groupText f 5) in
      let second := match group f 6 with Some x => Number x | None => 0 end in
      let hour' :=
        match group f 7 with
        | Some ampm =>
            let h1 := if test (word_i "pm") ampm && (hour <? 12) then hour + 12 else hour in
            if test (word_i "am") ampm && (h1 =? 12) then 0 else h1
        | None => hour
        end in
      match lookupMonth monthMap monthName with
      | Some mi => accept rt nowYear (newDateFields rt year mi day hour' minute second)
      | None => None
      end
  | None => None
  end.

(** Strategy 3 (lines 113 to 123). *)
Definition tryMonthOnly (rt : Runtime) (nowYear : Z) (cleaned : str) : option Date :=
  match exec re_monthOnly cleaned with
  | Some f =>
      let day := Number (groupText f 2) in
      let year := match group f 3 with Some y => Number y | None => nowYear end in
      match lookupMonth monthMap (toLowerCase (groupText f 1)) with
      | Some mi => accept rt nowYear (newDateFields rt year mi day 0 0 0)
      | None => None
      end
  | None => None
  end.

(** Strategy 4 (lines 125 to 130). *)
Definition tryYmd (rt : Runtime) (nowYear : Z) (cleaned : str) : option Date :=
  match exec re_ymd cleaned with
  | Some f =>
      accept rt nowYear
        (newDateFields rt (Number (groupText f 1)) (Number (groupText f 2) - 1)
                       (Number (groupText f 3)) 0 0 0)
  | None => None
  end.

(** Strategy 5 (lines 132 to 137). *)
Definition tryMdy (rt : Runtime) (nowYear : Z) (cleaned : str) : option Date :=
  match exec re_mdy cleaned with
  | Some f =>
      accept rt nowYear
        (newDateFields rt (Number (groupText f 3)) (Number (groupText f 1) - 1)
                       (Number (groupText f 2)) 0 0 0)
  | None => None
  end.

(** The strategies on the cleaned string, [now] being the reading of the
    clock of line 65. *)
Definition parseCleaned (rt : Runtime) (now : Date) (cleaned : str) : option Date :=
  let nowYear := getFullYear rt now in
  orElse (accept rt nowYear (newDateString rt cleaned))
    (orElse (tryMonthTime rt nowYear cleaned)
      (orElse (tryMonthOnly rt nowYear cleaned)
        (orElse (tryYmd rt nowYear cleaned)
                (tryMdy rt nowYear cleaned)))).

(** [parseDate (ts)]: [None] is [null]; the argument is absent ([None])
    or a string. *)
Definition parseDate (rt : Runtime) (ts : option str) : Clock (option Date) :=
  match ts with
  | None | Some [] => ret None
  | Some s =>
      now <- readClock ;;
      ret (parseCleaned rt now (cleanupDisplay s))
  end.

Definition dateKey (rt : Runtime) (d : Date) : str :=
  NumberToString (getFullYear rt d) ++ lit "-" ++ pad2 (getMonth rt d + 1)
    ++ lit "-" ++ pad2 (getDate rt d).

Definition dateKeyUTC (d : Date) : str :=
  NumberToString (getUTCFullYear d) ++ lit "-" ++ pad2 (getUTCMonth d + 1)
    ++ lit "-" ++ pad2 (getUTCDate d).

(* /\d{4}-\d{2}-\d{2}T\d{2}:\d{2}:\d{2}(?:\.\d+)?Z$/ *)
Definition re_isoUTC : regex :=
  cat [exactly 4 isDigit; chr "-"; exactly 2 isDigit; chr "-"; exactly 2 isDigit;
       chr "T"; exactly 2 isDigit; chr ":"; exactly 2 isDigit; chr ":";
       exactly 2 isDigit; Opt (Cat (chr ".") (plus isDigit)); chr "Z"; Eol].

Definition isIsoUTC (s : option str) : bool :=
  match s with
  | Some x => test re_isoUTC (trim x)
  | None => false
  end.

(** ** src/app/api/tickets/route.js: [parseDateToMySQL] *)

(** The value of a JSON field handed to [parseDateToMySQL]: absent
    ([undefined] or [null]), a string, or another value, of which only
    the truthiness matters. *)
Inductive jsvalue : Type :=
| JAbsent
| JString (s : str)
| JOther (truthy : bool).

Definition truthy (v : jsvalue) : bool :=
  match v with
  | JAbsent => false
  | JString [] => false
  | JString (_ :: _) => true
  | JOther b => b
  end.

Inductive completion (A : Type) : Type :=
| Normal (a : A)
| Throw (name : string).
Arguments Normal {A} a.
Arguments Throw {A} name.

(* /([A-Za-z]{3,9})\s+(\d{1,2}),?\s*(\d{4})?\s*(\d{1,2}:\d{2}(:\d{2})?\s*(AM|PM)?)/i *)
Definition re_mysql : regex :=
  cat [Grp 1 (times 3 9 isAlpha); plus isSpace; Grp 2 (times 1 2 isDigit);
       Opt (chr ","); star isSpace; Opt (Grp 3 (exactly 4 isDigit)); star isSpace;
       Grp 4 (cat [times 1 2 isDigit; chr ":"; exactly 2 isDigit;
                   Opt (Grp 5 (Cat (chr ":") (exactly 2 isDigit)));
                   star isSpace; Opt (Grp 6 (Alt (word_i "AM") (word_i "PM")))])].

(** The clean-up of [parseDateToMySQL] (lines 19 to 23). *)
Definition cleanupStorage (dateString : str) : str :=
  trim (replaceAll re_labels noText
         (replace1 re_fromIP noText
           (replaceAll re_ordinal dollar1 dateString))).

(** [String.prototype.replace ('T', ' ')]: the first ['T'] becomes a
    blank. *)
Fixpoint replaceT (s : str) : str :=
  match s with
  | [] => []
  | a :: s' => if ascii_eqb a "T" then " "%char :: s' else a :: replaceT s'
  end.

(** [date.toISOString ().slice (0, 19).replace ('T', ' ')];
    [toISOString] throws on the invalid date. *)
Definition mysqlFormat (d : option Date) : completion str :=
  match d with
  | Some t => Normal (replaceT (slice 0 19 (toISOString t)))
  | None => Throw "RangeError"
  end.

(** The body of the [try] block (lines 18 to 44). *)
Definition parseDateToMySQL_try (rt : Runtime) (dateString : jsvalue)
  : Clock (completion str) :=
  match dateString with
  | JString s =>
      let cleaned := cleanupStorage s in
      date1 <-
        match newDateString rt cleaned with
        | Some t => ret (Some t)
        | None =>
            match exec re_mysql cleaned with
            | Some f =>
                year <-
                  match group f 3 with
                  | Some ((_ :: _) as y) => ret y
                  | _ => now <- readClock ;; ret (NumberToString (getFullYear rt now))
                  end ;;
                ret (newDateString rt
                       (groupText f 1 ++ lit " " ++ groupText f 2 ++ lit ", "
                          ++ year ++ lit " " ++ groupText f 4))
            | None => ret None
            end
        end ;;
      date2 <-
        match date1 with
        | Some t => ret (Some t)
        | None => now <- readClock ;; ret (Some now)
        end ;;
      ret (mysqlFormat date2)
  | _ => ret (Throw "TypeError")
  end.

(** [parseDateToMySQL (dateString)]. *)
Definition parseDateToMySQL (rt : Runtime) (dateString : jsvalue)
  : Clock (completion str) :=
  if negb (truthy dateString) then
    now <- readClock ;; ret (mysqlFormat (Some now))
  else
    r <- parseDateToMySQL_try rt dateString ;;
    match r with
    | Normal v => ret (Normal v)
    | Throw _ => now <- readClock ;; ret (mysqlFormat (Some now))
    end.

(** ** src/app/page.tsx: the aggregations of [Dashboard] *)

Record TicketItem : Type := {
  ticket_id : str;
  brand : option str;
  status : option str;
  created_at : option str;
  updated_at : option str
}.

(** [t.updated_at ?? t.created_at]. *)
Definition selectedDate (t : TicketItem) : option str :=
  match updated_at t with
  | Some s => Some s
  | None => created_at t
  end.

(** The key functions on a date that may be invalid: each field of the
    invalid date prints as [NaN]. *)
Definition dateKeyOf (rt : Runtime) (d : option Date) : str :=
  match d with Some t => dateKey rt t | None => lit "NaN-NaN-NaN" end.

Definition dateKeyUTCOf (d : option Date) : str :=
  match d with Some t => dateKeyUTC t | None => lit "NaN-NaN-NaN" end.

(** [yesterdayDate] (lines 198 to 201). *)
Definition yesterdayOf (rt : Runtime) (todayDate : Date) : option Date :=
  newDateFields rt (getFullYear rt todayDate) (getMonth rt todayDate)
                (getDate rt todayDate - 1) 0 0 0.

(** The callback of [ticketsToday] (lines 205 to 213). *)
Definition isToday (rt : Runtime) (todayDate : Date) (t : TicketItem) : Clock bool :=
  let raw := selectedDate t in
  o <- parseDate rt raw ;;
  match o with
  | None => ret false
  | Some d =>
      if isIsoUTC raw then
        now <- readClock ;;
        ret (str_eqb (dateKeyUTC d) (dateKeyUTC now))
      else ret (str_eqb (dateKey rt d) (dateKey rt todayDate))
  end.


Definition ticketsToday (rt : Runtime) (todayDate : Date) (tickets : list TicketItem)
  : Clock nat :=
  l <- filterM (isToday rt todayDate) tickets ;; ret (length l).



(** *** Objects used as counters

    [counts : Record<string, number>] holds its own properties in creation
    order; [Object.keys] and [Object.entries] list the keys that are array
    indices first, in ascending numeric order, then the others in creation
    order. *)
Definition counter := list (str * Z).

(** [counts[k] = (counts[k] || 0) + 1]. *)
Fixpoint bump (k : str) (o : counter) : counter :=
  match o with
  | [] => [(k, 1)]
  | (k', v) :: o' => if str_eqb k' k then (k', v + 1) :: o' else (k', v) :: bump k o'
  end.

Fixpoint getCount (k : str) (o : counter) : Z :=
  match o with
  | [] => 0
  | (k', v) :: o' => if str_eqb k' k then v else getCount k o'
  end.

Definition isArrayIndex (k : str) : bool :=
  match k with
  | [] => false
  | c :: k' =>
      allDigits k && (negb (ascii_eqb c "0") || match k' with [] => true | _ => false end)
      && (Number k <=? 4294967294)
  end.

Section Sorting.
Variable A : Type.
(** [cmp a b <= 0] when [a] may stay before [b]. *)
Variable cmp : A -> A -> Z.

Fixpoint insertSorted (x : A) (l : list A) : list A :=
  match l with
  | [] => [x]
  | y :: l' => if cmp x y <=? 0 then x :: l else y :: insertSorted x l'
  end.

(** [Array.prototype.sort], which is stable. *)
Definition sortBy (l : list A) : list A := fold_right insertSorted [] l.
End Sorting.

Definition entries (o : counter) : list (str * Z) :=
  sortBy (fun a b => Number (fst a) - Number (fst b))
         (filter (fun e => isArrayIndex (fst e)) o)
  ++ filter (fun e => negb (isArrayIndex (fst e))) o.

Definition keys (o : counter) : list str := map fst (entries o).

(** [a.localeCompare (b)] on the keys, which are made of digits and
    hyphens: the code units are compared one by one. *)
Fixpoint localeCompare (a b : str) : Z :=
  match a, b with
  | [], [] => 0
  | [], _ :: _ => -1
  | _ :: _, [] => 1
  | x :: a', y :: b' =>
      if (code x <? code y)%N then -1
      else if (code y <? code x)%N then 1
      else localeCompare a' b'
  end.

(** [forEach] with a callback that reads the clock and updates [counts]. *)
Fixpoint forEachM {A S} (f : A -> S -> Clock S) (l : list A) (acc : S) : Clock S :=
  match l with
  | [] => ret acc
  | x :: l' => acc' <- f x acc ;; forEachM f l' acc'
  end.

(** [ticketsPerDay] (lines 278 to 294); an entry is the pair of [key] and
    [count], the display [label] being left out. *)
Definition ticketsPerDay (rt : Runtime) (tickets : list TicketItem)
  : Clock (list (str * Z)) :=
  counts <-
    forEachM (fun t counts =>
                o <- parseDate rt (selectedDate t) ;;
                match o with
                | None => ret counts
                | Some d => ret (bump (dateKey rt d) counts)
                end) tickets [] ;;
  ret (map (fun k => (k, getCount k counts)) (sortBy localeCompare (keys counts))).

(** [filteredTickets] (lines 409 to 418) for a selected key. *)
Definition filteredTickets (rt : Runtime) (selectedDateKey : str)
           (tickets : list TicketItem) : Clock (list TicketItem) :=
  filterM (fun t =>
             let raw := selectedDate t in
             o <- parseDate rt raw ;;
             match o with
             | None => ret false
             | Some d =>
                 ret (str_eqb (if isIsoUTC raw then dateKeyUTC d else dateKey rt d)
                              selectedDateKey)
             end) tickets.

(** *** [normalizeBrand] (lines 181 to 190) *)

Definition isUnderscore (c : ascii) : bool := ascii_eqb c "_".
Definition spaceOrDot (c : ascii) : bool := isSpace c || ascii_eqb c ".".

Definition re_leadingUnderscores : regex := Cat Bol (plus isUnderscore).  (* /^_+/ *)
Definition re_separators : regex := plus spaceOrDot.                      (* /[\s.]+/ *)
Definition re_dotCom : regex := cat [chr "."; word_i "Com"; WordB].       (* /\.Com\b/i *)
Definition re_dotAu : regex := cat [chr "."; word_i "Au"; WordB].         (* /\.Au\b/i *)

(** [w.charAt (0).toUpperCase () + w.slice (1).toLowerCase ()]. *)
Definition titleCase (w : str) : str :=
  match w with
  | [] => []
  | c :: w' => toUpperCase [c] ++ toLowerCase w'
  end.

Definition normalizeBrand (name : option str) : str :=
  match name with
  | None | Some [] => lit "Unknown"
  | Some n =>
      let brand := replace1 re_leadingUnderscores noText (trim n) in
      let brand := join (lit ".") (map titleCase (split re_separators brand)) in
      replace1 re_dotAu (fun _ => lit ".au")
        (replace1 re_dotCom (fun _ => lit ".com") brand)
  end.

(** [ticketsByBrand] (lines 331 to 340). *)
Definition ticketsByBrand (tickets : list TicketItem) : list (str * Z) :=
  let counts := fold_left (fun counts t => bump (normalizeBrand (brand t)) counts)
                          tickets [] in
  sortBy (fun a b => snd b - snd a) (entries counts).

(** ** The aggregations at one fixed evaluation instant

    The counts as they come out when every reading of the clock returns
    the same instant [now]. *)

Definition parseDateAt (rt : Runtime) (now : Date) (ts : option str) : option Date :=
  match ts with
  | None | Some [] => None
  | Some s => parseCleaned rt now (cleanupDisplay s)
  end.

Definition isTodayAt (rt : Runtime) (now : Date) (t : TicketItem) : bool :=
  match parseDateAt rt now (selectedDate t) with
  | None => false
  | Some d =>
      if isIsoUTC (selectedDate t) then str_eqb (dateKeyUTC d) (dateKeyUTC now)
      else str_eqb (dateKey rt d) (dateKey rt now)
  end.

Definition isYesterdayAt (rt : Runtime) (now : Date) (t : TicketItem) : bool :=
  match parseDateAt rt now (selectedDate t) with
  | None => false
  | Some d =>
      if isIsoUTC (selectedDate t)
      then str_eqb (dateKeyUTC d) (dateKeyUTCOf (TimeClip (now - 24 * 60 * 60 * 1000)))
      else str_eqb (dateKey rt d) (dateKeyOf rt (yesterdayOf rt now))
  end.

Definition countsAt (rt : Runtime) (now : Date) (tickets : list TicketItem) : nat * nat :=
  (length (filter (isTodayAt rt now) tickets),
   length (filter (isYesterdayAt rt now) tickets)).





(** ** A reference environment

    A runtime whose [Date.parse] accepts only the date-time strings read
    by [isoParse] and rejects every other string, in the zone UTC+02:00,
    and clocks for the examples. *)

Definition refRuntime : Runtime :=
  {| legacyParse := fun _ => None; LocalTZA := fun _ _ => 7200000 |}.

(** 2025-10-14T03:14:00Z at every reading. *)
Definition refTimeline : Timeline := fun _ => 1760411640000.

(** The same zone with a native parser that reads two phrases, as the
    legacy parser of V8 does: "Oct 13, 2025 02:19:42 PM" as that local
    time, and "Oct 13 02:19:42 PM", which has no year, in its default
    year 2001, 2001-10-13T14:19:42 local time. *)
Definition legacyRuntime : Runtime :=
  {| legacyParse := fun s =>
       if str_eqb s (lit "Oct 13, 2025 02:19:42 PM") then Some 1760357982000
       else if str_eqb s (lit "Oct 13 02:19:42 PM") then Some 1002975582000
       else None;
     LocalTZA := fun _ _ => 7200000 |}.


Definition ticketDated (s : string) : TicketItem :=
  {| ticket_id := lit "T-1"; brand := None; status := None;
     created_at := None; updated_at := Some (lit s) |}.

Definition ticketBranded (b : option string) : TicketItem :=
  {| ticket_id := lit "T-1"; brand := option_map lit b; status := None;
     created_at := None; updated_at := None |}.

(** Sum of the counts of a list of entries. *)
Definition total (o : list (str * Z)) : Z := fold_right Z.add 0 (map snd o).

(** The counter after a [forEach] that bumps the label of each item. *)
Definition tally {A} (label : A -> str) (l : list A) (o : counter) : counter :=
  fold_left (fun counts t => bump (label t) counts) l o.

(** ** What a regular expression matches

    [den r pv s pv' s']: read from the input [s], preceded by the code
    unit [pv], the expression [r] can stop with [s'] left to read,
    preceded by [pv'].  Priorities and captures are left out. *)

Definition lastOr (pv : option ascii) (ds : str) : option ascii :=
  fold_left (fun _ a => Some a) ds pv.

Definition within (hi : option nat) (n : nat) : Prop :=
  match hi with Some h => (n <= h)%nat | None => True end.

Fixpoint den (r : regex) (pv : option ascii) (s : str) (pv' : option ascii) (s' : str)
  : Prop :=
  match r with
  | Eps => pv' = pv /\ s' = s
  | Cls p => exists a, s = a :: s' /\ p a = true /\ pv' = Some a
  | Cat r1 r2 => exists pv1 s1, den r1 pv s pv1 s1 /\ den r2 pv1 s1 pv' s'
  | Alt r1 r2 => den r1 pv s pv' s' \/ den r2 pv s pv' s'
  | Rep _ lo hi p =>
      exists ds, s = ds ++ s' /\ forallb p ds = true /\ (lo <= length ds)%nat
                 /\ within hi (length ds) /\ pv' = lastOr pv ds
  | Opt r1 => den r1 pv s pv' s' \/ (pv' = pv /\ s' = s)
  | Grp _ r1 => den r1 pv s pv' s'
  | Bol => pv = None /\ pv' = pv /\ s' = s
  | Eol => s = [] /\ pv' = pv /\ s' = s
  | WordB => xorb (wordAt pv) (wordAt (hd_error s)) = true /\ pv' = pv /\ s' = s
  end.

(** ** The shape that [isIsoUTC] looks for

    Four digits, two, two, the letter T, three times two digits, an
    optional fraction of one digit or more and the letter Z, the fields
    being separated as in [YYYY-MM-DDTHH:MM:SS.fffZ]; the digits are not
    checked against the calendar. *)

Definition digitsN (n : nat) (x : str) : Prop := length x = n /\ allDigits x = true.

Definition isoShape (s : str) : Prop :=
  exists y mo d h mi sec frac,
    s = y ++ lit "-" ++ mo ++ lit "-" ++ d ++ lit "T" ++ h ++ lit ":" ++ mi ++ lit ":"
          ++ sec ++ frac ++ lit "Z"
    /\ digitsN 4 y /\ digitsN 2 mo /\ digitsN 2 d /\ digitsN 2 h /\ digitsN 2 mi
    /\ digitsN 2 sec
    /\ (frac = [] \/ exists f, frac = "."%char :: f /\ f <> [] /\ allDigits f = true).

(** The class of strings of the specification of [isIsoUtc], the valid
    ISO-8601 instants with a [Z] suffix: a calendar date and a time of
    day in the extended format, followed by [Z], the time being written
    to the second, with or without a decimal fraction, or to the minute;
    the fields are a month from 01 to 12, a day of that month, an hour up
    to 23, a minute and a second up to 59.  First the instants written to
    the second: the strings of the shape above, and nothing else, with
    their fields in range. *)
Definition specIsoInstantZ (s : str) : bool :=
  let y := slice 0 4 s in
  let mo := slice 5 7 s in
  let d := slice 8 10 s in
  let h := slice 11 13 s in
  let mi := slice 14 16 s in
  let sec := slice 17 19 s in
  let frac := slice 19 (length s - 1) s in
  str_eqb s (y ++ lit "-" ++ mo ++ lit "-" ++ d ++ lit "T" ++ h ++ lit ":" ++ mi
               ++ lit ":" ++ sec ++ frac ++ lit "Z")
  && (length y =? 4)%nat && (length mo =? 2)%nat && (length d =? 2)%nat
  && (length h =? 2)%nat && (length mi =? 2)%nat && (length sec =? 2)%nat
  && allDigits y && allDigits mo && allDigits d && allDigits h && allDigits mi
  && allDigits sec
  && match frac with
     | [] => true
     | c :: f => ascii_eqb c "." && (1 <=? length f)%nat && allDigits f
     end
  && (1 <=? Number mo) && (Number mo <=? 12)
  && (1 <=? Number d) && (Number d <=? DaysInMonth (Number y) (Number mo))
  && (Number h <=? 23) && (Number mi <=? 59) && (Number sec <=? 59).

(** The instants written to the minute, [YYYY-MM-DDTHH:MMZ]. *)
Definition specIsoMinuteZ (s : str) : bool :=
  let y := slice 0 4 s in
  let mo := slice 5 7 s in
  let d := slice 8 10 s in
  let h := slice 11 13 s in
  let mi := slice 14 16 s in
  str_eqb s (y ++ lit "-" ++ mo ++ lit "-" ++ d ++ lit "T" ++ h ++ lit ":" ++ mi ++ lit "Z")
  && (length y =? 4)%nat && (length mo =? 2)%nat && (length d =? 2)%nat
  && (length h =? 2)%nat && (length mi =? 2)%nat
  && allDigits y && allDigits mo && allDigits d && allDigits h && allDigits mi
  && (1 <=? Number mo) && (Number mo <=? 12)
  && (1 <=? Number d) && (Number d <=? DaysInMonth (Number y) (Number mo))
  && (Number h <=? 23) && (Number mi <=? 59).

Definition validIsoInstantZ (s : str) : bool := specIsoInstantZ s || specIsoMinuteZ s.

(** ** Brand labels, described directly

    The functions against which the expression-based steps of
    [normalizeBrand] are characterised. *)

(** The input without its longest prefix in the class [p]. *)
Fixpoint dropWhile (p : ascii -> bool) (s : str) : str :=
  match s with
  | a :: s' => if p a then dropWhile p s' else s
  | [] => []
  end.

(** Length of the longest prefix in the class [p]. *)
Fixpoint runLength (p : ascii -> bool) (s : str) : nat :=
  match s with
  | a :: s' => if p a then S (runLength p s') else O
  | [] => O
  end.

(** Every maximal run of separators (blanks and dots) becomes one dot;
    [insep] tells that the previous code unit was a separator. *)
Fixpoint squash (insep : bool) (s : str) : str :=
  match s with
  | [] => []
  | a :: s' =>
      if spaceOrDot a then (if insep then squash true s' else "."%char :: squash true s')
      else a :: squash false s'
  end.

(** Upper case at the start and after a dot, lower case elsewhere. *)
Fixpoint recase (start : bool) (s : str) : str :=
  match s with
  | [] => []
  | a :: s' =>
      if ascii_eqb a "." then a :: recase true s'
      else (if start then toUpper a else toLower a) :: recase false s'
  end.

(** One more code unit in front of the first piece. *)
Definition consHead (a : ascii) (l : list str) : list str :=
  match l with
  | t :: ts => (a :: t) :: ts
  | [] => [[a]]
  end.

(** The pieces between the maximal runs of separators. *)
Fixpoint fieldsOf (insep : bool) (s : str) : list str :=
  match s with
  | [] => [[]]
  | a :: s' =>
      if spaceOrDot a then (if insep then fieldsOf true s' else [] :: fieldsOf true s')
      else consHead a (fieldsOf false s')
  end.

(** Text in front of the first piece. *)
Definition prependHead (x : str) (l : list str) : list str :=
  match l with
  | t :: ts => (x ++ t) :: ts
  | [] => [x]
  end.

(** The code units of the ASCII range, on which the case of a letter is
    given by [toLower] and [toUpper]. *)
Definition asciiUnit (c : ascii) : bool := (code c <? 128)%N.
Definition isAscii (s : str) : bool := forallb asciiUnit s.

(** Lower case and title case in the ASCII range. *)
Definition low (s : str) : str := map toLower s.

Definition titleCaseA (w : str) : str :=
  match w with
  | [] => []
  | c :: w' => toUpper c :: low w'
  end.

(** [titleCaseA] on every piece, the first one being lowered instead when
    it continues a piece already started. *)
Definition caseHead (start : bool) (l : list str) : list str :=
  match l with
  | t :: ts => (if start then titleCaseA t else low t) :: map titleCaseA ts
  | [] => []
  end.

(** No blank in the string. *)
Definition noSpace (s : str) : bool := forallb (fun c => negb (isSpace c)) s.
Definition headIs (p : ascii -> bool) (s : str) : bool :=
  match s with a :: _ => p a | [] => false end.

(** The two replacements of line 188. *)
Definition fixSuffixes (x : str) : str :=
  replace1 re_dotAu (fun _ => lit ".au") (replace1 re_dotCom (fun _ => lit ".com") x).

(** ** The clean-up, described directly

    The steps of [cleanupDisplay] and [cleanupStorage] as functions on
    the text, against which the expression-based steps are
    characterised. *)

(** The text [s] starts with the word [w], whatever the case of the
    letters. *)
Fixpoint prefix_i (w s : str) : bool :=
  match w, s with
  | [], _ => true
  | a :: w', c :: s' => ascii_eqb (toLower c) (toLower a) && prefix_i w' s'
  | _ :: _, [] => false
  end.

(** The pieces of noise are dropped from left to right: [hit pv s] is
    the number of code units of the piece that starts the text [s],
    which comes after the code unit [pv], and 0 when no piece starts
    there; the scan resumes after the piece.  [skip] counts the code
    units of the current piece that are still to be dropped. *)
Fixpoint erase (hit : option ascii -> str -> nat) (skip : nat) (pv : option ascii)
         (s : str) : str :=
  match s with
  | [] => []
  | a :: s' =>
      match skip with
      | S k => erase hit k (Some a) s'
      | O =>
          match hit pv s with
          | S k => erase hit k (Some a) s'
          | O => a :: erase hit 0 (Some a) s'
          end
      end
  end.

(** The text before the first position at which [stop] holds of what
    is left. *)
Fixpoint cutAt (stop : str -> bool) (s : str) : str :=
  match s with
  | [] => []
  | a :: s' => if stop s then [] else a :: cutAt stop s'
  end.

(** Ordinal suffixes: st, nd, rd or th, in any case, right after a
    digit. *)
Definition digitBefore (pv : option ascii) : bool :=
  match pv with Some a => isDigit a | None => false end.

Definition ordinalHead (s : str) : bool :=
  prefix_i (lit "st") s || prefix_i (lit "nd") s || prefix_i (lit "rd") s
  || prefix_i (lit "th") s.

(** The four suffixes, as [re_ordinal] has them. *)
Definition re_suffix : regex :=
  Alt (word_i "st") (Alt (word_i "nd") (Alt (word_i "rd") (word_i "th"))).

Definition ordinalHit (pv : option ascii) (s : str) : nat :=
  if digitBefore pv && ordinalHead s then 2%nat else 0%nat.

Definition ordinalsOff (s : str) : str := erase ordinalHit 0 None s.

(** The text "from IP", in any case, and what follows it, when no line
    terminator follows it. *)
Definition fromIPStop (s : str) : bool :=
  prefix_i (lit "from IP") s && forallb anyChar (skipn 7 s).

Definition fromIPOff (s : str) : str := cutAt fromIPStop s.

(** The words Updated and Created, in any case, wherever they occur. *)
Definition labelHit (pv : option ascii) (s : str) : nat :=
  if prefix_i (lit "Updated") s || prefix_i (lit "Created") s then 7%nat else 0%nat.

Definition labelsOff (s : str) : str := erase labelHit 0 None s.

(** An offset annotation that ends the text: blanks, GMT in any case, a
    sign and two to four digits. *)
Definition gmtText (t : str) : bool :=
  prefix_i (lit "GMT") t
  && match skipn 3 t with
     | sg :: ds =>
         oneOf "+-" sg && forallb isDigit ds && (2 <=? length ds)%nat
         && (length ds <=? 4)%nat
     | [] => false
     end.

Definition gmtStop (s : str) : bool := headIs isSpace s && gmtText (dropWhile isSpace s).

Definition gmtOff (s : str) : str := cutAt gmtStop s.

(** ** Month-and-time phrases

    The strings of strategy 2 and the finite abstraction on which the
    behaviour of the expressions on them is computed. *)

(** The abstraction of a code unit: every digit becomes [0], every letter
    its lower case. *)
Definition abs (c : ascii) : ascii := if isDigit c then "0"%char else toLower c.

(** The 256 code units. *)
Definition allAscii : list ascii := map ascii_of_nat (seq 0 256).

(** The class [p] does not tell a code unit from its abstraction. *)
Definition classInv (p : ascii -> bool) : bool :=
  forallb (fun c => Bool.eqb (p (abs c)) (p c)) allAscii.

(** Every class of the expression is invariant. *)
Fixpoint regexInv (r : regex) : bool :=
  match r with
  | Cls p => classInv p
  | Cat r1 r2 | Alt r1 r2 => regexInv r1 && regexInv r2
  | Rep _ _ _ p => classInv p
  | Opt r1 | Grp _ r1 => regexInv r1
  | Eps | Bol | Eol | WordB => true
  end.

Definition absState (st : mstate) : mstate :=
  MState (caps st) (option_map abs (prev st)) (map abs (rest st)).

Definition absFound (f : found) : found :=
  Found (map abs (from f)) (absState (final f)).






(** The capture of a part of length [lx] that starts [lp] code units into
    an input of length [L]. *)
Definition span (L lp lx : nat) : nat * nat := ((L - lp)%nat, (L - lp - lx)%nat).


(** The expression matches nowhere in the input. *)
Definition quiet (r : regex) (s : str) : bool :=
  match search r None s with None => true | Some _ => false end.













(** ** The storage format *)

(** The storage format [YYYY-MM-DD HH:MM:SS]. *)
Definition storageShape (s : str) : Prop :=
  exists y mo d h mi sec,
    s = y ++ lit "-" ++ mo ++ lit "-" ++ d ++ lit " " ++ h ++ lit ":" ++ mi ++ lit ":" ++ sec
    /\ digitsN 4 y /\ digitsN 2 mo /\ digitsN 2 d /\ digitsN 2 h /\ digitsN 2 mi
    /\ digitsN 2 sec.

(** ** src/app/page.tsx: the status counts (lines 245 to 258) *)

Definition dashOrSpace (c : ascii) : bool := ascii_eqb c "-" || isSpace c.

(* /open|pending|in[-\s]?progress|waiting|todo/ *)
Definition re_unsolved : regex :=
  Alt (word "open")
    (Alt (word "pending")
      (Alt (cat [word "in"; Opt (Cls dashOrSpace); word "progress"])
        (Alt (word "waiting") (word "todo")))).

(* /resolved|closed|done|completed/ *)
Definition re_resolved : regex :=
  Alt (word "resolved") (Alt (word "closed") (Alt (word "done") (word "completed"))).

(** [String (t.status || '').toLowerCase ()]. *)
Definition statusText (t : TicketItem) : str :=
  toLowerCase (match status t with Some s => s | None => [] end).

Definition isUnsolved (t : TicketItem) : bool := test re_unsolved (statusText t).
Definition isResolved (t : TicketItem) : bool := test re_resolved (statusText t).

Definition unsolvedCount (tickets : list TicketItem) : nat :=
  length (filter isUnsolved tickets).

Definition resolvedCount (tickets : list TicketItem) : nat :=
  length (filter isResolved tickets).

(** The words that the two expressions look for, the optional separator
    of "in progress" apart. *)
Definition unsolvedWords : list str :=
  [lit "open"; lit "pending"; lit "inprogress"; lit "waiting"; lit "todo"].

Definition resolvedWords : list str :=
  [lit "resolved"; lit "closed"; lit "done"; lit "completed"].

(** ** src/app/page.tsx: the brand chart (lines 342 to 345, 398 and 761)

    An entry of [brandChartData] is the pair of its [label] and its
    [value]. *)

Definition brandChartData (tickets : list TicketItem) : list (str * Z) :=
  firstn 8 (ticketsByBrand tickets).

(** [brandChartData.reduce ((s, b) => s + b.value, 0)], the total shown
    under the chart. *)
Definition brandChartTotal (tickets : list TicketItem) : Z :=
  fold_left (fun s b => s + snd b) (brandChartData tickets) 0.

(** The bar sizes (lines 397 and 398) for a number [n] of bars;
    [Math.floor (320 / k)] for an integer [k >= 1] is the integer
    quotient. *)
Definition ticketsBarSize (n : Z) : Z := Z.max 18 (Z.min 48 (320 / Z.max 1 n)).
Definition brandBarSize (n : Z) : Z := Z.max 18 (Z.min 40 (320 / Z.max 1 n)).

(** ** src/app/page.tsx: the date filter (lines 401 and 410 to 419) *)

(** [filteredTickets] for the selection state, [null] or a key. *)
Definition filteredTicketsOf (rt : Runtime) (selectedDateKey : option str)
           (tickets : list TicketItem) : Clock (list TicketItem) :=
  match selectedDateKey with
  | None | Some [] => ret tickets
  | Some k => filteredTickets rt k tickets
  end.

(** The key under which [ticketsPerDay] counts a ticket, and the key that
    [filteredTickets] compares with the selection, when the clock reads
    [now]. *)
Definition chartKeyAt (rt : Runtime) (now : Date) (t : TicketItem) : option str :=
  option_map (dateKey rt) (parseDateAt rt now (selectedDate t)).

Definition filterKeyAt (rt : Runtime) (now : Date) (t : TicketItem) : option str :=
  option_map (fun d => if isIsoUTC (selectedDate t) then dateKeyUTC d else dateKey rt d)
             (parseDateAt rt now (selectedDate t)).

(** ** Order of calendar dates *)

(** Days from the first of March of the year 0 to the first of March of
    the year [yy]. *)
Definition marchDays (yy : Z) : Z :=
  yy / 400 * 146097 + (yy - yy / 400 * 400) * 365 + (yy - yy / 400 * 400) / 4
  - (yy - yy / 400 * 400) / 100.

(** Year, then month, then day. *)
Definition lex3 (a b : Z * Z * Z) : Prop :=
  fst (fst a) < fst (fst b)
  \/ (fst (fst a) = fst (fst b)
      /\ (snd (fst a) < snd (fst b) \/ (snd (fst a) = snd (fst b) /\ snd a < snd b))).

(** The text [w] occurs in [s]. *)
Definition contains (w s : str) : Prop := exists pre post, s = pre ++ w ++ post.

(** ** src/app/page.tsx: the days of [ticketsPerDay] (lines 287 to 293) *)

(** The optional key [o] is [k]. *)
Definition keyIs (k : str) (o : option str) : bool :=
  match o with Some k' => str_eqb k' k | None => false end.

(** [String.prototype.split ('-')]; [cur] is the piece being collected,
    reversed. *)
Fixpoint splitDash_from (s cur : str) : list str :=
  match s with
  | [] => [rev cur]
  | a :: s' =>
      if ascii_eqb a "-" then rev cur :: splitDash_from s' [] else splitDash_from s' (a :: cur)
  end.

Definition splitDash (s : str) : list str := splitDash_from s [].

(** [Number (s)] for a piece of a key: a string of digits, possibly
    empty; another text does not occur in a key and is left as [None]. *)
Definition NumberOfDigits (s : str) : option Z :=
  if allDigits s then Some (Number s) else None.

(** The date whose display text labels the day [k] (lines 290 and 291):
    [new Date (yy, mm - 1, dd)] for [[yy, mm, dd] = k.split ('-').map (Number)]. *)
Definition labelDate (rt : Runtime) (k : str) : option Date :=
  match map NumberOfDigits (splitDash k) with
  | Some yy :: Some mm :: Some dd :: _ => newDateFields rt yy (mm - 1) dd 0 0 0
  | _ => None
  end.

(** ** src/unnamed/part_000: the day comparison of the earlier version
       (lines 47 to 58) *)

Definition startOfDay (rt : Runtime) (d : Date) : option Date :=
  newDateFields rt (getFullYear rt d) (getMonth rt d) (getDate rt d) 0 0 0.

(** [sameDay (ts, anchor)]; [anchor] is [None] when it is absent or the
    invalid date, whose fields are [NaN] and equal nothing. *)
Definition sameDay (rt : Runtime) (ts : option str) (anchor : option Date) : bool :=
  match ts, anchor with
  | Some ((_ :: _) as s), Some a =>
      match newDateString rt s with
      | Some d =>
          (getFullYear rt d =? getFullYear rt a) && (getMonth rt d =? getMonth rt a)
          && (getDate rt d =? getDate rt a)
      | None => false
      end
  | _, _ => false
  end.

(** The text [yyyy-mm-dd] of three fields, the year of four digits. *)
Definition ymdText (c : Z * Z * Z) : str :=
  NumberToString (fst (fst c)) ++ lit "-" ++ pad2 (snd (fst c)) ++ lit "-" ++ pad2 (snd c).


(** The tickets that have a key, with their keys. *)
Definition keysOf {A} (key : A -> option str) (l : list A) : list str :=
  flat_map (fun t => match key t with Some k => [k] | None => [] end) l.


(** The list that [ticketsPerDay] builds from its counter. *)
Definition listed (counts : counter) : list (str * Z) :=
  map (fun k => (k, getCount k counts)) (sortBy localeCompare (keys counts)).

(** ** src/app/page.tsx: [handleDelete] (lines 315 to 328)
       src/app/api/tickets/route.js: the handlers *)

(** *** JSON values

    What [request.json ()] and [res.json ()] return.  Numbers are kept to
    the integers: the program only tests a number for zero and passes it
    on.  An object lists its members as the text does. *)
#[warnings="-register-all"] Inductive json : Type :=
| JNull
| JBool (b : bool)
| JNum (n : Z)
| JStr (s : str)
| JArr (items : list json)
| JObj (members : list (string * json)).

(** A member of an object. *)
Definition member (k : string) (v : json) : string * json := (k, v).
Arguments member k%_string_scope v.

(** The own property [k] of a parsed object, [None] for [undefined]: the
    last member named [k] in the text. *)
Fixpoint lookupLast (k : string) (members : list (string * json)) : option json :=
  match members with
  | [] => None
  | (k', v) :: members' =>
      match lookupLast k members' with
      | Some w => Some w
      | None => if String.eqb k k' then Some v else None
      end
  end.

Arguments lookupLast k%_string_scope members.

Definition truthyJson (v : json) : bool :=
  match v with
  | JNull => false
  | JBool b => b
  | JNum n => negb (n =? 0)
  | JStr [] => false
  | JStr (_ :: _) => true
  | JArr _ | JObj _ => true
  end.

(** Truthiness of a value that may be [undefined]. *)
Definition truthyOpt (o : option json) : bool :=
  match o with Some v => truthyJson v | None => false end.

(** [a || b]. *)
Definition orElseJson (a : option json) (b : json) : json :=
  match a with
  | Some v => if truthyJson v then v else b
  | None => b
  end.

(** *** [handleDelete]

    [confirmed] is the answer to [confirm], [reply] the value of
    [res.json ()], [None] when [fetch] or [res.json ()] fails.  The
    result is the list of tickets after the call and the argument of
    [alert], if it is called. *)
Definition handleDelete (confirmed : bool) (reply : option json) (ticketId : str)
           (tickets : list TicketItem) : list TicketItem * option json :=
  if negb confirmed then (tickets, None)
  else
    match reply with
    | Some (JObj members) =>
        if truthyOpt (lookupLast "success" members) then
          (filter (fun t => negb (str_eqb (ticket_id t) ticketId)) tickets, None)
        else
          (tickets,
           Some (orElseJson (lookupLast "error" members)
                   (orElseJson (lookupLast "message" members)
                      (JStr (lit "Failed to delete ticket.")))))
    | Some JNull | None => (tickets, Some (JStr (lit "Error deleting ticket.")))
    | Some _ => (tickets, Some (JStr (lit "Failed to delete ticket.")))
    end.

(** *** The database client and the handlers' effects *)

Inductive sql : Type :=
| SelectTicket     (* SELECT id FROM tickets WHERE ticket_id = ? LIMIT 1 *)
| UpdateTicket     (* UPDATE tickets SET subject = ?, ... WHERE ticket_id = ? *)
| InsertTicket     (* INSERT INTO tickets (ticket_id, subject, ...) VALUES (...) *)
| InsertMessage    (* INSERT INTO ticket_messages (...) VALUES (?, ?, ?, ?) *)
| SelectTickets    (* SELECT * FROM tickets ORDER BY id DESC LIMIT 100 *)
| DeleteTicket.    (* DELETE FROM tickets WHERE ticket_id = ? *)

(** What a handler does to the database: it asks for a connection, runs
    a statement with its parameters, closes the connection. *)
Inductive event : Type :=
| Connect
| Execute (q : sql) (params : list json)
| End.

(** What is thrown: a rejection of the request or of the database
    client, with its message, or an error of the language, with its
    name. *)
Inductive error : Type :=
| Rejected (message : str)
| Thrown (name : string).
Arguments Thrown name%_string_scope.

(** The environment of one call of a handler: whether [connectDB] and
    [conn.end] reject (with the message), and for the i-th [execute],
    counted from 0, whether it rejects, the rows it returns if it is a
    query and the number of rows it affects otherwise; the message of an
    error of the language is the engine's. *)
Record World : Type := {
  connectFails : option str;
  executeFails : nat -> option str;
  rowsOf : nat -> list json;
  affectedRowsOf : nat -> nat;
  endFails : option str;
  engineMessage : string -> str
}.

Record hstate : Type := HState {
  trace : list event;
  executes : nat;
  readings : nat;
  conn : bool
}.

Inductive result (A : Type) : Type :=
| Ok (a : A)
| Err (e : error).
Arguments Ok {A} a.
Arguments Err {A} e.

(** A step of a handler: it may read the clock, talk to the database and
    throw. *)
Definition Handler (A : Type) : Type := World -> Timeline -> hstate -> result A * hstate.

Definition hret {A} (a : A) : Handler A := fun _ _ st => (Ok a, st).

Definition hbind {A B} (c : Handler A) (k : A -> Handler B) : Handler B :=
  fun w tl st =>
    match c w tl st with
    | (Ok a, st') => k a w tl st'
    | (Err e, st') => (Err e, st')
    end.

Notation "x <~ c1 ;; c2" := (hbind c1 (fun x => c2))
  (at level 61, c1 at next level, right associativity).

Definition throw {A} (e : error) : Handler A := fun _ _ st => (Err e, st).

Definition log (e : event) (st : hstate) : hstate :=
  HState (trace st ++ [e]) (executes st) (readings st) (conn st).

(** [conn = await connectDB ()]. *)
Definition connectDB : Handler unit :=
  fun w _ st =>
    let st' := log Connect st in
    match connectFails w with
    | Some msg => (Err (Rejected msg), st')
    | None => (Ok tt, HState (trace st') (executes st') (readings st') true)
    end.

Definition executed (q : sql) (params : list json) (st : hstate) : hstate :=
  HState (trace st ++ [Execute q params]) (S (executes st)) (readings st) (conn st).

(** [await conn.execute (q, params)] for a query: the rows. *)
Definition query (q : sql) (params : list json) : Handler (list json) :=
  fun w _ st =>
    match executeFails w (executes st) with
    | Some msg => (Err (Rejected msg), executed q params st)
    | None => (Ok (rowsOf w (executes st)), executed q params st)
    end.

(** [await conn.execute (q, params)] for another statement: the number
    of rows affected. *)
Definition update (q : sql) (params : list json) : Handler nat :=
  fun w _ st =>
    match executeFails w (executes st) with
    | Some msg => (Err (Rejected msg), executed q params st)
    | None => (Ok (affectedRowsOf w (executes st)), executed q params st)
    end.

(** A computation that only reads the clock. *)
Definition liftClock {A} (c : Clock A) : Handler A :=
  fun _ tl st =>
    let (a, n) := c tl (readings st) in
    (Ok a, HState (trace st) (executes st) n (conn st)).

Fixpoint forEachH {A} (f : A -> Handler unit) (l : list A) : Handler unit :=
  match l with
  | [] => hret tt
  | x :: l' => _ <~ f x ;; forEachH f l'
  end.

(** *** Responses *)

Record response : Type := {
  statusCode : Z;
  headers : list (string * string);
  body : option json
}.

Definition cors : list (string * string) := [("Access-Control-Allow-Origin", "*")]%string.

(** [NextResponse.json (body, { status, headers })]. *)
Definition respond (status : Z) (b : json) : response :=
  {| statusCode := status; headers := cors; body := Some b |}.

(** What the caller of a handler gets: a response, or the rejection that
    the handler lets through. *)
Inductive outcome : Type :=
| Responded (r : response)
| Unhandled (e : error).

Definition messageOf (w : World) (e : error) : str :=
  match e with
  | Rejected msg => msg
  | Thrown name => engineMessage w name
  end.

(** [try { ... } catch (error) { ... 500 ... } finally { if (conn) await conn.end () }]
    around the body of a handler; [n] is the number of clock readings
    made before the call. *)
Definition handle (handlerBody : Handler response) (w : World) (tl : Timeline) (n : nat)
  : outcome * hstate :=
  let (r, st) := handlerBody w tl (HState [] 0 n false) in
  let resp :=
    match r with
    | Ok resp => resp
    | Err e =>
        respond 500 (JObj [member "success" (JBool false); member "error" (JStr (messageOf w e))])
    end in
  if conn st then
    match endFails w with
    | Some msg => (Unhandled (Rejected msg), log End st)
    | None => (Responded resp, log End st)
    end
  else (Responded resp, st).

(** *** [OPTIONS], [GET] and [DELETE] *)

Definition OPTIONS : response :=
  {| statusCode := 204;
     headers := [("Access-Control-Allow-Origin", "*");
                 ("Access-Control-Allow-Methods", "GET, POST, DELETE, OPTIONS");
                 ("Access-Control-Allow-Headers", "Content-Type")]%string;
     body := None |}.

Definition GET : World -> Timeline -> nat -> outcome * hstate :=
  handle (_ <~ connectDB ;;
          rows <~ query SelectTickets [] ;;
          hret (respond 200 (JArr rows))).

(** [id] is [searchParams.get ('id')]. *)
Definition DELETE (id : option str) : World -> Timeline -> nat -> outcome * hstate :=
  handle
    match id with
    | None | Some [] =>
        hret (respond 400 (JObj [member "success" (JBool false);
                                 member "error" (JStr (lit "Missing ticket_id parameter"))]))
    | Some ticketId =>
        _ <~ connectDB ;;
        affectedRows <~ update DeleteTicket [JStr ticketId] ;;
        match affectedRows with
        | O =>
            hret (respond 404 (JObj [member "success" (JBool false);
                                     member "message" (JStr (lit "No matching ticket found"))]))
        | S _ =>
            hret (respond 200
                    (JObj [member "success" (JBool true);
                           member "message"
                             (JStr (lit "Ticket " ++ ticketId ++ lit " deleted successfully"))]))
        end
    end.

(** *** [POST] *)

(** [request.json ()]. *)
Inductive requestBody : Type :=
| Parsed (data : json)
| Unparsed (message : str).

(** [v.k] for a member [k] that no prototype defines. *)
Definition getField (v : json) (k : string) : Handler (option json) :=
  match v with
  | JNull => throw (Thrown "TypeError")
  | JObj members => hret (lookupLast k members)
  | _ => hret None
  end.
Arguments getField v k%_string_scope.

(** [val === undefined ? null : val]. *)
Definition safe (val : option json) : json :=
  match val with Some v => v | None => JNull end.

(** The argument of [parseDateToMySQL] as that function sees it. *)
Definition dateArg (o : option json) : jsvalue :=
  match o with
  | None | Some JNull => JAbsent
  | Some (JStr s) => JString s
  | Some v => JOther (truthyJson v)
  end.

(** A call of [parseDateToMySQL]. *)
Definition timestampOf (rt : Runtime) (o : option json) : Handler json :=
  r <~ liftClock (parseDateToMySQL rt (dateArg o)) ;;
  match r with
  | Normal s => hret (JStr s)
  | Throw name => throw (Thrown name)
  end.

(** [data.messages?.length]. *)
Definition lengthOf (o : option json) : option json :=
  match o with
  | None | Some JNull => None
  | Some (JStr s) => Some (JNum (Z.of_nat (length s)))
  | Some (JArr items) => Some (JNum (Z.of_nat (length items)))
  | Some (JObj members) => lookupLast "length" members
  | Some _ => None
  end.

(** The values that [for (const msg of v)] goes through. *)
Definition iterate (v : option json) : Handler (list json) :=
  match v with
  | Some (JArr items) => hret items
  | Some (JStr s) => hret (map (fun c => JStr [c]) s)
  | _ => throw (Thrown "TypeError")
  end.

(** The two timestamps of the ticket (lines 69 and 70). *)
Definition POST_timestamps (rt : Runtime) (data : json) : Handler (json * json) :=
  created_at <~ getField data "created_at" ;;
  createdAt <~ timestampOf rt created_at ;;
  updated_at <~ getField data "updated_at" ;;
  updatedAt <~ timestampOf rt updated_at ;;
  hret (createdAt, updatedAt).

(** The ticket is looked up, then updated or inserted (lines 74 to
    116). *)
Definition POST_ticket (data createdAt updatedAt : json) : Handler unit :=
  ticket_id <~ getField data "ticket_id" ;;
  existing <~ query SelectTicket [safe ticket_id] ;;
  subject <~ getField data "subject" ;;
  brand <~ getField data "brand" ;;
  status <~ getField data "status" ;;
  assigned_to <~ getField data "assigned_to" ;;
  client_name <~ getField data "client_name" ;;
  client_email <~ getField data "client_email" ;;
  ticket_url <~ getField data "ticket_url" ;;
  _ <~ match existing with
       | _ :: _ =>
           update UpdateTicket
             [safe subject; safe brand; safe status; safe assigned_to; safe client_name;
              safe client_email; createdAt; updatedAt; safe ticket_url; safe ticket_id]
       | [] =>
           update InsertTicket
             [safe ticket_id; safe subject; orElseJson brand (JStr (lit "Unknown"));
              orElseJson status (JStr (lit "Unknown")); safe assigned_to;
              safe client_name; safe client_email; createdAt; updatedAt; safe ticket_url]
       end ;;
  hret tt.

(** One message is inserted (lines 121 to 130). *)
Definition POST_message (rt : Runtime) (data msg : json) : Handler unit :=
  ticket_id <~ getField data "ticket_id" ;;
  author <~ getField msg "author" ;;
  content <~ getField msg "content" ;;
  timestamp <~ getField msg "timestamp" ;;
  stamp <~ timestampOf rt timestamp ;;
  _ <~ update InsertMessage [safe ticket_id; safe author; safe content; stamp] ;;
  hret tt.

(** The messages, if any (lines 119 to 132). *)
Definition POST_messages (rt : Runtime) (data : json) : Handler unit :=
  messages <~ getField data "messages" ;;
  if truthyOpt (lengthOf messages) then
    items <~ iterate messages ;;
    forEachH (POST_message rt data) items
  else hret tt.

Definition POST (rt : Runtime) (request : requestBody)
  : World -> Timeline -> nat -> outcome * hstate :=
  handle
    (data <~ match request with
             | Parsed d => hret d
             | Unparsed msg => throw (Rejected msg)
             end ;;
     stamps <~ POST_timestamps rt data ;;
     _ <~ connectDB ;;
     _ <~ POST_ticket data (fst stamps) (snd stamps) ;;
     _ <~ POST_messages rt data ;;
     hret (respond 200 (JObj [member "success" (JBool true);
                              member "message" (JStr (lit "Ticket saved successfully"))]))).

(** *** What the handlers are checked against *)

Definition isExecute (e : event) : Prop :=
  match e with Execute _ _ => True | _ => False end.

(** The database events of one call: none; or a connection that is
    refused; or a connection, statements, and the end of the connection
    as the last event. *)
Inductive wellBracketed (w : World) : list event -> Prop :=
| wb_none : wellBracketed w []
| wb_refused : connectFails w <> None -> wellBracketed w [Connect]
| wb_session (qs : list event) :
    connectFails w = None -> Forall isExecute qs -> wellBracketed w (Connect :: qs ++ [End]).

(** The member [k] of a value, [undefined] included. *)
Definition field (v : json) (k : string) : option json :=
  match v with JObj members => lookupLast k members | _ => None end.
Arguments field v k%_string_scope.

(** The values that the loop over [v] goes through, when it can. *)
Definition itemsOf (v : option json) : list json :=
  match v with
  | Some (JArr items) => items
  | Some (JStr s) => map (fun c => JStr [c]) s
  | _ => []
  end.

(** No database event so far; a connection open, with statements only
    after its opening. *)
Definition idle (st : hstate) : Prop := trace st = [] /\ conn st = false.

Definition refused (w : World) (st : hstate) : Prop :=
  trace st = [Connect] /\ conn st = false /\ connectFails w <> None.

Definition inSession (w : World) (st : hstate) : Prop :=
  conn st = true /\ connectFails w = None
  /\ exists qs, trace st = Connect :: qs /\ Forall isExecute qs.

(** A step that leaves the database alone, and a step that only runs
    statements. *)
Definition quietStep {A} (c : Handler A) : Prop :=
  forall w tl st r st',
    c w tl st = (r, st') ->
    trace st' = trace st /\ conn st' = conn st /\ executes st' = executes st.

Definition dbStep {A} (c : Handler A) : Prop :=
  forall w tl st r st',
    c w tl st = (r, st') ->
    conn st' = conn st /\ exists es, trace st' = trace st ++ es /\ Forall isExecute es.

(** The statement that inserts the message [msg] of the ticket [id]. *)
Definition messageInsert (id : json) (msg : json) (e : event) : Prop :=
  exists stamp,
    e = Execute InsertMessage
          [id; safe (field msg "author"); safe (field msg "content"); JStr stamp].

(** The statement that writes the ticket [data]: an update when the
    lookup found a row, an insertion otherwise. *)
Definition ticketWrite (data createdAt updatedAt : json) (existing : list json) : event :=
  match existing with
  | _ :: _ =>
      Execute UpdateTicket
        [safe (field data "subject"); safe (field data "brand"); safe (field data "status");
         safe (field data "assigned_to"); safe (field data "client_name");
         safe (field data "client_email"); createdAt; updatedAt;
         safe (field data "ticket_url"); safe (field data "ticket_id")]
  | [] =>
      Execute InsertTicket
        [safe (field data "ticket_id"); safe (field data "subject");
         orElseJson (field data "brand") (JStr (lit "Unknown"));
         orElseJson (field data "status") (JStr (lit "Unknown"));
         safe (field data "assigned_to"); safe (field data "client_name");
         safe (field data "client_email"); createdAt; updatedAt;
         safe (field data "ticket_url")]
  end.

(** The state after the events [es], all statements. *)
Definition after (es : list event) (st : hstate) : hstate :=
  HState (trace st ++ es) (length es + executes st) (readings st) (conn st).

(** From a state without event, the body ends with no event, with a
    refused connection or within a session. *)
Definition settles {A} (w : World) (c : Handler A) : Prop :=
  forall tl st r st',
    idle st -> c w tl st = (r, st') -> idle st' \/ refused w st' \/ inSession w st'.

(** *** A reference environment for the handlers

    A database that accepts the connection and every statement, finds no
    row and affects one. *)
Definition refWorld : World :=
  {| connectFails := None;
     executeFails := fun _ => None;
     rowsOf := fun _ => [];
     affectedRowsOf := fun _ => 1%nat;
     endFails := None;
     engineMessage := fun _ => [] |}.

(** The same database, where the ticket is found. *)
Definition foundWorld : World :=
  {| connectFails := None;
     executeFails := fun _ => None;
     rowsOf := fun _ => [JObj [member "id" (JNum 7)]];
     affectedRowsOf := fun _ => 1%nat;
     endFails := None;
     engineMessage := fun _ => [] |}.

(** The same database, where the third statement fails. *)
Definition failingWorld : World :=
  {| connectFails := None;
     executeFails := fun i => if (i =? 2)%nat then Some (lit "ER_LOCK_DEADLOCK") else None;
     rowsOf := fun _ => [];
     affectedRowsOf := fun _ => 1%nat;
     endFails := None;
     engineMessage := fun _ => [] |}.

(** A ticket with one message. *)
Definition refPayload : json :=
  JObj [member "ticket_id" (JStr (lit "T-1"));
        member "subject" (JStr (lit "Login fails"));
        member "updated_at" (JStr (lit "2025-10-14T03:14:00Z"));
        member "messages"
          (JArr [JObj [member "author" (JStr (lit "Ann"));
                       member "content" (JStr (lit "Hello"))]])].

(** The answer of the [catch] block for an error of message [m]. *)
Definition failure (m : str) : response :=
  respond 500 (JObj [member "success" (JBool false); member "error" (JStr m)]).

(** * Properties *)

(** ** Basic facts *)

Lemma ascii_eqb_eq (a b : ascii) : ascii_eqb a b = true <-> a = b.
Proof. unfold ascii_eqb. apply Ascii.eqb_eq. Qed.

Lemma ascii_eqb_refl (a : ascii) : ascii_eqb a a = true.
Proof. apply ascii_eqb_eq. reflexivity. Qed.

Lemma str_eqb_eq (s t : str) : str_eqb s t = true <-> s = t.
Proof.
  revert t. induction s as [|a s IH]; intros [|b t]; simpl; split; intros H;
    try reflexivity; try discriminate.
  - apply andb_prop in H as [Hab Hst]. apply ascii_eqb_eq in Hab.
    apply IH in Hst. congruence.
  - injection H as -> ->. rewrite ascii_eqb_refl. simpl. apply IH. reflexivity.
Qed.

Lemma str_eqb_refl (s : str) : str_eqb s s = true.
Proof. apply str_eqb_eq. reflexivity. Qed.

(** ** The sanity bound on the year *)

Lemma accept_sane (rt : Runtime) (nowYear : Z) (o : option Date) (d : Date) :
  accept rt nowYear o = Some d -> saneYear nowYear (getFullYear rt d) = true.
Proof.
  unfold accept. destruct o as [t|]; [|discriminate].
  destruct (saneYear nowYear (getFullYear rt t)) eqn:E; [|discriminate].
  intros H. injection H as <-. exact E.
Qed.

Lemma orElse_Some {A} (a b : option A) (x : A) :
  orElse a b = Some x -> a = Some x \/ b = Some x.
Proof. destruct a; simpl; intros H; auto. Qed.

Lemma tryMonthTime_sane rt nowYear cleaned d :
  tryMonthTime rt nowYear cleaned = Some d -> saneYear nowYear (getFullYear rt d) = true.
Proof.
  unfold tryMonthTime. destruct (exec re_monthTime cleaned) as [f|]; [|discriminate].
  destruct (lookupMonth monthMap _); [|discriminate]. apply accept_sane.
Qed.

Lemma tryMonthOnly_sane rt nowYear cleaned d :
  tryMonthOnly rt nowYear cleaned = Some d -> saneYear nowYear (getFullYear rt d) = true.
Proof.
  unfold tryMonthOnly. destruct (exec re_monthOnly cleaned) as [f|]; [|discriminate].
  destruct (lookupMonth monthMap _); [|discriminate]. apply accept_sane.
Qed.

Lemma tryYmd_sane rt nowYear cleaned d :
  tryYmd rt nowYear cleaned = Some d -> saneYear nowYear (getFullYear rt d) = true.
Proof.
  unfold tryYmd. destruct (exec re_ymd cleaned); [|discriminate]. apply accept_sane.
Qed.

Lemma tryMdy_sane rt nowYear cleaned d :
  tryMdy rt nowYear cleaned = Some d -> saneYear nowYear (getFullYear rt d) = true.
Proof.
  unfold tryMdy. destruct (exec re_mdy cleaned); [|discriminate]. apply accept_sane.
Qed.

Lemma parseCleaned_sane rt now cleaned d :
  parseCleaned rt now cleaned = Some d ->
  saneYear (getFullYear rt now) (getFullYear rt d) = true.
Proof.
  unfold parseCleaned. intros H.
  repeat (apply orElse_Some in H as [H|H]);
    eauto using accept_sane, tryMonthTime_sane, tryMonthOnly_sane, tryYmd_sane, tryMdy_sane.
Qed.

Lemma saneYear_bounds (nowYear y : Z) :
  saneYear nowYear y = true <-> 2000 <= y <= nowYear + 2.
Proof. unfold saneYear. rewrite andb_true_iff, !Z.leb_le. tauto. Qed.

(** The reading of the clock that a call of [parseDate] on a non-empty
    string makes. *)
Lemma parseDate_run rt ts tl n :
  parseDate rt ts tl n =
  match ts with
  | None | Some [] => (None, n)
  | Some _ => (parseDateAt rt (tl n) ts, S n)
  end.
Proof. destruct ts as [[|a s]|]; reflexivity. Qed.




(** ** Day buckets *)

(** C2, at the failing input.  In the zone UTC+02:00 a ticket updated at
    "2025-10-14T23:30:00Z" carries the UTC flag and its UTC day key is
    2025-10-14, yet [ticketsPerDay] files it under the local key
    2025-10-15; [filteredTickets], which does honour the flag, then finds
    no ticket for the key of that bucket. *)
Theorem ticketsPerDay_ignores_utc_flag :
  let t := ticketDated "2025-10-14T23:30:00Z" in
  isIsoUTC (selectedDate t) = true
  /\ runClock (parseDate refRuntime (selectedDate t)) refTimeline = Some 1760484600000
  /\ dateKeyUTC 1760484600000 = lit "2025-10-14"
  /\ runClock (ticketsPerDay refRuntime [t]) refTimeline = [(lit "2025-10-15", 1)]
  /\ runClock (filteredTickets refRuntime (lit "2025-10-15") [t]) refTimeline = []
  /\ runClock (filteredTickets refRuntime (lit "2025-10-14") [t]) refTimeline = [t].
Proof. vm_compute. repeat split. Qed.

(** ** The calendar *)

Lemma daysFromCivil_day y mo d : daysFromCivil y mo d = daysFromCivil y mo 1 + d - 1.
Proof. unfold daysFromCivil. cbv zeta. lia. Qed.

(** The day number of the civil date of a day number is that day
    number. *)
Lemma civil_roundtrip z :
  daysFromCivil (fst (fst (civilFromDays z))) (snd (fst (civilFromDays z)))
                (snd (civilFromDays z)) = z.
Proof.
  unfold civilFromDays. cbv zeta.
  set (z' := z + 719468).
  set (era := z' / 146097).
  set (doe := z' - era * 146097).
  assert (Hdoe : 0 <= doe < 146097) by (subst doe era; Z.div_mod_to_equations; lia).
  set (yoe := (doe - doe / 1460 + doe / 36524 - doe / 146096) / 365).
  assert (Hyoe : 0 <= yoe <= 399) by (subst yoe; Z.div_mod_to_equations; lia).
  set (doy := doe - (365 * yoe + yoe / 4 - yoe / 100)).
  assert (Hdoy : 0 <= doy <= 365) by (subst doy yoe; Z.div_mod_to_equations; lia).
  set (mp := (5 * doy + 2) / 153).
  assert (Hmp : 0 <= mp <= 11) by (subst mp; Z.div_mod_to_equations; lia).
  cbn [fst snd]. unfold daysFromCivil. cbv zeta.
  destruct (mp <? 10) eqn:E.
  - apply Z.ltb_lt in E.
    replace (mp + 3 <=? 2) with false by (symmetry; apply Z.leb_gt; lia).
    replace (2 <? mp + 3) with true by (symmetry; apply Z.ltb_lt; lia).
    replace (mp + 3 - 3) with mp by lia.
    replace ((yoe + era * 400) / 400) with era by (Z.div_mod_to_equations; lia).
    replace (yoe + era * 400 - era * 400) with yoe by lia.
    subst doy doe z'. lia.
  - apply Z.ltb_ge in E.
    replace (mp - 9 <=? 2) with true by (symmetry; apply Z.leb_le; lia).
    replace (2 <? mp - 9) with false by (symmetry; apply Z.ltb_ge; lia).
    replace (mp - 9 + 9) with mp by lia.
    replace (yoe + era * 400 + 1 - 1) with (yoe + era * 400) by lia.
    replace ((yoe + era * 400) / 400) with era by (Z.div_mod_to_equations; lia).
    replace (yoe + era * 400 - era * 400) with yoe by lia.
    subst doy doe z'. lia.
Qed.

(** Months run from 1 to 12 and days of the month from 1 to 31. *)
Lemma civil_ranges z :
  1 <= snd (fst (civilFromDays z)) <= 12 /\ 1 <= snd (civilFromDays z) <= 31.
Proof.
  unfold civilFromDays. cbv zeta.
  set (z' := z + 719468).
  set (era := z' / 146097).
  set (doe := z' - era * 146097).
  assert (Hdoe : 0 <= doe < 146097) by (subst doe era; Z.div_mod_to_equations; lia).
  set (yoe := (doe - doe / 1460 + doe / 36524 - doe / 146096) / 365).
  set (doy := doe - (365 * yoe + yoe / 4 - yoe / 100)).
  assert (Hdoy : 0 <= doy <= 365) by (subst doy yoe; Z.div_mod_to_equations; lia).
  clearbody doy.
  set (mp := (5 * doy + 2) / 153).
  assert (Hmp : 0 <= mp <= 11) by (subst mp; Z.div_mod_to_equations; lia).
  cbn [fst snd]. split.
  - destruct (mp <? 10) eqn:E; [apply Z.ltb_lt in E | apply Z.ltb_ge in E]; lia.
  - subst mp. Z.div_mod_to_equations. lia.
Qed.

(** [MakeDay] on the calendar fields of a time value gives back its day. *)
Lemma MakeDay_fields t delta :
  MakeDay (YearFromTime t) (MonthFromTime t) (DateFromTime t + delta) = Day t + delta.
Proof.
  unfold MakeDay, YearFromTime, MonthFromTime, DateFromTime.
  destruct (civil_ranges (Day t)) as [Hmo _].
  set (mo := snd (fst (civilFromDays (Day t)))) in *.
  replace ((mo - 1) / 12) with 0 by (Z.div_mod_to_equations; lia).
  replace ((mo - 1) mod 12 + 1) with mo by (Z.div_mod_to_equations; lia).
  rewrite Z.add_0_r.
  pose proof (civil_roundtrip (Day t)) as R. fold mo in R.
  rewrite daysFromCivil_day in R. lia.
Qed.

(** In a zone at a fixed offset from UTC, [yesterdayDate] is the local
    midnight that starts the calendar day before the local day of
    [todayDate]. *)
Lemma yesterdayOf_fixed_offset (rt : Runtime) (off : Z) (todayDate : Date) :
  (forall t b, LocalTZA rt t b = off) ->
  ~ (0 <= getFullYear rt todayDate <= 99) ->
  yesterdayOf rt todayDate = TimeClip ((Day (todayDate + off) - 1) * msPerDay - off).
Proof.
  intros Hoff Hy. unfold yesterdayOf, newDateFields.
  replace ((0 <=? getFullYear rt todayDate) && (getFullYear rt todayDate <=? 99)) with false.
  2:{ symmetry. apply andb_false_iff.
      destruct (Z.leb_spec 0 (getFullYear rt todayDate)); [right; apply Z.leb_gt; lia | left; reflexivity]. }
  unfold getFullYear, getMonth, getDate, LocalTime, UTC. rewrite !Hoff.
  replace (DateFromTime (todayDate + off) - 1) with (DateFromTime (todayDate + off) + -1) by lia.
  rewrite MakeDay_fields. unfold MakeDate, MakeTime. f_equal. lia.
Qed.

Lemma time_ranges t :
  0 <= HourFromTime t <= 23 /\ 0 <= MinFromTime t <= 59 /\ 0 <= SecFromTime t <= 59
  /\ 0 <= msFromTime t <= 999.
Proof.
  unfold HourFromTime, MinFromTime, SecFromTime, msFromTime, msPerHour, msPerMinute,
    msPerSecond.
  repeat split; Z.div_mod_to_equations; lia.
Qed.

(** ** The storage timestamp *)

Lemma mysqlFormat_valid (t : Date) : exists out, mysqlFormat (Some t) = Normal out.
Proof. eexists. reflexivity. Qed.

(** [parseDateToMySQL] completes normally on every input: what the [try]
    block throws is caught. *)
Lemma parseDateToMySQL_total (rt : Runtime) (v : jsvalue) (tl : Timeline) (n : nat) :
  exists out, fst (parseDateToMySQL rt v tl n) = Normal out.
Proof.
  unfold parseDateToMySQL. destruct (negb (truthy v)).
  - unfold bind, readClock, ret. simpl. eexists. reflexivity.
  - unfold bind. destruct (parseDateToMySQL_try rt v tl n) as [[out|e] n'].
    + exists out. reflexivity.
    + unfold readClock, ret. simpl. eexists. reflexivity.
Qed.

(** Absent input, the empty string and a value that is not a string give
    the reading of the clock in the storage format. *)
Lemma parseDateToMySQL_absent (rt : Runtime) (v : jsvalue) (tl : Timeline) (n : nat) :
  (forall s, v <> JString s) \/ v = JString [] ->
  fst (parseDateToMySQL rt v tl n) = mysqlFormat (Some (tl n)).
Proof.
  intros H. destruct v as [|[|a s]|[|]]; try reflexivity.
  destruct H as [H|H]; [exfalso; eapply H; reflexivity | discriminate].
Qed.

(** C3, at the failing input.  Whatever the runtime and the clock, the
    string "+010000-01-01T00:00:00Z", a valid instant in the year 10000,
    is turned into "+010000-01-01 00:00", which is not of the form
    YYYY-MM-DD HH:MM:SS. *)
Theorem parseDateToMySQL_expanded_year (rt : Runtime) (tl : Timeline) (n : nat) :
  fst (parseDateToMySQL rt (JString (lit "+010000-01-01T00:00:00Z")) tl n)
  = Normal (lit "+010000-01-01 00:00").
Proof. reflexivity. Qed.

Lemma digitChar_digit k : 0 <= k <= 9 -> isDigit (digitChar k) = true.
Proof.
  intros H.
  assert (E : k = 0 \/ k = 1 \/ k = 2 \/ k = 3 \/ k = 4 \/ k = 5 \/ k = 6 \/ k = 7
              \/ k = 8 \/ k = 9) by lia.
  repeat (destruct E as [-> | E]; [reflexivity|]). subst k. reflexivity.
Qed.

(** [digitsOf] puts decimal digits in front of its accumulator, no more
    than the number has. *)
Lemma digitsOf_spec : forall fuel n acc,
  0 <= n ->
  exists p, digitsOf fuel n acc = p ++ acc /\ allDigits p = true
            /\ forall d, (1 <= d)%nat -> n < 10 ^ Z.of_nat d -> (length p <= d)%nat.
Proof.
  induction fuel as [|f IH]; intros n acc Hn.
  - exists []. simpl. repeat split. intros. lia.
  - cbn [digitsOf]. assert (Hm : 0 <= n mod 10 <= 9) by (Z.div_mod_to_equations; lia).
    destruct (n / 10 =? 0) eqn:E.
    + exists [digitChar (n mod 10)]. unfold allDigits. cbn [forallb app length].
      rewrite (@digitChar_digit _ Hm). repeat split. intros. lia.
    + apply Z.eqb_neq in E.
      destruct (IH (n / 10) (digitChar (n mod 10) :: acc)) as (p & Ep & Dp & Lp).
      { Z.div_mod_to_equations. lia. }
      exists (p ++ [digitChar (n mod 10)]). rewrite Ep, <- app_assoc. split; [reflexivity|].
      split.
      * unfold allDigits in *. rewrite forallb_app, Dp. cbn [forallb].
        rewrite (@digitChar_digit _ Hm). reflexivity.
      * intros d Hd Hlt. rewrite length_app. cbn [length].
        destruct d as [|[|d]]; [lia| |].
        -- change (10 ^ Z.of_nat 1) with 10 in Hlt. exfalso. apply E.
           Z.div_mod_to_equations. lia.
        -- assert (n / 10 < 10 ^ Z.of_nat (S d)).
           { replace (Z.of_nat (S (S d))) with (Z.succ (Z.of_nat (S d))) in Hlt by lia.
             rewrite Z.pow_succ_r in Hlt by lia. Z.div_mod_to_equations. lia. }
           specialize (Lp (S d) ltac:(lia) H). lia.
Qed.

(** A natural number below [10 ^ width], padded with zeros, is [width]
    digits. *)
Lemma padded (width : nat) (n : Z) :
  (1 <= width)%nat -> 0 <= n < 10 ^ Z.of_nat width ->
  digitsN width (padStart0 width (NumberToString n)).
Proof.
  intros Hw Hn. unfold NumberToString.
  replace (n <? 0) with false by (symmetry; apply Z.ltb_ge; lia).
  destruct (@digitsOf_spec (S (Z.to_nat (Z.log2 n))) n [] ltac:(lia)) as (p & Ep & Dp & Lp).
  rewrite Ep, app_nil_r. specialize (Lp width Hw ltac:(lia)).
  unfold padStart0, digitsN, allDigits in *. split.
  - rewrite length_app, repeat_length. lia.
  - rewrite forallb_app, Dp, andb_true_r. apply forallb_forall.
    intros x Hx. apply repeat_spec in Hx. subst x. reflexivity.
Qed.

Lemma padded4 y : 0 <= y <= 9999 -> digitsN 4 (padStart0 4 (NumberToString y)).
Proof. intros H. apply padded; [lia|]. change (10 ^ Z.of_nat 4) with 10000. lia. Qed.

Lemma padded2 n : 0 <= n <= 99 -> digitsN 2 (pad2 n).
Proof. intros H. apply padded; [lia|]. change (10 ^ Z.of_nat 2) with 100. lia. Qed.

Lemma digitsN_4 x : digitsN 4 x -> exists a b c d, x = [a; b; c; d] /\ allDigits x = true.
Proof.
  intros [Hl Hd]. destruct x as [|a [|b [|c [|d [|e x]]]]]; try discriminate. eauto 6.
Qed.

Lemma digitsN_2 x : digitsN 2 x -> exists a b, x = [a; b] /\ allDigits x = true.
Proof.
  intros [Hl Hd]. destruct x as [|a [|b [|c x]]]; try discriminate. eauto.
Qed.

Lemma digit_not_T a : isDigit a = true -> ascii_eqb a "T" = false.
Proof.
  intros H. destruct (ascii_eqb a "T") eqn:E; [|reflexivity].
  apply ascii_eqb_eq in E. subst a. discriminate.
Qed.

(** The defect is confined to the years outside 0..9999: a date whose UTC
    year has four digits is printed in the storage format. *)
Lemma mysqlFormat_shape (t : Date) :
  0 <= YearFromTime t <= 9999 ->
  exists s, mysqlFormat (Some t) = Normal s /\ storageShape s.
Proof.
  intros Hy. unfold mysqlFormat. eexists. split; [reflexivity|].
  unfold toISOString.
  replace ((0 <=? YearFromTime t) && (YearFromTime t <=? 9999)) with true
    by (symmetry; apply andb_true_intro; split; apply Z.leb_le; lia).
  destruct (civil_ranges (Day t)) as [Hmo Hd].
  destruct (time_ranges t) as (Hh & Hmi & Hs & Hms).
  destruct (@digitsN_4 _ (@padded4 _ Hy)) as (y1 & y2 & y3 & y4 & -> & Dy).
  assert (Hmo' : 0 <= MonthFromTime t + 1 <= 99) by (unfold MonthFromTime; lia).
  assert (Hd' : 0 <= DateFromTime t <= 99) by (unfold DateFromTime; lia).
  destruct (@digitsN_2 _ (@padded2 _ Hmo')) as (m1 & m2 & -> & Dm).
  destruct (@digitsN_2 _ (@padded2 _ Hd')) as (d1 & d2 & -> & Dd).
  destruct (@digitsN_2 _ (@padded2 (HourFromTime t) ltac:(lia))) as (h1 & h2 & -> & Dh).
  destruct (@digitsN_2 _ (@padded2 (MinFromTime t) ltac:(lia))) as (i1 & i2 & -> & Di).
  destruct (@digitsN_2 _ (@padded2 (SecFromTime t) ltac:(lia))) as (s1 & s2 & -> & Ds).
  cbn [app lit list_ascii_of_string slice Nat.sub skipn firstn].
  unfold allDigits in *. cbn [forallb] in *.
  repeat match goal with H : _ && _ = true |- _ => apply andb_prop in H as [? H] end.
  cbn [replaceT].
  repeat match goal with H : isDigit ?a = true |- _ => rewrite (@digit_not_T a H) end.
  change (ascii_eqb "-" "T") with false. change (ascii_eqb "T" "T") with true. cbv iota.
  exists [y1; y2; y3; y4], [m1; m2], [d1; d2], [h1; h2], [i1; i2], [s1; s2].
  unfold digitsN, allDigits. cbn [forallb length].
  repeat match goal with H : isDigit _ = true |- _ => rewrite H; clear H end.
  repeat split.
Qed.

(** ** The clean-up *)

(** C4, counterexample.  The storage path does not remove a trailing GMT
    offset annotation: the display path cleans the string to its
    noise-free form, the storage path keeps the annotation.  On the
    display path the annotation stays as well when a "from IP" suffix
    comes after it, since the blank left before that suffix then ends
    the text.  And a text with a "from IP" suffix in its middle does not
    parse like the text without it: what follows the suffix is lost. *)
Lemma cleanup_leaves_noise :
  cleanupDisplay (lit "Oct 13, 2025 14:19:42 GMT+0200") = lit "Oct 13, 2025 14:19:42"
  /\ cleanupStorage (lit "Oct 13, 2025 14:19:42 GMT+0200")
     = lit "Oct 13, 2025 14:19:42 GMT+0200"
  /\ cleanupStorage (lit "Oct 13, 2025 14:19:42 GMT+0200")
     <> cleanupStorage (lit "Oct 13, 2025 14:19:42")
  /\ cleanupDisplay (lit "Oct 13, 2025 14:19:42 GMT+0200 from IP 10.0.0.1")
     = lit "Oct 13, 2025 14:19:42 GMT+0200"
  /\ runClock (parseDate refRuntime (Some (lit "Closed from IP 10.0.0.1 on Oct 13, 2025")))
               refTimeline = None
  /\ runClock (parseDate refRuntime (Some (lit "Closed on Oct 13, 2025"))) refTimeline
     = Some 1760306400000.
Proof. vm_compute. repeat split. discriminate. Qed.

(** What follows "from IP" goes with it: of
    "Closed from IP 10.0.0.1 on Oct 13, 2025" only "Closed" is left, and
    no date is found. *)
Lemma fromIP_takes_what_follows :
  cleanupDisplay (lit "Closed from IP 10.0.0.1 on Oct 13, 2025") = lit "Closed"
  /\ cleanupStorage (lit "Closed from IP 10.0.0.1 on Oct 13, 2025") = lit "Closed"
  /\ runClock (parseDate refRuntime (Some (lit "Closed from IP 10.0.0.1 on Oct 13, 2025")))
               refTimeline = None.
Proof. vm_compute. repeat split. Qed.

(** ** Today and yesterday *)

Lemma filterM_fixed {A} (f : A -> Clock bool) (g : A -> bool) (tl : Timeline) :
  (forall x n, fst (f x tl n) = g x) ->
  forall l n, fst (filterM f l tl n) = filter g l.
Proof.
  intros Hf. induction l as [|x l IH]; intros n; [reflexivity|].
  simpl. unfold bind. specialize (Hf x n).
  destruct (f x tl n) as [b n1]. simpl in Hf. subst b.
  specialize (IH n1). destruct (filterM f l tl n1) as [r n2]. simpl in IH. subst r.
  unfold ret. simpl. destruct (g x); reflexivity.
Qed.

(** The readings of the clock made by the two callbacks. *)
Lemma isToday_run rt todayDate t tl n :
  fst (isToday rt todayDate t tl n) =
  match parseDateAt rt (tl n) (selectedDate t) with
  | None => false
  | Some d =>
      if isIsoUTC (selectedDate t) then str_eqb (dateKeyUTC d) (dateKeyUTC (tl (S n)))
      else str_eqb (dateKey rt d) (dateKey rt todayDate)
  end.
Proof.
  unfold isToday, bind. rewrite parseDate_run.
  destruct (selectedDate t) as [[|a s]|] eqn:E; try reflexivity.
  destruct (parseDateAt _ _ _); [|reflexivity].
  destruct (isIsoUTC _); reflexivity.
Qed.


Lemma isToday_fixed rt now tl t n :
  (forall i, tl i = now) -> fst (isToday rt now t tl n) = isTodayAt rt now t.
Proof. intros Hc. rewrite isToday_run, !Hc. reflexivity. Qed.


Lemma ticketsToday_fixed rt now tl tickets n :
  (forall i, tl i = now) ->
  fst (ticketsToday rt now tickets tl n) = length (filter (isTodayAt rt now) tickets).
Proof.
  intros Hc. unfold ticketsToday, bind.
  pose proof (@filterM_fixed _ (isToday rt now) (isTodayAt rt now) tl
                (fun x k => @isToday_fixed rt now tl x k Hc) tickets n) as H.
  destruct (filterM (isToday rt now) tickets tl n) as [l n']. simpl in H. subst l.
  reflexivity.
Qed.











(** ** Counters, [Object.entries] and [sort] *)

Lemma str_eqb_sym (s t : str) : str_eqb s t = str_eqb t s.
Proof.
  destruct (str_eqb s t) eqn:E1, (str_eqb t s) eqn:E2; try reflexivity.
  - apply str_eqb_eq in E1. subst. rewrite str_eqb_refl in E2. discriminate.
  - apply str_eqb_eq in E2. subst. rewrite str_eqb_refl in E1. discriminate.
Qed.

Lemma getCount_bump (k k' : str) (o : counter) :
  getCount k (bump k' o) = getCount k o + (if str_eqb k' k then 1 else 0).
Proof.
  induction o as [|[k0 v] o IH]; simpl.
  - destruct (str_eqb k' k); lia.
  - destruct (str_eqb k0 k') eqn:E; simpl.
    + apply str_eqb_eq in E. subst k0. destruct (str_eqb k' k); lia.
    + destruct (str_eqb k0 k) eqn:E'; [|exact IH].
      apply str_eqb_eq in E'. subst k0. rewrite str_eqb_sym, E. lia.
Qed.

Lemma bump_has_key (k : str) (o : counter) : In k (map fst (bump k o)).
Proof.
  induction o as [|[k0 v] o IH]; simpl; [auto|].
  destruct (str_eqb k0 k) eqn:E; simpl; [|auto].
  apply str_eqb_eq in E. auto.
Qed.

Lemma bump_keeps_keys (k k' : str) (o : counter) :
  In k (map fst o) -> In k (map fst (bump k' o)).
Proof.
  induction o as [|[k0 v] o IH]; simpl; [tauto|].
  destruct (str_eqb k0 k'); simpl; tauto.
Qed.

Lemma key_has_count (k : str) (o : counter) :
  In k (map fst o) -> In (k, getCount k o) o.
Proof.
  induction o as [|[k0 v] o IH]; simpl; [tauto|].
  destruct (str_eqb k0 k) eqn:E.
  - apply str_eqb_eq in E. subst. auto.
  - intros [H|H]; [|auto]. subst. rewrite str_eqb_refl in E. discriminate.
Qed.

Lemma total_bump (k : str) (o : counter) : total (bump k o) = total o + 1.
Proof.
  unfold total. induction o as [|[k0 v] o IH]; simpl; [reflexivity|].
  destruct (str_eqb k0 k); simpl; lia.
Qed.

Section Tally.
Variable A : Type.
Variable label : A -> str.

Lemma tally_count (k : str) (l : list A) (o : counter) :
  getCount k (tally label l o)
  = getCount k o + Z.of_nat (length (filter (fun t => str_eqb (label t) k) l)).
Proof.
  unfold tally. revert o. induction l as [|t l IH]; intros o; simpl; [lia|].
  rewrite IH, getCount_bump. destruct (str_eqb (label t) k); simpl length; lia.
Qed.

Lemma tally_keeps_keys (k : str) (l : list A) (o : counter) :
  In k (map fst o) -> In k (map fst (tally label l o)).
Proof.
  unfold tally. revert o. induction l as [|t l IH]; intros o H; simpl; [exact H|].
  apply IH, bump_keeps_keys, H.
Qed.

Lemma tally_has_key (t : A) (l : list A) (o : counter) :
  In t l -> In (label t) (map fst (tally label l o)).
Proof.
  revert o. induction l as [|u l IH]; intros o; simpl; [tauto|].
  intros [->|H].
  - apply tally_keeps_keys, bump_has_key.
  - apply IH, H.
Qed.

Lemma tally_total (l : list A) (o : counter) :
  total (tally label l o) = total o + Z.of_nat (length l).
Proof.
  unfold tally. revert o. induction l as [|t l IH]; intros o; simpl length; simpl fold_left;
    [lia|].
  rewrite IH, total_bump. lia.
Qed.
End Tally.

Section SortingFacts.
Variable A : Type.
Variable cmp : A -> A -> Z.

Lemma insertSorted_perm (x : A) (l : list A) : Permutation (insertSorted cmp x l) (x :: l).
Proof.
  induction l as [|y l IH]; simpl; [reflexivity|].
  destruct (cmp x y <=? 0); [reflexivity|].
  rewrite IH. apply perm_swap.
Qed.

Lemma sortBy_perm (l : list A) : Permutation (sortBy cmp l) l.
Proof.
  induction l as [|x l IH]; simpl; [reflexivity|].
  rewrite insertSorted_perm. constructor. exact IH.
Qed.
End SortingFacts.

Lemma filter_split_perm {A} (p : A -> bool) (l : list A) :
  Permutation (filter p l ++ filter (fun x => negb (p x)) l) l.
Proof.
  induction l as [|x l IH]; simpl; [reflexivity|].
  destruct (p x); simpl.
  - constructor. exact IH.
  - symmetry. apply Permutation_cons_app. symmetry. exact IH.
Qed.

Lemma entries_perm (o : counter) : Permutation (entries o) o.
Proof.
  unfold entries. rewrite sortBy_perm. apply filter_split_perm.
Qed.

Lemma total_perm (o o' : list (str * Z)) : Permutation o o' -> total o = total o'.
Proof.
  unfold total. induction 1; simpl; lia.
Qed.

Lemma ticketsByBrand_perm (tickets : list TicketItem) :
  Permutation (ticketsByBrand tickets)
              (tally (fun t => normalizeBrand (brand t)) tickets []).
Proof.
  unfold ticketsByBrand. rewrite sortBy_perm. apply entries_perm.
Qed.

(** With a comparison that puts each pair one way or the other,
    [sortBy] leaves every item before its successor. *)
Section SortedFacts.
Variable A : Type.
Variable cmp : A -> A -> Z.
Hypothesis cmp_total : forall x y, 0 < cmp x y -> cmp y x <= 0.

Let before (x y : A) : Prop := cmp x y <= 0.

Lemma insertSorted_hd (x y : A) (l : list A) :
  before y x -> HdRel before y l -> HdRel before y (insertSorted cmp x l).
Proof.
  intros Hyx Hl. destruct l as [|z l]; simpl; [constructor; exact Hyx|].
  destruct (cmp x z <=? 0); constructor; [exact Hyx|].
  inversion Hl. assumption.
Qed.

Lemma insertSorted_sorted (x : A) (l : list A) :
  Sorted before l -> Sorted before (insertSorted cmp x l).
Proof.
  induction l as [|y l IH]; intros Hs; simpl.
  - constructor; constructor.
  - destruct (cmp x y <=? 0) eqn:E.
    + constructor; [exact Hs|]. constructor. apply Z.leb_le, E.
    + apply Z.leb_gt in E. inversion Hs as [|? ? Hs' Hhd]; subst.
      constructor; [apply IH, Hs'|]. apply insertSorted_hd; [|exact Hhd].
      apply cmp_total, E.
Qed.

Lemma sortBy_sorted (l : list A) : Sorted before (sortBy cmp l).
Proof.
  induction l as [|x l IH]; simpl; [constructor|]. apply insertSorted_sorted, IH.
Qed.
End SortedFacts.

(** The entries of [ticketsByBrand] come by decreasing count. *)
Lemma ticketsByBrand_ranked (tickets : list TicketItem) :
  StronglySorted (fun a b : str * Z => snd b <= snd a) (ticketsByBrand tickets).
Proof.
  apply Sorted_StronglySorted.
  - intros a b c Hab Hbc. lia.
  - unfold ticketsByBrand.
    pose proof (@sortBy_sorted (str * Z) (fun a b => snd b - snd a)) as H.
    eapply Sorted_ind with (P := fun l => Sorted (fun a b : str * Z => snd b <= snd a) l);
      [| |apply H; intros; lia].
    + constructor.
    + intros a l _ IH Hhd. constructor; [exact IH|].
      destruct Hhd; constructor. lia.
Qed.

(** ** Brands *)

(** C10.  An absent or empty brand is labelled "Unknown", and the records
    so labelled are kept by [ticketsByBrand]: it has an entry "Unknown"
    whose count is the number of records with that label, at least one;
    the counts of all the entries add up to the number of records, and
    the entries, "Unknown" among them, are ranked by decreasing count. *)
Theorem unknown_brand_is_counted (tickets : list TicketItem) (t : TicketItem) :
  In t tickets ->
  brand t = None \/ brand t = Some [] ->
  normalizeBrand (brand t) = lit "Unknown"
  /\ (exists n : Z,
        In (lit "Unknown", n) (ticketsByBrand tickets)
        /\ n = Z.of_nat (length (filter (fun u => str_eqb (normalizeBrand (brand u))
                                                         (lit "Unknown")) tickets))
        /\ 1 <= n)
  /\ total (ticketsByBrand tickets) = Z.of_nat (length tickets)
  /\ StronglySorted (fun a b : str * Z => snd b <= snd a) (ticketsByBrand tickets).
Proof.
  intros Hin Hb.
  assert (Hl : normalizeBrand (brand t) = lit "Unknown")
    by (destruct Hb as [-> | ->]; reflexivity).
  split; [exact Hl|]. split.
  - set (label := fun u : TicketItem => normalizeBrand (brand u)).
    exists (getCount (lit "Unknown") (tally label tickets [])).
    split; [|split].
    + eapply Permutation_in; [symmetry; apply ticketsByBrand_perm|].
      apply key_has_count. rewrite <- Hl. apply (tally_has_key label t tickets []), Hin.
    + rewrite tally_count. reflexivity.
    + rewrite tally_count. simpl getCount.
      assert (In t (filter (fun u => str_eqb (label u) (lit "Unknown")) tickets)).
      { apply filter_In. split; [exact Hin|]. unfold label. rewrite Hl.
        apply str_eqb_refl. }
      destruct (filter (fun u => str_eqb (label u) (lit "Unknown")) tickets);
        [contradiction | simpl length; lia].
  - split; [|apply ticketsByBrand_ranked].
    rewrite (total_perm (ticketsByBrand_perm tickets)), tally_total. reflexivity.
Qed.

Lemma unknown_brand_is_counted_witness :
  exists n : Z,
    In (lit "Unknown", n)
       (ticketsByBrand [ticketBranded (Some "_shopify"%string); ticketBranded None;
                        ticketBranded (Some "Shopify"%string);
                        ticketBranded (Some EmptyString)])
    /\ 1 <= n.
Proof.
  destruct (@unknown_brand_is_counted
              [ticketBranded (Some "_shopify"%string); ticketBranded None;
               ticketBranded (Some "Shopify"%string); ticketBranded (Some EmptyString)]
              (ticketBranded None)) as (_ & (n & Hin & _ & Hn) & _ & _).
  - simpl. auto.
  - left. reflexivity.
  - exists n. split; assumption.
Defined.

(** ** The matcher and what an expression denotes *)

Lemma lastOr_cons (pv : option ascii) (a : ascii) (ds : str) :
  lastOr pv (a :: ds) = lastOr (Some a) ds.
Proof. reflexivity. Qed.

(** The states listed for a quantifier on a class. *)
Lemma runs_spec (p : ascii -> bool) (s : str) :
  forall lo hi c pv st',
    In st' (runs p lo hi c pv s) <->
    exists ds, s = ds ++ rest st' /\ forallb p ds = true /\ (lo <= length ds)%nat
               /\ within hi (length ds) /\ caps st' = c /\ prev st' = lastOr pv ds.
Proof.
  induction s as [|a s IH]; intros lo hi c pv st'.
  - assert (E : runs p lo hi c pv [] = if (lo =? 0)%nat then [MState c pv []] else []).
    { simpl. destruct hi as [[|h]|]; apply app_nil_r. }
    rewrite E. split.
    + destruct (lo =? 0)%nat eqn:Hlo; [|intros []]. apply Nat.eqb_eq in Hlo.
      intros [<-|[]]. exists []. simpl. repeat split; try lia.
      destruct hi; simpl; [lia|exact I].
    + intros (ds & Hs & _ & Hlo & _ & Hc & Hp).
      symmetry in Hs. apply app_eq_nil in Hs as [-> Hr]. simpl in Hlo.
      replace (lo =? 0)%nat with true by (symmetry; apply Nat.eqb_eq; lia).
      left. destruct st' as [c' pv' r']. simpl in *. subst. reflexivity.
  - simpl runs. rewrite in_app_iff. split.
    + intros [H|H].
      * destruct (lo =? 0)%nat eqn:Hlo; [|destruct H]. apply Nat.eqb_eq in Hlo.
        destruct H as [<-|[]]. exists []. simpl. repeat split; try lia.
        destruct hi; simpl; [lia|exact I].
      * assert (Hhi : hi <> Some O /\ p a = true
                      /\ In st' (runs p (Nat.pred lo) (option_map Nat.pred hi) c (Some a) s)).
        { destruct hi as [[|h]|]; [destruct H| |]; (destruct (p a); [|destruct H]);
            repeat split; try discriminate; exact H. }
        destruct Hhi as (Hhi & Hpa & Hin). apply IH in Hin.
        destruct Hin as (ds & Hs & Hall & Hlo & Hw & Hc & Hp).
        exists (a :: ds). simpl. rewrite Hpa, Hall, <- Hs. repeat split; try lia; auto.
        destruct hi as [[|h]|]; simpl in *; try lia; auto.
    + intros (ds & Hs & Hall & Hlo & Hw & Hc & Hp). destruct ds as [|a' ds].
      * left. simpl in *. replace (lo =? 0)%nat with true by (symmetry; apply Nat.eqb_eq; lia).
        left. destruct st' as [c' pv' r']. simpl in *. subst. reflexivity.
      * right. simpl in Hs. injection Hs as <- Hs. simpl in Hall.
        apply andb_prop in Hall as [Hpa Hall]. rewrite Hpa.
        assert (Hin : In st' (runs p (Nat.pred lo) (option_map Nat.pred hi) c (Some a) s)).
        { apply IH. exists ds. simpl in Hlo. repeat split; auto; try lia.
          destruct hi as [[|h]|]; simpl in *; try lia; auto. }
        destruct hi as [[|h]|]; simpl in *; try lia; exact Hin.
Qed.

(** The matcher is sound and complete for [den]: the states it lists are
    the ways in which the expression can match. *)
Theorem m_den (r : regex) :
  forall st pv' s',
    (exists st', In st' (m r st) /\ prev st' = pv' /\ rest st' = s')
    <-> den r (prev st) (rest st) pv' s'.
Proof.
  induction r as [|p|r1 IH1 r2 IH2|r1 IH1 r2 IH2|g lo hi p|r1 IH1|i r1 IH1| | |];
    intros st pv' s'; simpl.
  - split.
    + intros (st' & [<-|[]] & <- & <-). auto.
    + intros [-> ->]. exists st. auto.
  - split.
    + intros (st' & Hin & <- & <-). destruct (rest st) as [|a s0]; [destruct Hin|].
      destruct (p a) eqn:Hp; [|destruct Hin]. destruct Hin as [<-|[]].
      exists a. auto.
    + intros (a & -> & Hp & ->). rewrite Hp. eexists. split; [left; reflexivity|auto].
  - split.
    + intros (st' & Hin & Hp & Hr). apply in_flat_map in Hin as (st1 & H1 & H2).
      exists (prev st1), (rest st1). split.
      * apply IH1. exists st1. auto.
      * apply IH2. exists st'. auto.
    + intros (pv1 & s1 & H1 & H2). apply IH1 in H1 as (st1 & Hin1 & <- & <-).
      apply IH2 in H2 as (st' & Hin2 & Hp & Hr).
      exists st'. split; [|auto]. apply in_flat_map. exists st1. auto.
  - split.
    + intros (st' & Hin & Hp & Hr). apply in_app_or in Hin as [H|H];
        [left; apply IH1 | right; apply IH2]; exists st'; auto.
    + intros [H|H]; [apply IH1 in H | apply IH2 in H];
        destruct H as (st' & Hin & Hp & Hr); exists st'; (split; [|auto]);
        apply in_or_app; auto.
  - split.
    + intros (st' & Hin & <- & <-).
      assert (Hin' : In st' (runs p lo hi (caps st) (prev st) (rest st)))
        by (destruct g; [apply in_rev|]; exact Hin).
      apply runs_spec in Hin' as (ds & Hs & Hall & Hlo & Hw & Hc & Hp).
      exists ds. auto.
    + intros (ds & Hs & Hall & Hlo & Hw & ->).
      exists (MState (caps st) (lastOr (prev st) ds) s'). split; [|auto].
      assert (Hin : In (MState (caps st) (lastOr (prev st) ds) s')
                       (runs p lo hi (caps st) (prev st) (rest st))).
      { apply runs_spec. exists ds. simpl. auto 10. }
      destruct g; [apply in_rev; rewrite rev_involutive|]; exact Hin.
  - split.
    + intros (st' & Hin & Hp & Hr). apply in_app_or in Hin as [H|[<-|[]]].
      * left. apply IH1. exists st'. auto.
      * right. auto.
    + intros [H|[-> ->]].
      * apply IH1 in H as (st' & Hin & Hp & Hr). exists st'. split; [|auto].
        apply in_or_app. auto.
      * exists st. split; [|auto]. apply in_or_app. right. left. reflexivity.
  - split.
    + intros (st' & Hin & Hp & Hr). apply in_map_iff in Hin as (st1 & <- & Hin).
      apply IH1. exists st1. auto.
    + intros H. apply IH1 in H as (st1 & Hin & Hp & Hr).
      exists (setcap i (length (rest st), length (rest st1)) st1).
      split; [|auto]. apply in_map_iff. exists st1. auto.
  - split.
    + intros (st' & Hin & <- & <-). destruct (prev st) eqn:Hp; [destruct Hin|].
      destruct Hin as [<-|[]]. auto.
    + intros (Hp & -> & ->). rewrite Hp. exists st. rewrite Hp. simpl. auto.
  - split.
    + intros (st' & Hin & <- & <-). destruct (rest st) eqn:Hr; [|destruct Hin].
      destruct Hin as [<-|[]]. auto.
    + intros (Hr & -> & ->). rewrite Hr. exists st. rewrite Hr. simpl. auto.
  - split.
    + intros (st' & Hin & <- & <-).
      destruct (xorb (wordAt (prev st)) (wordAt (hd_error (rest st)))) eqn:Hx;
        [|destruct Hin].
      destruct Hin as [<-|[]]. auto.
    + intros (Hx & -> & ->). rewrite Hx. exists st. simpl. auto.
Qed.

Lemma lastOr_app (pv : option ascii) (xs ys : str) :
  lastOr pv (xs ++ ys) = lastOr (lastOr pv xs) ys.
Proof. unfold lastOr. apply fold_left_app. Qed.

(** A search finds a match exactly when the expression matches from some
    position of the input. *)
Lemma search_spec (r : regex) (s : str) :
  forall pv,
    search r pv s <> None <->
    exists pre suf pv' s', s = pre ++ suf /\ den r (lastOr pv pre) suf pv' s'.
Proof.
  induction s as [|a s IH]; intros pv; simpl.
  - destruct (m r (MState [] pv [])) as [|st l] eqn:E.
    + split; [congruence|]. intros (pre & suf & pv' & s' & Hs & Hd).
      symmetry in Hs. apply app_eq_nil in Hs as [-> ->]. simpl in Hd.
      apply (m_den r (MState [] pv [])) in Hd as (st' & Hin & _). rewrite E in Hin.
      destruct Hin.
    + split; [|discriminate]. intros _. exists [], [], (prev st), (rest st). split; [reflexivity|].
      apply (m_den r (MState [] pv [])). exists st. rewrite E. simpl. auto.
  - destruct (m r (MState [] pv (a :: s))) as [|st l] eqn:E.
    + rewrite IH. split.
      * intros (pre & suf & pv' & s' & -> & Hd). exists (a :: pre), suf, pv', s'.
        split; [reflexivity | exact Hd].
      * intros (pre & suf & pv' & s' & Hs & Hd). destruct pre as [|a' pre].
        -- simpl in Hs, Hd. subst suf.
           apply (m_den r (MState [] pv (a :: s))) in Hd as (st' & Hin & _).
           rewrite E in Hin. destruct Hin.
        -- simpl in Hs. injection Hs as <- ->. exists pre, suf, pv', s'.
           split; [reflexivity | exact Hd].
    + split; [|discriminate]. intros _. exists [], (a :: s), (prev st), (rest st).
      split; [reflexivity|].
      apply (m_den r (MState [] pv (a :: s))). exists st. rewrite E. simpl. auto.
Qed.

Lemma test_spec (r : regex) (s : str) :
  test r s = true <->
  exists pre suf pv' s', s = pre ++ suf /\ den r (lastOr None pre) suf pv' s'.
Proof.
  unfold test. rewrite <- search_spec.
  destruct (search r None s); split; congruence.
Qed.

(** ** [isIsoUTC] *)

Ltac break :=
  repeat match goal with
  | H : exists _, _ |- _ => destruct H
  | H : _ /\ _ |- _ => destruct H
  end.

Lemma ascii_eqb_true (a b : ascii) : ascii_eqb a b = true -> b = a.
Proof. intros H. apply ascii_eqb_eq in H. congruence. Qed.

Ltac chars :=
  repeat match goal with
  | H : ascii_eqb _ _ = true |- _ => apply ascii_eqb_true in H
  end.

Lemma digitsN_intro (n : nat) (x : str) :
  forallb isDigit x = true -> (n <= length x)%nat -> within (Some n) (length x) ->
  digitsN n x.
Proof. unfold digitsN, within, allDigits. intros. split; [lia|assumption]. Qed.

Lemma isoUTC_to_shape pv suf pv' s' : den re_isoUTC pv suf pv' s' -> isoShape suf.
Proof.
  unfold re_isoUTC, exactly, chr, plus. cbn [cat den]. intros H. break. chars. subst.
  match goal with H : _ \/ _ |- _ => destruct H as [H|H] end; break; chars; subst.
  - match goal with
    | |- isoShape (?y ++ _ :: ?mo ++ _ :: ?d ++ _ :: ?h ++ _ :: ?mi ++ _ :: ?sec
                      ++ _ :: ?f ++ _) =>
        exists y, mo, d, h, mi, sec, ("."%char :: f)
    end.
    split; [reflexivity|]. repeat (split; [apply digitsN_intro; assumption|]).
    right. eexists. split; [reflexivity|]. split; [|eassumption].
    intros ->. simpl in *. lia.
  - match goal with
    | |- isoShape (?y ++ _ :: ?mo ++ _ :: ?d ++ _ :: ?h ++ _ :: ?mi ++ _ :: ?sec ++ _) =>
        exists y, mo, d, h, mi, sec, []
    end.
    split; [reflexivity|]. repeat (split; [apply digitsN_intro; assumption|]).
    left. reflexivity.
Qed.

Lemma rep_digits pv n x s :
  digitsN n x -> den (exactly n isDigit) pv (x ++ s) (lastOr pv x) s.
Proof.
  intros [Hl Hd]. unfold exactly. simpl. exists x. unfold within.
  repeat split; auto; lia.
Qed.

Lemma den_chr pv a s : den (chr a) pv (a :: s) (Some a) s.
Proof. simpl. exists a. repeat split. apply ascii_eqb_refl. Qed.

Lemma shape_to_isoUTC pv suf : isoShape suf -> exists pv' s', den re_isoUTC pv suf pv' s'.
Proof.
  intros (y & mo & d & h & mi & sec & frac & -> & Hy & Hmo & Hd & Hh & Hmi & Hsec & Hf).
  unfold re_isoUTC, plus. cbn [cat lit list_ascii_of_string app].
  exists (Some "Z"%char), [].
  cbn [den].
  repeat (eexists; eexists; split;
          [first [apply rep_digits; eassumption | apply den_chr]|]).
  destruct Hf as [->|(f & -> & Hne & Hfd)].
  - do 2 eexists. split; [right; split; reflexivity|].
    do 2 eexists. split; [apply den_chr|]. repeat split.
  - exists (lastOr (Some "."%char) f), ["Z"%char]. split.
    + left. do 2 eexists. split; [apply den_chr|].
      exists f. repeat split; auto. destruct f; [congruence|simpl; lia].
    + do 2 eexists. split; [apply den_chr|]. repeat split.
Qed.

Lemma trimStart_id (a : ascii) (s : str) : isSpace a = false -> trimStart (a :: s) = a :: s.
Proof. intros H. simpl. rewrite H. reflexivity. Qed.

Lemma trim_id (a b : ascii) (s : str) :
  isSpace a = false -> isSpace b = false -> trim (a :: s ++ [b]) = a :: s ++ [b].
Proof.
  intros Ha Hb. unfold trim, trimEnd. rewrite (@trimStart_id a _ Ha).
  change (a :: s ++ [b]) with ((a :: s) ++ [b]). rewrite rev_app_distr.
  change (rev [b] ++ rev (a :: s)) with (b :: rev (a :: s)).
  rewrite (@trimStart_id b _ Hb).
  change (b :: rev (a :: s)) with (rev [b] ++ rev (a :: s)).
  rewrite <- rev_app_distr. apply rev_involutive.
Qed.

Lemma isDigit_not_space (a : ascii) : isDigit a = true -> isSpace a = false.
Proof.
  unfold isDigit, isSpace, between. intros H. apply andb_prop in H as [H1 H2].
  apply N.leb_le in H1. apply N.leb_le in H2.
  repeat apply orb_false_intro.
  - apply andb_false_intro2. apply N.leb_gt. lia.
  - apply N.eqb_neq. lia.
  - apply N.eqb_neq. lia.
Qed.

Lemma specIsoInstantZ_shape (s : str) : specIsoInstantZ s = true -> isoShape s /\ trim s = s.
Proof.
  unfold specIsoInstantZ. intros H.
  repeat (apply andb_prop in H as [H ?]).
  repeat match goal with H : (_ =? _)%nat = true |- _ => apply Nat.eqb_eq in H end.
  apply str_eqb_eq in H.
  set (y := slice 0 4 s) in *. set (mo := slice 5 7 s) in *. set (d := slice 8 10 s) in *.
  set (h := slice 11 13 s) in *. set (mi := slice 14 16 s) in *.
  set (sec := slice 17 19 s) in *. set (frac := slice 19 (length s - 1) s) in *.
  clearbody y mo d h mi sec frac.
  split.
  - exists y, mo, d, h, mi, sec, frac. unfold digitsN. repeat split; auto.
    destruct frac as [|c f]; [left; reflexivity|]. right.
    match goal with H : _ && _ = true |- _ =>
      apply andb_prop in H as [H Hfd]; apply andb_prop in H as [Hc Hlen] end.
    apply ascii_eqb_eq in Hc. subst c. exists f. repeat split; auto.
    intros ->. discriminate.
  - rewrite H. destruct y as [|a y]; [discriminate|].
    match goal with H : allDigits (a :: y) = true |- _ =>
      simpl in H; apply andb_prop in H as [Ha _] end.
    cbn [app].
    replace (y ++ lit "-" ++ mo ++ lit "-" ++ d ++ lit "T" ++ h ++ lit ":" ++ mi ++ lit ":"
               ++ sec ++ frac ++ lit "Z")
      with ((y ++ lit "-" ++ mo ++ lit "-" ++ d ++ lit "T" ++ h ++ lit ":" ++ mi ++ lit ":"
               ++ sec ++ frac) ++ ["Z"%char])
      by (rewrite <- !app_assoc; reflexivity).
    apply trim_id; [apply isDigit_not_space, Ha | reflexivity].
Qed.

(** A string of the shape has twenty code units or more. *)
Lemma isoShape_length (s : str) : isoShape s -> (20 <= length s)%nat.
Proof.
  intros (y & mo & d & h & mi & sec & frac & -> & [Hy _] & [Hmo _] & [Hd _] & [Hh _]
          & [Hmi _] & [Hsec _] & _).
  rewrite !length_app, Hy, Hmo, Hd, Hh, Hmi, Hsec. cbn [lit list_ascii_of_string length]. lia.
Qed.

Lemma specIsoMinuteZ_length (s : str) : specIsoMinuteZ s = true -> length s = 17%nat.
Proof.
  unfold specIsoMinuteZ. intros H.
  repeat (apply andb_prop in H as [H ?]).
  repeat match goal with H : (_ =? _)%nat = true |- _ => apply Nat.eqb_eq in H end.
  apply str_eqb_eq in H. rewrite H, !length_app.
  repeat match goal with H : length _ = _ |- _ => rewrite H; clear H end.
  reflexivity.
Qed.

(** The length of a text does not grow when it is trimmed. *)
Lemma length_trimStart (s : str) : (length (trimStart s) <= length s)%nat.
Proof.
  induction s as [|a s IH]; [apply Nat.le_refl|]. cbn [trimStart].
  destruct (isSpace a); [cbn [length]; lia | apply Nat.le_refl].
Qed.

Lemma length_trim (s : str) : (length (trim s) <= length s)%nat.
Proof.
  unfold trim, trimEnd. rewrite length_rev.
  etransitivity; [apply length_trimStart|]. rewrite length_rev. apply length_trimStart.
Qed.

Lemma specIsoMinuteZ_rejected (s : str) :
  specIsoMinuteZ s = true -> isIsoUTC (Some s) = false.
Proof.
  intros H. apply specIsoMinuteZ_length in H.
  destruct (isIsoUTC (Some s)) eqn:E; [|reflexivity]. exfalso.
  unfold isIsoUTC in E. apply test_spec in E as (pre & suf & pv' & s' & Hs & Hd).
  apply isoUTC_to_shape, isoShape_length in Hd.
  pose proof (length_trim s) as Hl. rewrite Hs, length_app in Hl. lia.
Qed.

(** C5, counterexample.  [isIsoUTC] accepts strings that are not ISO-8601
    instants, since the pattern is not anchored at the start and does not
    check the fields, and it rejects the valid instants that are written
    to the minute. *)
Lemma isIsoUTC_accepts_non_instants :
  isIsoUTC (Some (lit "ref 2025-10-14T03:14:00Z")) = true
  /\ validIsoInstantZ (lit "ref 2025-10-14T03:14:00Z") = false
  /\ isIsoUTC (Some (lit "2025-13-99T99:99:99Z")) = true
  /\ validIsoInstantZ (lit "2025-13-99T99:99:99Z") = false
  /\ isIsoUTC (Some (lit "2025-10-14T03:14Z")) = false
  /\ validIsoInstantZ (lit "2025-10-14T03:14Z") = true.
Proof. vm_compute. repeat split. Qed.

(** C5, amended.  [isIsoUTC] returns true for a string if and only if
    the string, once trimmed, ends with a substring of the shape
    dddd-dd-ddTdd:dd:dd, an optional fraction, Z (any text may come
    before it, and the digits are not checked against the calendar).  Of
    the valid ISO-8601 instants with a Z suffix it flags those that are
    written to the second, and no other. *)
Theorem isIsoUTC_shape (s : str) :
  (isIsoUTC (Some s) = true <-> exists pre suf, trim s = pre ++ suf /\ isoShape suf)
  /\ (validIsoInstantZ s = true ->
      (isIsoUTC (Some s) = true <-> specIsoInstantZ s = true)).
Proof.
  assert (E : isIsoUTC (Some s) = true <->
              exists pre suf, trim s = pre ++ suf /\ isoShape suf).
  { unfold isIsoUTC. rewrite test_spec. split.
    - intros (pre & suf & pv' & s' & Hs & Hd). exists pre, suf. split; [exact Hs|].
      eapply isoUTC_to_shape, Hd.
    - intros (pre & suf & Hs & Hsh).
      destruct (@shape_to_isoUTC (lastOr None pre) suf Hsh) as (pv' & s' & Hd).
      exists pre, suf, pv', s'. auto. }
  split; [exact E|].
  intros Hv. unfold validIsoInstantZ in Hv. split.
  - intros Hi. destruct (specIsoInstantZ s); [reflexivity|]. cbn [orb] in Hv.
    apply specIsoMinuteZ_rejected in Hv. congruence.
  - intros H. apply specIsoInstantZ_shape in H as [Hsh Ht]. apply E.
    exists [], s. rewrite Ht. auto.
Qed.

Lemma isIsoUTC_shape_witness :
  isIsoUTC (Some (lit "2025-10-14T03:14:00.250Z")) = true.
Proof.
  assert (Hv : validIsoInstantZ (lit "2025-10-14T03:14:00.250Z") = true)
    by (vm_compute; reflexivity).
  apply (proj2 (isIsoUTC_shape (lit "2025-10-14T03:14:00.250Z")) Hv).
  vm_compute. reflexivity.
Defined.

(** ** [normalizeBrand] *)

Lemma runs_longest p c : forall s pv lo,
  (lo <= runLength p s)%nat ->
  exists pv' l, rev (runs p lo None c pv s) = MState c pv' (dropWhile p s) :: l.
Proof.
  induction s as [|a s IH]; intros pv lo Hlo.
  - simpl in *. replace (lo =? 0)%nat with true by (symmetry; apply Nat.eqb_eq; lia).
    simpl. eauto.
  - simpl runs. simpl in Hlo. simpl dropWhile. revert Hlo. destruct (p a) eqn:Hp; intros Hlo.
    + destruct (IH (Some a) (Nat.pred lo)) as (pv' & l & E); [lia|].
      rewrite rev_app_distr. simpl option_map. rewrite E. simpl. eauto.
    + replace (lo =? 0)%nat with true by (symmetry; apply Nat.eqb_eq; lia).
      simpl. eauto.
Qed.

(** A run shorter than the lower bound of the quantifier: no match. *)
Lemma runs_short p c : forall s pv lo,
  (runLength p s < lo)%nat -> runs p lo None c pv s = [].
Proof.
  induction s as [|a s IH]; intros pv lo Hlo; simpl in *.
  - replace (lo =? 0)%nat with false by (symmetry; apply Nat.eqb_neq; lia). reflexivity.
  - revert Hlo. destruct (p a); intros Hlo.
    + replace (lo =? 0)%nat with false by (symmetry; apply Nat.eqb_neq; lia).
      simpl. apply IH. lia.
    + replace (lo =? 0)%nat with false by (symmetry; apply Nat.eqb_neq; lia).
      reflexivity.
Qed.

Lemma length_dropWhile p s : length (dropWhile p s) = (length s - runLength p s)%nat.
Proof.
  induction s as [|a s IH]; simpl; [reflexivity|]. destruct (p a); simpl; [exact IH|lia].
Qed.

Lemma runLength_le p s : (runLength p s <= length s)%nat.
Proof. induction s as [|a s IH]; simpl; [lia|]. destruct (p a); simpl; lia. Qed.

Lemma m_separators_hit pv a s :
  spaceOrDot a = true ->
  exists st l, m re_separators (MState [] pv (a :: s)) = st :: l
               /\ (length (a :: s) - length (rest st) = S (runLength spaceOrDot s))%nat.
Proof.
  intros Ha. unfold re_separators, plus. cbn [m caps prev rest].
  destruct (@runs_longest spaceOrDot [] (a :: s) pv 1%nat) as (pv' & l & E).
  { simpl. rewrite Ha. lia. }
  rewrite E. exists (MState [] pv' (dropWhile spaceOrDot (a :: s))), l. split; [reflexivity|].
  cbn [rest]. rewrite length_dropWhile. cbn [runLength length]. rewrite Ha.
  pose proof (runLength_le spaceOrDot s). lia.
Qed.

Lemma m_separators_miss pv s :
  match s with a :: _ => spaceOrDot a = false | [] => True end ->
  m re_separators (MState [] pv s) = [].
Proof.
  intros H. unfold re_separators, plus. cbn [m caps prev rest].
  rewrite runs_short; [reflexivity|]. destruct s; simpl; [lia|]. rewrite H. lia.
Qed.

(** [split] on the separators, position by position: outside a match the
    pieces are those of [fieldsOf false], inside a match, with as many
    code units to pass as the run has left, those of [fieldsOf true]. *)
Lemma split_fields : forall s,
  (forall pv cur, split_from re_separators 0 pv s cur = prependHead (rev cur) (fieldsOf false s))
  /\ (forall pv, split_from re_separators (runLength spaceOrDot s) pv s [] = fieldsOf true s).
Proof.
  induction s as [|a s [IHA IHB]].
  - split; intros; simpl; rewrite ?app_nil_r; reflexivity.
  - assert (A : forall pv cur, split_from re_separators 0 pv (a :: s) cur
                  = prependHead (rev cur) (fieldsOf false (a :: s))).
    { intros pv cur. cbn [split_from fieldsOf]. destruct (spaceOrDot a) eqn:Ha.
      - destruct (@m_separators_hit pv a s Ha) as (st & l & E & Hn). rewrite E, Hn.
        rewrite IHB. simpl. rewrite app_nil_r. reflexivity.
      - rewrite m_separators_miss by exact Ha. rewrite IHA.
        destruct (fieldsOf false s) as [|t ts]; simpl; rewrite <- ?app_assoc; reflexivity. }
    split; [exact A|].
    intros pv. cbn [runLength fieldsOf]. destruct (spaceOrDot a) eqn:Ha.
    + cbn [split_from]. apply IHB.
    + rewrite A. cbn [fieldsOf]. rewrite Ha. simpl.
      destruct (fieldsOf false s) as [|t ts]; reflexivity.
Qed.

Lemma fieldsOf_nonempty i s : fieldsOf i s <> [].
Proof.
  revert i. induction s as [|a s IH]; intros i; simpl; [discriminate|].
  destruct (spaceOrDot a); [destruct i; [apply IH | discriminate]|].
  destruct (fieldsOf false s); discriminate.
Qed.

(** [split (/[\s.]+/)] cuts at the maximal runs of separators. *)
Lemma split_spec s : split re_separators s = fieldsOf false s.
Proof.
  destruct s as [|a s].
  - unfold split. rewrite m_separators_miss by exact I. reflexivity.
  - unfold split. rewrite (proj1 (split_fields (a :: s))). simpl rev.
    destruct (fieldsOf false (a :: s)) eqn:E; [|reflexivity].
    exfalso. eapply fieldsOf_nonempty, E.
Qed.

Lemma join_cons_nonempty sep x l : l <> [] -> join sep (x :: l) = x ++ sep ++ join sep l.
Proof. destruct l; [congruence|reflexivity]. Qed.

Lemma join_consHead sep a x l : join sep ((a :: x) :: l) = a :: join sep (x :: l).
Proof. destruct l; reflexivity. Qed.

Lemma caseHead_true l : caseHead true l = map titleCaseA l.
Proof. destruct l; reflexivity. Qed.

Lemma map_nonempty {A B} (f : A -> B) l : l <> [] -> map f l <> [].
Proof. destruct l; [congruence|discriminate]. Qed.

Lemma spaceOrDot_dot a : spaceOrDot a = false -> ascii_eqb a "." = false.
Proof. unfold spaceOrDot. intros H. apply orb_false_elim in H. tauto. Qed.

(** Title-casing the pieces and joining them with dots is [recase] after
    [squash]. *)
Lemma join_fields : forall s start insep,
  join (lit ".") (caseHead start (fieldsOf insep s)) = recase start (squash insep s).
Proof.
  induction s as [|a s IH]; intros start insep.
  - destruct start; reflexivity.
  - cbn [fieldsOf squash]. destruct (spaceOrDot a) eqn:Ha.
    + destruct insep; [apply IH|].
      cbn [caseHead recase]. rewrite ascii_eqb_refl.
      replace (if start then titleCaseA [] else low []) with (@nil ascii)
        by (destruct start; reflexivity).
      rewrite join_cons_nonempty by apply map_nonempty, fieldsOf_nonempty.
      rewrite <- caseHead_true, IH. reflexivity.
    + cbn [recase]. rewrite (spaceOrDot_dot _ Ha).
      destruct (fieldsOf false s) as [|t ts] eqn:E; [exfalso; eapply fieldsOf_nonempty, E|].
      cbn [consHead caseHead]. rewrite <- (IH false false), E. cbn [caseHead].
      destruct start; cbn [titleCaseA low map]; rewrite join_consHead; reflexivity.
Qed.

Ltac all_chars a := destruct a as [[] [] [] [] [] [] [] []]; vm_compute; reflexivity.

Ltac ascii_chars a H :=
  destruct a as [[] [] [] [] [] [] [] []]; vm_compute in H |- *;
  solve [reflexivity | discriminate].

(** In the ASCII range [toLowerCase] and [toUpperCase] change the case of
    the letters A to Z, one code unit for one. *)
Lemma lowerUnit_ascii c : asciiUnit c = true -> lowerUnit c = toLower c.
Proof. intros H. ascii_chars c H. Qed.

Lemma upperUnit_ascii c : asciiUnit c = true -> upperUnit c = [toUpper c].
Proof. intros H. ascii_chars c H. Qed.

Lemma toLowerCase_ascii s : isAscii s = true -> toLowerCase s = low s.
Proof.
  induction s as [|a s IH]; [reflexivity|]. cbn [isAscii forallb].
  intros H. apply andb_prop in H as [Ha Hs]. cbn [toLowerCase low map].
  rewrite (lowerUnit_ascii _ Ha). f_equal. apply IH, Hs.
Qed.

Lemma titleCase_ascii w : isAscii w = true -> titleCase w = titleCaseA w.
Proof.
  destruct w as [|c w]; [reflexivity|]. cbn [isAscii forallb].
  intros H. apply andb_prop in H as [Hc Hw]. cbn [titleCase titleCaseA toUpperCase flat_map].
  rewrite (upperUnit_ascii _ Hc), (toLowerCase_ascii _ Hw). reflexivity.
Qed.

Lemma isAscii_app x y : isAscii (x ++ y) = isAscii x && isAscii y.
Proof. apply forallb_app. Qed.

Lemma isAscii_rev s : isAscii (rev s) = isAscii s.
Proof.
  induction s as [|a s IH]; [reflexivity|]. cbn [rev]. rewrite isAscii_app, IH.
  cbn [isAscii forallb]. rewrite andb_true_r. apply andb_comm.
Qed.

Lemma isAscii_dropWhile p s : isAscii s = true -> isAscii (dropWhile p s) = true.
Proof.
  induction s as [|a s IH]; [reflexivity|]. intros H. cbn [dropWhile].
  destruct (p a); [|exact H]. apply IH. cbn [isAscii forallb] in H.
  apply andb_prop in H. tauto.
Qed.

Lemma isAscii_trimStart s : isAscii s = true -> isAscii (trimStart s) = true.
Proof.
  induction s as [|a s IH]; [reflexivity|]. intros H. cbn [trimStart].
  destruct (isSpace a); [|exact H]. apply IH. cbn [isAscii forallb] in H.
  apply andb_prop in H. tauto.
Qed.

Lemma isAscii_trim s : isAscii s = true -> isAscii (trim s) = true.
Proof.
  intros H. unfold trim, trimEnd. rewrite isAscii_rev. apply isAscii_trimStart.
  rewrite isAscii_rev. apply isAscii_trimStart, H.
Qed.

Lemma isAscii_consHead a l :
  asciiUnit a = true -> Forall (fun t => isAscii t = true) l ->
  Forall (fun t => isAscii t = true) (consHead a l).
Proof.
  intros Ha Hl. destruct Hl as [|t ts Ht Hts]; cbn [consHead].
  - repeat constructor. cbn [isAscii forallb]. rewrite Ha. reflexivity.
  - constructor; [|exact Hts]. cbn [isAscii forallb]. rewrite Ha. exact Ht.
Qed.

Lemma fieldsOf_ascii : forall s i,
  isAscii s = true -> Forall (fun t => isAscii t = true) (fieldsOf i s).
Proof.
  induction s as [|a s IH]; intros i H; cbn [fieldsOf].
  - repeat constructor.
  - cbn [isAscii forallb] in H. apply andb_prop in H as [Ha Hs].
    destruct (spaceOrDot a).
    + destruct i; [apply IH, Hs|]. constructor; [reflexivity | apply IH, Hs].
    + apply isAscii_consHead; [exact Ha | apply IH, Hs].
Qed.

Lemma map_titleCase_ascii l :
  Forall (fun t => isAscii t = true) l -> map titleCase l = map titleCaseA l.
Proof.
  induction 1 as [|t ts Ht _ IH]; [reflexivity|]. cbn [map].
  rewrite (titleCase_ascii _ Ht), IH. reflexivity.
Qed.

(** The middle step of [normalizeBrand] (lines 184 to 187), on a text of
    the ASCII range. *)
Lemma brand_join s :
  isAscii s = true ->
  join (lit ".") (map titleCase (split re_separators s)) = recase true (squash false s).
Proof.
  intros H. rewrite split_spec, (map_titleCase_ascii (fieldsOf_ascii s false H)).
  rewrite <- caseHead_true. apply join_fields.
Qed.

Lemma toLower_idem a : toLower (toLower a) = toLower a.
Proof. all_chars a. Qed.
Lemma toUpper_toLower a : toUpper (toLower a) = toUpper a.
Proof. all_chars a. Qed.
Lemma spaceOrDot_toLower a : spaceOrDot (toLower a) = spaceOrDot a.
Proof. all_chars a. Qed.
Lemma isSpace_toLower a : isSpace (toLower a) = isSpace a.
Proof. all_chars a. Qed.
Lemma isDot_toLower a : ascii_eqb (toLower a) "." = ascii_eqb a ".".
Proof. all_chars a. Qed.
Lemma isUnderscore_toLower a : isUnderscore (toLower a) = isUnderscore a.
Proof. all_chars a. Qed.

Lemma squash_low : forall s i, squash i (low s) = low (squash i s).
Proof.
  induction s as [|a s IH]; intros i; [reflexivity|].
  cbn [low map squash]. rewrite spaceOrDot_toLower.
  destruct (spaceOrDot a); [destruct i|]; cbn [low map]; unfold low in IH;
    rewrite ?IH; reflexivity.
Qed.

Lemma recase_low : forall s st, recase st (low s) = recase st s.
Proof.
  induction s as [|a s IH]; intros st; [reflexivity|].
  cbn [low map recase]. rewrite isDot_toLower. unfold low in IH.
  destruct (ascii_eqb a ".") eqn:Hd.
  - apply ascii_eqb_eq in Hd. subst a. rewrite IH. reflexivity.
  - rewrite IH, toUpper_toLower, toLower_idem. reflexivity.
Qed.



(** The middle step does not depend on the case of its input. *)
Lemma rejoin_low x y :
  low x = low y ->
  recase true (squash false x) = recase true (squash false y).
Proof.
  intros H. rewrite <- (recase_low (squash false x)), <- (recase_low (squash false y)).
  rewrite <- !squash_low, H. reflexivity.
Qed.

(** What a successful search returns: a position of the input and a state
    listed by the matcher there. *)
Lemma search_found r : forall s pv f,
  search r pv s = Some f ->
  exists pre, s = pre ++ from f
              /\ In (final f) (m r (MState [] (lastOr pv pre) (from f))).
Proof.
  induction s as [|a s IH]; intros pv f; simpl.
  - destruct (m r (MState [] pv [])) as [|st l] eqn:E; [discriminate|].
    intros H. injection H as <-. exists []. simpl. rewrite E. auto with datatypes.
  - destruct (m r (MState [] pv (a :: s))) as [|st l] eqn:E.
    + intros H. apply IH in H as (pre & Hs & Hin). exists (a :: pre). simpl.
      rewrite <- Hs. auto.
    + intros H. injection H as <-. exists []. simpl. rewrite E. auto with datatypes.
Qed.

Lemma firstn_prefix {A} (pre suf : list A) :
  firstn (length (pre ++ suf) - length suf) (pre ++ suf) = pre.
Proof.
  rewrite length_app. replace (length pre + length suf - length suf)%nat with (length pre) by lia.
  rewrite firstn_app, Nat.sub_diag, firstn_all. simpl. apply app_nil_r.
Qed.

(** A replacement by a constant either leaves the input as it is or
    swaps the text of a match for the constant. *)
Lemma replace1_const r t s :
  replace1 r (fun _ => t) s = s
  \/ exists pre suf pv pv' s',
       s = pre ++ suf /\ den r pv suf pv' s' /\ replace1 r (fun _ => t) s = pre ++ t ++ s'.
Proof.
  unfold replace1. destruct (search r None s) as [f|] eqn:E; [|left; reflexivity].
  right. apply search_found in E as (pre & Hs & Hin).
  exists pre, (from f), (lastOr None pre), (prev (final f)), (rest (final f)).
  split; [exact Hs|]. split.
  - apply (m_den r (MState [] (lastOr None pre) (from f))). exists (final f). auto.
  - rewrite Hs at 1 2. rewrite firstn_prefix. reflexivity.
Qed.




Lemma search_bol_none r : forall s a, search (Cat Bol r) (Some a) s = None.
Proof.
  induction s as [|b s IH]; intros a; simpl; [reflexivity|]. apply IH.
Qed.

Lemma dropWhile_head_false p s :
  match s with a :: _ => p a = false | [] => True end -> dropWhile p s = s.
Proof. destruct s as [|a s]; simpl; [reflexivity|]. intros ->. reflexivity. Qed.

(** [replace (/^_+/, '')] removes the leading underscores. *)
Lemma strip_spec s :
  replace1 re_leadingUnderscores noText s = dropWhile isUnderscore s.
Proof.
  unfold replace1, re_leadingUnderscores, plus. destruct s as [|a s].
  - reflexivity.
  - cbn [search m prev flat_map caps rest]. rewrite app_nil_r.
    destruct (isUnderscore a) eqn:Ha.
    + destruct (@runs_longest isUnderscore [] (a :: s) None 1%nat) as (pv' & l & E).
      { simpl. rewrite Ha. lia. }
      rewrite E. cbn [from final rest]. rewrite Nat.sub_diag. reflexivity.
    + rewrite runs_short by (simpl; rewrite Ha; lia). cbn [rev].
      rewrite search_bol_none. simpl. rewrite Ha. reflexivity.
Qed.






Lemma spaceOrDot_space a : spaceOrDot a = false -> isSpace a = false.
Proof. unfold spaceOrDot. intros H. apply orb_false_elim in H. tauto. Qed.



Lemma dropWhile_head p s : headIs p (dropWhile p s) = false.
Proof.
  induction s as [|a s IH]; [reflexivity|]. simpl. destruct (p a) eqn:E; [exact IH|].
  simpl. exact E.
Qed.

Lemma dropWhile_id p s : headIs p s = false -> dropWhile p s = s.
Proof. destruct s as [|a s]; [reflexivity|]. simpl. intros ->. reflexivity. Qed.







(** [normalizeBrand] on a non-empty string of the ASCII range, without
    expressions. *)
Lemma normalizeBrand_eq a s :
  isAscii (a :: s) = true ->
  normalizeBrand (Some (a :: s))
  = fixSuffixes (recase true (squash false (dropWhile isUnderscore (trim (a :: s))))).
Proof.
  intros H. unfold normalizeBrand, fixSuffixes. rewrite strip_spec, brand_join; [reflexivity|].
  apply isAscii_dropWhile, isAscii_trim, H.
Qed.




(** An empty label is always turned into "Unknown" by a second
    normalization. *)
Lemma normalizeBrand_empty_label (name : option str) :
  normalizeBrand name = [] ->
  normalizeBrand (Some (normalizeBrand name)) = lit "Unknown".
Proof. intros ->. reflexivity. Qed.



(** ** Month-and-time phrases *)

Unset Implicit Arguments.

(** Every code unit is listed. *)
Lemma in_allAscii c : In c allAscii.
Proof.
  unfold allAscii. rewrite <- (ascii_nat_embedding c). apply in_map, in_seq.
  pose proof (nat_ascii_bounded c). lia.
Qed.

Lemma classInv_spec p : classInv p = true -> forall c, p (abs c) = p c.
Proof.
  unfold classInv. rewrite forallb_forall. intros H c.
  apply eqb_prop, H, in_allAscii.
Qed.

Lemma isWord_abs c : isWord (abs c) = isWord c.
Proof. apply (classInv_spec isWord). vm_compute. reflexivity. Qed.

Lemma runs_abs p (Hp : forall c, p (abs c) = p c) : forall s lo hi c pv,
  runs p lo hi c (option_map abs pv) (map abs s) = map absState (runs p lo hi c pv s).
Proof.
  induction s as [|a s IH]; intros lo hi c pv.
  - simpl. destruct (lo =? 0)%nat, hi as [[|h]|]; reflexivity.
  - cbn [runs map]. rewrite map_app, Hp.
    replace (if (lo =? 0)%nat then [MState c (option_map abs pv) (abs a :: map abs s)] else [])
      with (map absState (if (lo =? 0)%nat then [MState c pv (a :: s)] else []))
      by (destruct (lo =? 0)%nat; reflexivity).
    f_equal. destruct hi as [[|h]|]; try reflexivity;
      (destruct (p a); [|reflexivity]); apply (IH _ _ c (Some a)).
Qed.

Lemma wordAt_abs o : wordAt (option_map abs o) = wordAt o.
Proof. destruct o; simpl; [apply isWord_abs|reflexivity]. Qed.

Lemma flat_map_commute {A B} (h : A -> B) (f : A -> list A) (g : B -> list B) (l : list A) :
  (forall x, g (h x) = map h (f x)) -> flat_map g (map h l) = map h (flat_map f l).
Proof.
  intros H. induction l as [|x l IH]; [reflexivity|].
  simpl. rewrite map_app, H, IH. reflexivity.
Qed.

(** The matcher commutes with the abstraction of the input when the
    classes of the expression are invariant: it lists the same states, with
    the same captures. *)
Lemma m_abs r : regexInv r = true -> forall st, m r (absState st) = map absState (m r st).
Proof.
  induction r as [|p|r1 IH1 r2 IH2|r1 IH1 r2 IH2|g lo hi p|r1 IH1|i r1 IH1| | |];
    cbn [regexInv]; intros Hr st.
  - reflexivity.
  - cbn [m absState rest caps prev]. destruct (rest st) as [|a s]; [reflexivity|].
    cbn [map]. rewrite (classInv_spec p Hr). destruct (p a); reflexivity.
  - apply andb_prop in Hr as [H1 H2]. cbn [m]. rewrite (IH1 H1).
    apply flat_map_commute. intros x. apply (IH2 H2).
  - apply andb_prop in Hr as [H1 H2]. cbn [m]. rewrite (IH1 H1), (IH2 H2), map_app.
    reflexivity.
  - cbn [m absState rest caps prev]. rewrite (runs_abs p (classInv_spec p Hr)).
    destruct g; [rewrite map_rev|]; reflexivity.
  - cbn [m]. rewrite (IH1 Hr), map_app. reflexivity.
  - cbn [m]. rewrite (IH1 Hr), !map_map. apply map_ext. intros x.
    unfold setcap, absState. cbn [rest caps prev]. rewrite !length_map. reflexivity.
  - cbn [m absState prev]. destruct (prev st); reflexivity.
  - cbn [m absState rest]. destruct (rest st); reflexivity.
  - cbn [m absState rest prev]. rewrite wordAt_abs.
    replace (hd_error (map abs (rest st))) with (option_map abs (hd_error (rest st)))
      by (destruct (rest st); reflexivity).
    rewrite wordAt_abs. destruct (xorb _ _); reflexivity.
Qed.

(** Hence searches find the same matches in a text and in its
    abstraction. *)
Lemma search_abs r (Hr : regexInv r = true) : forall s pv,
  search r (option_map abs pv) (map abs s) = option_map absFound (search r pv s).
Proof.
  induction s as [|a s IH]; intros pv; cbn [search map].
  - change (MState [] (option_map abs pv) []) with (absState (MState [] pv [])).
    rewrite (m_abs r Hr). destruct (m r (MState [] pv [])); reflexivity.
  - change (MState [] (option_map abs pv) (abs a :: map abs s))
      with (absState (MState [] pv (a :: s))).
    rewrite (m_abs r Hr). destruct (m r (MState [] pv (a :: s))); [|reflexivity].
    apply (IH (Some a)).
Qed.



Lemma search_abs_start r s :
  regexInv r = true -> search r None (map abs s) = option_map absFound (search r None s).
Proof. intros Hr. apply (search_abs r Hr s None). Qed.

Lemma isSpace_abs c : isSpace (abs c) = isSpace c.
Proof. apply (classInv_spec isSpace). vm_compute. reflexivity. Qed.

Lemma headIs_space_abs s : headIs isSpace (map abs s) = headIs isSpace s.
Proof. destruct s; [reflexivity|]. simpl. apply isSpace_abs. Qed.

Lemma quiet_abs r s : regexInv r = true -> quiet r (map abs s) = quiet r s.
Proof.
  intros Hr. unfold quiet. rewrite (search_abs_start r s Hr).
  destruct (search r None s); reflexivity.
Qed.





Lemma abs_digit c : isDigit c = true -> abs c = "0"%char.
Proof. unfold abs. intros ->. reflexivity. Qed.

Lemma abs_digits x : allDigits x = true -> map abs x = repeat "0"%char (length x).
Proof.
  unfold allDigits. induction x as [|c x IH]; [reflexivity|]. simpl. intros H.
  apply andb_prop in H as [Hc Hx]. rewrite (abs_digit c Hc), (IH Hx). reflexivity.
Qed.









Lemma digitsN_shape n x : digitsN n x -> map abs x = repeat "0"%char n.
Proof. intros [Hl Hd]. rewrite (abs_digits x Hd), Hl. reflexivity. Qed.






(** No match, nothing replaced. *)
Lemma replaceAll_quiet r repl : forall s pv,
  search r pv s = None -> replaceAll_from r repl 0 pv s = s.
Proof.
  induction s as [|a s IH]; intros pv; cbn [search replaceAll_from].
  - destruct (m r (MState [] pv [])); [reflexivity|discriminate].
  - destruct (m r (MState [] pv (a :: s))); [|discriminate].
    intros H. rewrite (IH (Some a) H). reflexivity.
Qed.

Lemma quiet_replaceAll r repl s : quiet r s = true -> replaceAll r repl s = s.
Proof.
  unfold quiet, replaceAll. destruct (search r None s) eqn:E; [discriminate|].
  intros _. apply replaceAll_quiet, E.
Qed.

Lemma quiet_replace1 r repl s : quiet r s = true -> replace1 r repl s = s.
Proof.
  unfold quiet, replace1. destruct (search r None s); [discriminate|reflexivity].
Qed.

Lemma trimStart_head s : headIs isSpace s = false -> trimStart s = s.
Proof. destruct s as [|a s]; [reflexivity|]. simpl. intros ->. reflexivity. Qed.

Lemma trim_heads s :
  headIs isSpace s = false -> headIs isSpace (rev s) = false -> trim s = s.
Proof.
  intros H1 H2. unfold trim, trimEnd. rewrite (trimStart_head s H1), (trimStart_head _ H2).
  apply rev_involutive.
Qed.

(** The clean-up leaves a text without noise as it is. *)
Lemma cleanup_quiet s :
  headIs isSpace s = false -> headIs isSpace (rev s) = false ->
  quiet re_ordinal s = true -> quiet re_fromIP s = true ->
  quiet re_labels s = true -> quiet re_gmt s = true ->
  cleanupDisplay s = s.
Proof.
  intros H1 H2 Ho Hf Hl Hg. unfold cleanupDisplay.
  rewrite (trim_heads s H1 H2), (quiet_replaceAll _ _ s Ho), (quiet_replace1 _ _ s Hf),
    (quiet_replaceAll _ _ s Hl), (quiet_replace1 _ _ s Hg).
  apply (trim_heads s H1 H2).
Qed.














(** ** The calendar, counted from March *)

(** The day number of a date given by its year counted from March and
    its month counted from March. *)
Lemma daysFromCivil_march yy mp d :
  0 <= mp <= 11 ->
  daysFromCivil (if mp <? 10 then yy else yy + 1) (if mp <? 10 then mp + 3 else mp - 9) d
  = yy / 400 * 146097 + (yy - yy / 400 * 400) * 365 + (yy - yy / 400 * 400) / 4
    - (yy - yy / 400 * 400) / 100 + (153 * mp + 2) / 5 + d - 1 - 719468.
Proof.
  intros H. unfold daysFromCivil. cbv zeta.
  destruct (Z.ltb_spec mp 10).
  - replace (mp + 3 <=? 2) with false by (symmetry; apply Z.leb_gt; lia).
    replace (2 <? mp + 3) with true by (symmetry; apply Z.ltb_lt; lia).
    replace (mp + 3 - 3) with mp by lia. lia.
  - replace (mp - 9 <=? 2) with true by (symmetry; apply Z.leb_le; lia).
    replace (2 <? mp - 9) with false by (symmetry; apply Z.ltb_ge; lia).
    replace (mp - 9 + 9) with mp by lia.
    replace (yy + 1 - 1) with yy by lia. lia.
Qed.

Lemma civil_march z :
  exists yy mp doy,
    0 <= mp <= 11 /\ 153 * mp <= 5 * doy + 2 < 153 * mp + 153
    /\ 0 <= doy <= 365
    /\ (doy = 365 -> (yy + 1) mod 4 = 0 /\ ((yy + 1) mod 100 <> 0 \/ (yy + 1) mod 400 = 0))
    /\ civilFromDays z
       = ((if mp <? 10 then yy else yy + 1), (if mp <? 10 then mp + 3 else mp - 9),
          doy - (153 * mp + 2) / 5 + 1).
Proof.
  unfold civilFromDays. cbv zeta.
  set (z' := z + 719468).
  set (era := z' / 146097).
  set (doe := z' - era * 146097).
  assert (Hdoe : 0 <= doe < 146097) by (subst doe era; Z.div_mod_to_equations; lia).
  set (yoe := (doe - doe / 1460 + doe / 36524 - doe / 146096) / 365).
  assert (Hyoe : 0 <= yoe <= 399) by (subst yoe; Z.div_mod_to_equations; lia).
  set (doy := doe - (365 * yoe + yoe / 4 - yoe / 100)).
  assert (Hdoy : 0 <= doy <= 365) by (subst doy yoe; Z.div_mod_to_equations; lia).
  assert (Hleap : doy = 365 -> (yoe + 1) mod 4 = 0 /\ ((yoe + 1) mod 100 <> 0 \/ yoe = 399)).
  { subst doy yoe. Z.div_mod_to_equations. lia. }
  clearbody doy yoe era. clear Hdoe doe z' z.
  set (mp := (5 * doy + 2) / 153).
  assert (Hmp : 0 <= mp <= 11) by (subst mp; Z.div_mod_to_equations; lia).
  assert (Hd : 153 * mp <= 5 * doy + 2 < 153 * mp + 153)
    by (subst mp; Z.div_mod_to_equations; lia).
  clearbody mp.
  exists (yoe + era * 400), mp, doy.
  split; [exact Hmp|]. split; [exact Hd|]. split; [exact Hdoy|]. split.
  - intros E. specialize (Hleap E). Z.div_mod_to_equations. lia.
  - f_equal. f_equal. destruct (Z.ltb_spec mp 10).
    + replace (mp + 3 <=? 2) with false by (symmetry; apply Z.leb_gt; lia). reflexivity.
    + replace (mp - 9 <=? 2) with true by (symmetry; apply Z.leb_le; lia). reflexivity.
Qed.

(** The month after the month [mp] of the year [yy], both counted from
    March. *)
Lemma next_month_march yy mp :
  0 <= mp <= 11 ->
  let y := if mp <? 10 then yy else yy + 1 in
  let mo := if mp <? 10 then mp + 3 else mp - 9 in
  let yy' := if mp <? 11 then yy else yy + 1 in
  let mp' := if mp <? 11 then mp + 1 else 0 in
  y + mo / 12 = (if mp' <? 10 then yy' else yy' + 1)
  /\ mo mod 12 + 1 = (if mp' <? 10 then mp' + 3 else mp' - 9)
  /\ 0 <= mp' <= 11.
Proof.
  intros H. cbv zeta.
  assert (E : mp <= 8 \/ mp = 9 \/ mp = 10 \/ mp = 11) by lia.
  destruct E as [E | [-> | [-> | ->]]]; [|cbn; lia..].
  replace (mp <? 10) with true by (symmetry; apply Z.ltb_lt; lia).
  replace (mp <? 11) with true by (symmetry; apply Z.ltb_lt; lia).
  replace (mp + 1 <? 10) with true by (symmetry; apply Z.ltb_lt; lia).
  repeat split; try lia; Z.div_mod_to_equations; lia.
Qed.

(** The day of the month of a day number is within the month. *)
Lemma civil_day_in_month z :
  snd (civilFromDays z)
  <= DaysInMonth (fst (fst (civilFromDays z))) (snd (fst (civilFromDays z))).
Proof.
  destruct (civil_march z) as (yy & mp & doy & Hmp & Hd & Hdoy & Hleap & ->).
  cbn [fst snd]. unfold DaysInMonth.
  destruct (next_month_march yy mp Hmp) as (-> & -> & Hmp').
  rewrite !daysFromCivil_march by assumption.
  destruct (Z.ltb_spec mp 11).
  - Z.div_mod_to_equations. lia.
  - assert (mp = 11) by lia. subst mp. Z.div_mod_to_equations. lia.
Qed.

Lemma marchDays_mono a b : a <= b -> marchDays a + 365 * (b - a) <= marchDays b.
Proof. intros H. unfold marchDays. Z.div_mod_to_equations. lia. Qed.

Lemma marchDays_leap yy :
  (yy + 1) mod 4 = 0 /\ ((yy + 1) mod 100 <> 0 \/ (yy + 1) mod 400 = 0) ->
  marchDays (yy + 1) = marchDays yy + 366.
Proof. intros H. unfold marchDays. Z.div_mod_to_equations. lia. Qed.

Lemma civil_days z :
  exists yy mp doy,
    0 <= mp <= 11 /\ 153 * mp <= 5 * doy + 2 < 153 * mp + 153
    /\ 0 <= doy /\ doy < marchDays (yy + 1) - marchDays yy
    /\ z = marchDays yy + doy - 719468
    /\ civilFromDays z
       = ((if mp <? 10 then yy else yy + 1), (if mp <? 10 then mp + 3 else mp - 9),
          doy - (153 * mp + 2) / 5 + 1).
Proof.
  destruct (civil_march z) as (yy & mp & doy & Hmp & Hd & Hdoy & Hleap & E).
  exists yy, mp, doy. repeat (split; [assumption || lia|]).
  pose proof (civil_roundtrip z) as R. rewrite E in R. cbn [fst snd] in R.
  rewrite daysFromCivil_march in R by assumption. fold (marchDays yy) in R.
  split; [|split; [lia | exact E]].
  destruct (Z.eq_dec doy 365) as [E5|N5].
  - rewrite (marchDays_leap yy (Hleap E5)). lia.
  - pose proof (marchDays_mono yy (yy + 1) ltac:(lia)). lia.
Qed.

(** Later day numbers have later civil dates. *)
Lemma civil_mono z1 z2 : z1 < z2 -> lex3 (civilFromDays z1) (civilFromDays z2).
Proof.
  intros Hlt.
  destruct (civil_days z1) as (yy1 & mp1 & doy1 & Hmp1 & Hd1 & Hdoy1 & Hlen1 & Ez1 & ->).
  destruct (civil_days z2) as (yy2 & mp2 & doy2 & Hmp2 & Hd2 & Hdoy2 & Hlen2 & Ez2 & ->).
  unfold lex3. cbn [fst snd].
  assert (Hy : yy1 < yy2 \/ (yy1 = yy2 /\ doy1 < doy2)).
  { destruct (Z.lt_trichotomy yy1 yy2) as [H | [H | H]]; [left; exact H | right; subst yy2; lia |].
    pose proof (marchDays_mono (yy2 + 1) yy1 ltac:(lia)). lia. }
  set (q1 := (153 * mp1 + 2) / 5). set (q2 := (153 * mp2 + 2) / 5).
  assert (Hq : mp1 < mp2 \/ (mp1 = mp2 /\ q1 = q2) \/ mp2 < mp1).
  { destruct (Z.lt_trichotomy mp1 mp2) as [H | [H | H]]; [lia | | lia].
    right; left. subst q1 q2. rewrite H. split; reflexivity. }
  clearbody q1 q2.
  destruct (Z.ltb_spec mp1 10), (Z.ltb_spec mp2 10); lia.
Qed.

(** ** Decimal text read back, and the keys of a day *)

Lemma digitVal_digitChar k : 0 <= k <= 9 -> digitVal (digitChar k) = k.
Proof.
  intros H.
  assert (E : k = 0 \/ k = 1 \/ k = 2 \/ k = 3 \/ k = 4 \/ k = 5 \/ k = 6 \/ k = 7
              \/ k = 8 \/ k = 9) by lia.
  repeat (destruct E as [-> | E]; [reflexivity|]). subst k. reflexivity.
Qed.

Lemma isDigit_val c : isDigit c = true -> 0 <= digitVal c <= 9.
Proof.
  unfold isDigit, between, digitVal. intros H. apply andb_prop in H as [H1 H2].
  apply N.leb_le in H1, H2. lia.
Qed.

Lemma digitChar_digitVal c : isDigit c = true -> digitChar (digitVal c) = c.
Proof.
  intros H. unfold digitChar, digitVal.
  replace (Z.to_N (Z.of_N (code c) - 48 + 48)) with (code c) by lia.
  apply ascii_N_embedding.
Qed.

Lemma Number_snoc p c : Number (p ++ [c]) = 10 * Number p + digitVal c.
Proof. unfold Number. rewrite fold_left_app. reflexivity. Qed.

Lemma Number_from acc s :
  fold_left (fun a c => 10 * a + digitVal c) s acc
  = acc * 10 ^ Z.of_nat (length s) + Number s.
Proof.
  unfold Number. revert acc. induction s as [|c s IH]; intros acc.
  - simpl. lia.
  - cbn [fold_left length]. rewrite IH, (IH (10 * 0 + digitVal c)).
    replace (Z.of_nat (S (length s))) with (Z.succ (Z.of_nat (length s))) by lia.
    rewrite Z.pow_succ_r by lia. lia.
Qed.

Lemma Number_cons c s : Number (c :: s) = digitVal c * 10 ^ Z.of_nat (length s) + Number s.
Proof. unfold Number at 1. cbn [fold_left]. rewrite Number_from. lia. Qed.

Lemma Number_bounds s : allDigits s = true -> 0 <= Number s < 10 ^ Z.of_nat (length s).
Proof.
  induction s as [|c s IH]; intros H.
  - cbn. lia.
  - unfold allDigits in H. cbn [forallb] in H. apply andb_prop in H as [Hc Hs].
    specialize (IH Hs). apply isDigit_val in Hc. rewrite Number_cons.
    replace (Z.of_nat (length (c :: s))) with (Z.succ (Z.of_nat (length s)))
      by (cbn [length]; lia).
    rewrite Z.pow_succ_r by lia. nia.
Qed.

(** The digits that [digitsOf] writes are those of the number. *)
Lemma digitsOf_value : forall fuel n acc,
  0 <= n < 2 ^ Z.of_nat fuel ->
  exists p, digitsOf fuel n acc = p ++ acc /\ allDigits p = true /\ Number p = n
            /\ ((1 <= fuel)%nat -> p <> [])
            /\ (0 < n -> exists c p', p = c :: p' /\ c <> "0"%char).
Proof.
  induction fuel as [|f IH]; intros n acc Hn.
  - exists []. change (2 ^ Z.of_nat 0) with 1 in Hn.
    split; [reflexivity|]. split; [reflexivity|]. split; [cbn; lia|]. split; intros; lia.
  - cbn [digitsOf]. assert (Hm : 0 <= n mod 10 <= 9) by (Z.div_mod_to_equations; lia).
    replace (Z.of_nat (S f)) with (Z.succ (Z.of_nat f)) in Hn by lia.
    rewrite Z.pow_succ_r in Hn by lia.
    destruct (n / 10 =? 0) eqn:E.
    + apply Z.eqb_eq in E. exists [digitChar (n mod 10)]. unfold allDigits. cbn [forallb app].
      rewrite (@digitChar_digit _ Hm). repeat split; try discriminate.
      * unfold Number. cbn [fold_left]. rewrite (digitVal_digitChar _ Hm).
        Z.div_mod_to_equations. lia.
      * intros Hpos. exists (digitChar (n mod 10)), []. split; [reflexivity|].
        intros C. apply (f_equal digitVal) in C. rewrite (digitVal_digitChar _ Hm) in C.
        change (digitVal "0") with 0 in C. Z.div_mod_to_equations. lia.
    + apply Z.eqb_neq in E.
      destruct (IH (n / 10) (digitChar (n mod 10) :: acc)) as (p & Ep & Dp & Np & _ & Hp).
      { Z.div_mod_to_equations. lia. }
      exists (p ++ [digitChar (n mod 10)]). rewrite Ep, <- app_assoc. split; [reflexivity|].
      split; [|split; [|split]].
      * unfold allDigits in *. rewrite forallb_app, Dp. cbn [forallb].
        rewrite (@digitChar_digit _ Hm). reflexivity.
      * rewrite Number_snoc, Np, (digitVal_digitChar _ Hm). Z.div_mod_to_equations. lia.
      * intros _ C. apply app_eq_nil in C as [_ C]. discriminate.
      * intros _. destruct Hp as (c & p' & -> & Hc); [Z.div_mod_to_equations; lia|].
        exists c, (p' ++ [digitChar (n mod 10)]). split; [reflexivity | exact Hc].
Qed.

Lemma log2_fuel n : 0 <= n -> 0 <= n < 2 ^ Z.of_nat (S (Z.to_nat (Z.log2 n))).
Proof.
  intros H. split; [exact H|].
  replace (Z.of_nat (S (Z.to_nat (Z.log2 n)))) with (Z.succ (Z.log2 n))
    by (pose proof (Z.log2_nonneg n); lia).
  destruct (Z.eq_dec n 0) as [->|N]; [reflexivity|].
  apply Z.log2_spec. lia.
Qed.

(** The decimal text of a natural number: digits, at least one, without
    a leading zero unless the number is zero, and read back as that
    number. *)
Lemma NumberToString_digits n :
  0 <= n ->
  allDigits (NumberToString n) = true /\ Number (NumberToString n) = n
  /\ NumberToString n <> []
  /\ (0 < n -> exists c p, NumberToString n = c :: p /\ c <> "0"%char).
Proof.
  intros H. unfold NumberToString.
  replace (n <? 0) with false by (symmetry; apply Z.ltb_ge; lia).
  destruct (digitsOf_value (S (Z.to_nat (Z.log2 n))) n [] (log2_fuel n H))
    as (p & -> & Dp & Np & Hne & Hp).
  rewrite app_nil_r. repeat split; try assumption. apply Hne. lia.
Qed.

Lemma NumberToString_neg n :
  n < 0 -> NumberToString n = "-"%char :: NumberToString (- n).
Proof.
  intros H. unfold NumberToString.
  replace (n <? 0) with true by (symmetry; apply Z.ltb_lt; lia).
  replace (- n <? 0) with false by (symmetry; apply Z.ltb_ge; lia). reflexivity.
Qed.

Lemma digit_head_not_minus c s :
  allDigits (c :: s) = true -> c <> "-"%char.
Proof.
  unfold allDigits. cbn [forallb]. intros H C. subst c. discriminate.
Qed.

Lemma NumberToString_inj a b : NumberToString a = NumberToString b -> a = b.
Proof.
  intros E.
  assert (Hnn : forall x y, 0 <= x -> y < 0 -> NumberToString x <> NumberToString y).
  { intros x y Hx Hy C. rewrite (NumberToString_neg y Hy) in C.
    destruct (NumberToString_digits x Hx) as (D & _ & _ & _). rewrite C in D.
    exact (digit_head_not_minus _ _ D eq_refl). }
  destruct (Z.ltb_spec a 0) as [Ha|Ha], (Z.ltb_spec b 0) as [Hb|Hb].
  - rewrite (NumberToString_neg a Ha), (NumberToString_neg b Hb) in E. injection E as E.
    apply (f_equal Number) in E.
    destruct (NumberToString_digits (- a) ltac:(lia)) as (_ & Na & _).
    destruct (NumberToString_digits (- b) ltac:(lia)) as (_ & Nb & _). lia.
  - exfalso. exact (Hnn b a Hb Ha (eq_sym E)).
  - exfalso. exact (Hnn a b Ha Hb E).
  - apply (f_equal Number) in E.
    destruct (NumberToString_digits a Ha) as (_ & Na & _).
    destruct (NumberToString_digits b Hb) as (_ & Nb & _). lia.
Qed.

Lemma Number_zeros k s : Number (repeat "0"%char k ++ s) = Number s.
Proof.
  induction k as [|k IH]; [reflexivity|].
  cbn [repeat app]. unfold Number in *. cbn [fold_left]. exact IH.
Qed.

Lemma Number_padStart0 w s : Number (padStart0 w s) = Number s.
Proof. apply Number_zeros. Qed.

Lemma Number_pad2 n : 0 <= n -> Number (pad2 n) = n.
Proof.
  intros H. unfold pad2. rewrite Number_padStart0. apply NumberToString_digits, H.
Qed.

Lemma length_pad2 n : 0 <= n <= 99 -> length (pad2 n) = 2%nat.
Proof. intros H. apply (@padded2 _ H). Qed.

Lemma pad2_inj a b : 0 <= a <= 99 -> 0 <= b <= 99 -> pad2 a = pad2 b -> a = b.
Proof.
  intros Ha Hb E. apply (f_equal Number) in E. rewrite !Number_pad2 in E; lia.
Qed.

Lemma app_inv_same_length {A} (a1 a2 b1 b2 : list A) :
  a1 ++ b1 = a2 ++ b2 -> length b1 = length b2 -> a1 = a2 /\ b1 = b2.
Proof.
  intros E L.
  assert (La : length a1 = length a2).
  { apply (f_equal (@length A)) in E. rewrite !length_app in E. lia. }
  revert a2 E La. induction a1 as [|x a1 IH]; intros [|y a2] E La; try discriminate.
  - auto.
  - cbn in E. injection E as -> E. injection La as La.
    destruct (IH _ E La) as [-> ->]. auto.
Qed.

(** The text [y-mm-dd] determines its three fields. *)
Lemma ymd_text_inj y1 m1 d1 y2 m2 d2 :
  0 <= m1 <= 99 -> 0 <= d1 <= 99 -> 0 <= m2 <= 99 -> 0 <= d2 <= 99 ->
  NumberToString y1 ++ lit "-" ++ pad2 m1 ++ lit "-" ++ pad2 d1
  = NumberToString y2 ++ lit "-" ++ pad2 m2 ++ lit "-" ++ pad2 d2 ->
  y1 = y2 /\ m1 = m2 /\ d1 = d2.
Proof.
  intros Hm1 Hd1 Hm2 Hd2 E.
  apply app_inv_same_length in E as [Ey E].
  2:{ rewrite !length_app, !length_pad2 by assumption. reflexivity. }
  apply NumberToString_inj in Ey.
  cbn [lit list_ascii_of_string app] in E. injection E as E.
  apply app_inv_same_length in E as [Em E].
  2:{ cbn [length]. rewrite !length_pad2 by assumption. reflexivity. }
  injection E as E.
  split; [exact Ey|]. split; eapply pad2_inj; eassumption.
Qed.

Lemma civil_inj z1 z2 : civilFromDays z1 = civilFromDays z2 -> z1 = z2.
Proof.
  intros E. rewrite <- (civil_roundtrip z1), <- (civil_roundtrip z2), E. reflexivity.
Qed.

Lemma dateKeyUTC_same_day d1 d2 : dateKeyUTC d1 = dateKeyUTC d2 <-> Day d1 = Day d2.
Proof.
  unfold dateKeyUTC, getUTCFullYear, getUTCMonth, getUTCDate, YearFromTime, MonthFromTime,
    DateFromTime.
  split.
  - intros E.
    destruct (civil_ranges (Day d1)) as [Hm1 Hd1], (civil_ranges (Day d2)) as [Hm2 Hd2].
    apply ymd_text_inj in E as (Ey & Em & Ed); try lia.
    apply civil_inj. destruct (civilFromDays (Day d1)) as [[y1 m1] dd1].
    destruct (civilFromDays (Day d2)) as [[y2 m2] dd2]. cbn [fst snd] in *.
    f_equal; [f_equal|]; lia.
  - intros ->. reflexivity.
Qed.

Lemma dateKey_same_day rt d1 d2 :
  dateKey rt d1 = dateKey rt d2 <-> Day (LocalTime rt d1) = Day (LocalTime rt d2).
Proof. apply (dateKeyUTC_same_day (LocalTime rt d1) (LocalTime rt d2)). Qed.

Lemma digit_not_sign a : isDigit a = true -> ascii_eqb a "+" = false /\ ascii_eqb a "-" = false.
Proof.
  intros H. split.
  - destruct (ascii_eqb a "+") eqn:E; [|reflexivity]. apply ascii_eqb_eq in E. subst a. discriminate.
  - destruct (ascii_eqb a "-") eqn:E; [|reflexivity]. apply ascii_eqb_eq in E. subst a. discriminate.
Qed.

(** ** [toISOString] read back by the ISO parser *)

Lemma digitsN_3 x : digitsN 3 x -> exists a b c, x = [a; b; c] /\ allDigits x = true.
Proof.
  intros [Hl Hd]. destruct x as [|a [|b [|c [|d x]]]]; try discriminate. eauto 6.
Qed.

Lemma padded3 n : 0 <= n <= 999 -> digitsN 3 (padStart0 3 (NumberToString n)).
Proof. intros H. apply padded; [lia|]. change (10 ^ Z.of_nat 3) with 1000. lia. Qed.

(** [isoParse] on a text made of fields of the right widths. *)
Lemma isoParse_fields Y M D h mi s ms :
  digitsN 4 Y -> digitsN 2 M -> digitsN 2 D -> digitsN 2 h -> digitsN 2 mi -> digitsN 2 s ->
  digitsN 3 ms ->
  1 <= Number M <= 12 -> 1 <= Number D <= DaysInMonth (Number Y) (Number M) ->
  Number h <= 23 -> Number mi <= 59 -> Number s <= 59 ->
  isoParse (Y ++ lit "-" ++ M ++ lit "-" ++ D ++ lit "T" ++ h ++ lit ":" ++ mi ++ lit ":"
              ++ s ++ lit "." ++ ms ++ lit "Z")
  = TimeClip (MakeDate (daysFromCivil (Number Y) (Number M) (Number D))
                       (MakeTime (Number h) (Number mi) (Number s) (Number ms))).
Proof.
  intros HY HM HD Hh Hmi Hs Hms RM RD Rh Rmi Rs.
  destruct (@digitsN_4 _ HY) as (y1 & y2 & y3 & y4 & -> & DY).
  destruct (@digitsN_2 _ HM) as (m1 & m2 & -> & DM).
  destruct (@digitsN_2 _ HD) as (d1 & d2 & -> & DD).
  destruct (@digitsN_2 _ Hh) as (h1 & h2 & -> & Dh).
  destruct (@digitsN_2 _ Hmi) as (i1 & i2 & -> & Di).
  destruct (@digitsN_2 _ Hs) as (s1 & s2 & -> & Ds).
  destruct (digitsN_3 _ Hms) as (x1 & x2 & x3 & -> & Dx).
  assert (Hy1 : isDigit y1 = true).
  { unfold allDigits in DY. cbn [forallb] in DY. apply andb_prop in DY as [DY _]. exact DY. }
  destruct (digit_not_sign _ Hy1) as [Ep Em].
  unfold isoParse. cbn [app lit list_ascii_of_string]. rewrite Ep, Em.
  cbv zeta. cbn [firstn skipn slice Nat.sub length Nat.eqb orb andb symAt nth_error app].
  change (ascii_eqb "-" "-") with true. change (ascii_eqb "T" "T") with true.
  change (ascii_eqb ":" ":") with true. change (ascii_eqb "." ".") with true.
  change (ascii_eqb "Z" "Z") with true. cbn [andb orb].
  replace (allDigits [y1; y2; y3; y4; m1; m2; d1; d2; h1; h2; i1; i2; s1; s2; x1; x2; x3])
    with true.
  2:{ symmetry. unfold allDigits in *. cbn [forallb] in *.
      repeat match goal with H : _ && _ = true |- _ => apply andb_prop in H as [? H] end.
      repeat match goal with H : isDigit _ = true |- _ => rewrite H; clear H end.
      reflexivity. }
  replace (1 <? 0) with false by reflexivity. rewrite Z.mul_1_l. cbn [andb negb].
  replace (1 <=? Number [m1; m2]) with true by (symmetry; apply Z.leb_le; lia).
  replace (Number [m1; m2] <=? 12) with true by (symmetry; apply Z.leb_le; lia).
  replace (1 <=? Number [d1; d2]) with true by (symmetry; apply Z.leb_le; lia).
  replace (Number [d1; d2] <=? DaysInMonth (Number [y1; y2; y3; y4]) (Number [m1; m2]))
    with true by (symmetry; apply Z.leb_le; lia).
  replace (Number [h1; h2] <=? 23) with true by (symmetry; apply Z.leb_le; lia).
  replace (Number [i1; i2] <=? 59) with true by (symmetry; apply Z.leb_le; lia).
  replace (Number [s1; s2] <=? 59) with true by (symmetry; apply Z.leb_le; lia).
  reflexivity.
Qed.

Lemma time_of_fields t :
  MakeDate (Day t) (MakeTime (HourFromTime t) (MinFromTime t) (SecFromTime t) (msFromTime t))
  = t.
Proof.
  unfold MakeDate, MakeTime, Day, HourFromTime, MinFromTime, SecFromTime, msFromTime,
    msPerDay, msPerHour, msPerMinute, msPerSecond.
  Z.div_mod_to_equations. lia.
Qed.

Lemma Number_padded w n : 0 <= n -> Number (padStart0 w (NumberToString n)) = n.
Proof. intros H. rewrite Number_padStart0. apply NumberToString_digits, H. Qed.

(** [Date.parse] reads back what [toISOString] writes. *)
Lemma isoParse_toISOString d :
  0 <= YearFromTime d <= 9999 -> isoParse (toISOString d) = TimeClip d.
Proof.
  intros Hy. unfold toISOString.
  replace ((0 <=? YearFromTime d) && (YearFromTime d <=? 9999)) with true
    by (symmetry; apply andb_true_intro; split; apply Z.leb_le; lia).
  destruct (civil_ranges (Day d)) as [Hmo Hd].
  pose proof (civil_day_in_month (Day d)) as Hdim.
  destruct (time_ranges d) as (Hh & Hmi & Hs & Hms).
  fold (YearFromTime d) in Hdim. fold (DateFromTime d) in Hdim, Hd.
  assert (Emo : snd (fst (civilFromDays (Day d))) = MonthFromTime d + 1)
    by (unfold MonthFromTime; lia).
  rewrite Emo in Hmo, Hdim.
  rewrite isoParse_fields.
  - rewrite !Number_padded by lia. unfold pad2. rewrite !Number_padded by lia.
    pose proof (civil_roundtrip (Day d)) as R.
    fold (YearFromTime d) in R. fold (DateFromTime d) in R. rewrite Emo in R.
    rewrite R, time_of_fields. reflexivity.
  - apply (@padded4 _ Hy).
  - apply (@padded2 (MonthFromTime d + 1)). lia.
  - apply (@padded2 (DateFromTime d)). lia.
  - apply (@padded2 (HourFromTime d)). lia.
  - apply (@padded2 (MinFromTime d)). lia.
  - apply (@padded2 (SecFromTime d)). lia.
  - apply padded3. lia.
  - unfold pad2. rewrite Number_padded by lia. lia.
  - unfold pad2. rewrite !Number_padded by lia. lia.
  - unfold pad2. rewrite Number_padded by lia. lia.
  - unfold pad2. rewrite Number_padded by lia. lia.
  - unfold pad2. rewrite Number_padded by lia. lia.
Qed.

(** ** ISO instants through the two parsers *)

Lemma toISOString_fields d :
  0 <= YearFromTime d <= 9999 ->
  exists Y M D h mi s ms,
    toISOString d = Y ++ lit "-" ++ M ++ lit "-" ++ D ++ lit "T" ++ h ++ lit ":" ++ mi
                      ++ lit ":" ++ s ++ lit "." ++ ms ++ lit "Z"
    /\ digitsN 4 Y /\ digitsN 2 M /\ digitsN 2 D /\ digitsN 2 h /\ digitsN 2 mi
    /\ digitsN 2 s /\ digitsN 3 ms.
Proof.
  intros Hy. unfold toISOString.
  replace ((0 <=? YearFromTime d) && (YearFromTime d <=? 9999)) with true
    by (symmetry; apply andb_true_intro; split; apply Z.leb_le; lia).
  destruct (civil_ranges (Day d)) as [Hmo Hd].
  destruct (time_ranges d) as (Hh & Hmi & Hs & Hms).
  do 7 eexists. split; [reflexivity|].
  split; [apply (@padded4 _ Hy)|].
  split; [apply (@padded2 (MonthFromTime d + 1)); unfold MonthFromTime; lia|].
  split; [apply (@padded2 (DateFromTime d)); unfold DateFromTime; lia|].
  split; [apply (@padded2 (HourFromTime d)); lia|].
  split; [apply (@padded2 (MinFromTime d)); lia|].
  split; [apply (@padded2 (SecFromTime d)); lia|].
  apply padded3. lia.
Qed.

Lemma toISOString_abs d :
  0 <= YearFromTime d <= 9999 ->
  map abs (toISOString d) = lit "0000-00-00t00:00:00.000z".
Proof.
  intros Hy.
  destruct (toISOString_fields d Hy)
    as (Y & M & D & h & mi & s & ms & -> & HY & HM & HD & Hh & Hmi & Hs & Hms).
  rewrite !map_app.
  rewrite (digitsN_shape _ _ HY), (digitsN_shape _ _ HM), (digitsN_shape _ _ HD),
    (digitsN_shape _ _ Hh), (digitsN_shape _ _ Hmi), (digitsN_shape _ _ Hs),
    (digitsN_shape _ _ Hms).
  reflexivity.
Qed.

Lemma toISOString_heads d :
  0 <= YearFromTime d <= 9999 ->
  headIs isSpace (toISOString d) = false /\ headIs isSpace (rev (toISOString d)) = false.
Proof.
  intros Hy. rewrite <- headIs_space_abs, <- (headIs_space_abs (rev _)), map_rev.
  rewrite (toISOString_abs d Hy). split; reflexivity.
Qed.

Lemma toISOString_quiet d r :
  0 <= YearFromTime d <= 9999 -> regexInv r = true ->
  quiet r (lit "0000-00-00t00:00:00.000z") = true ->
  quiet r (toISOString d) = true.
Proof.
  intros Hy Hr Hq. rewrite <- (quiet_abs r _ Hr), (toISOString_abs d Hy). exact Hq.
Qed.

Lemma cleanupDisplay_iso d :
  0 <= YearFromTime d <= 9999 -> cleanupDisplay (toISOString d) = toISOString d.
Proof.
  intros Hy. destruct (toISOString_heads d Hy) as [H1 H2].
  apply cleanup_quiet; try assumption;
    apply (toISOString_quiet d _ Hy); vm_compute; reflexivity.
Qed.

Lemma cleanupStorage_iso d :
  0 <= YearFromTime d <= 9999 -> cleanupStorage (toISOString d) = toISOString d.
Proof.
  intros Hy. destruct (toISOString_heads d Hy) as [H1 H2]. unfold cleanupStorage.
  rewrite (quiet_replaceAll re_ordinal _ _), (quiet_replace1 re_fromIP _ _),
    (quiet_replaceAll re_labels _ _);
    try (apply (toISOString_quiet d _ Hy); vm_compute; reflexivity).
  apply trim_heads; assumption.
Qed.

Lemma toISOString_nonempty d : 0 <= YearFromTime d <= 9999 -> toISOString d <> [].
Proof.
  intros Hy E. apply (f_equal (map abs)) in E. rewrite (toISOString_abs d Hy) in E.
  discriminate.
Qed.

Lemma isIsoUTC_toISOString d :
  0 <= YearFromTime d <= 9999 -> isIsoUTC (Some (toISOString d)) = true.
Proof.
  intros Hy. unfold isIsoUTC. destruct (toISOString_heads d Hy) as [H1 H2].
  rewrite (trim_heads _ H1 H2). apply test_spec.
  destruct (toISOString_fields d Hy)
    as (Y & M & D & h & mi & s & ms & E & HY & HM & HD & Hh & Hmi & Hs & Hms).
  destruct (@shape_to_isoUTC None (toISOString d)) as (pv' & s' & Hd).
  { exists Y, M, D, h, mi, s, ("."%char :: ms). split; [exact E|].
    repeat (split; [assumption|]). right. exists ms. split; [reflexivity|].
    destruct Hms as [L A]. split; [|exact A]. intros ->. discriminate. }
  exists [], (toISOString d), pv', s'. split; [reflexivity | exact Hd].
Qed.

(** X17.  The dashboard reads back an instant written by [toISOString]:
    for a valid date [d] with a UTC year of four digits and a local year
    within the sanity range, [parseDate] returns [d], and the text bears
    the UTC flag. *)
Theorem parseDate_reads_iso (rt : Runtime) (d : Date) (tl : Timeline) (n : nat) :
  Z.abs d <= 8640000000000000 ->
  0 <= YearFromTime d <= 9999 ->
  2000 <= getFullYear rt d <= getFullYear rt (tl n) + 2 ->
  fst (parseDate rt (Some (toISOString d)) tl n) = Some d
  /\ isIsoUTC (Some (toISOString d)) = true.
Proof.
  intros Hv Hy Hs. split; [|apply isIsoUTC_toISOString, Hy].
  rewrite parseDate_run. destruct (toISOString d) as [|a s] eqn:E.
  { destruct (toISOString_nonempty d Hy E). }
  cbn [fst]. unfold parseDateAt. rewrite <- E, (cleanupDisplay_iso d Hy).
  unfold parseCleaned, newDateString. rewrite (isoParse_toISOString d Hy).
  unfold TimeClip. replace (Z.abs d <=? 8640000000000000) with true
    by (symmetry; apply Z.leb_le; exact Hv).
  unfold accept. rewrite (proj2 (saneYear_bounds _ _) Hs). reflexivity.
Qed.

Lemma parseDate_reads_iso_witness :
  toISOString 1760411640000 = lit "2025-10-14T03:14:00.000Z"
  /\ fst (parseDate refRuntime (Some (toISOString 1760411640000)) refTimeline 0%nat)
     = Some 1760411640000
  /\ isIsoUTC (Some (toISOString 1760411640000)) = true.
Proof.
  split; [vm_compute; reflexivity|].
  apply (parseDate_reads_iso refRuntime 1760411640000 refTimeline 0%nat).
  - vm_compute. discriminate.
  - vm_compute. split; discriminate.
  - vm_compute. split; discriminate.
Defined.

(** X18.  The storage path keeps an instant written by [toISOString]: for
    a valid date with a UTC year of four digits, [parseDateToMySQL]
    returns the first nineteen code units of that text with a blank for
    the [T], the UTC date and time to the second in the storage format,
    and the clock is not read. *)
Theorem parseDateToMySQL_keeps_iso (rt : Runtime) (d : Date) (tl : Timeline) (n : nat) :
  Z.abs d <= 8640000000000000 ->
  0 <= YearFromTime d <= 9999 ->
  parseDateToMySQL rt (JString (toISOString d)) tl n
  = (Normal (replaceT (slice 0 19 (toISOString d))), n)
  /\ storageShape (replaceT (slice 0 19 (toISOString d))).
Proof.
  intros Hv Hy. split.
  - unfold parseDateToMySQL. destruct (toISOString d) as [|a s] eqn:E.
    { destruct (toISOString_nonempty d Hy E). }
    cbn [truthy negb]. unfold bind, parseDateToMySQL_try.
    rewrite <- E, (cleanupStorage_iso d Hy). unfold newDateString.
    rewrite (isoParse_toISOString d Hy). unfold TimeClip.
    replace (Z.abs d <=? 8640000000000000) with true
      by (symmetry; apply Z.leb_le; exact Hv).
    reflexivity.
  - destruct (mysqlFormat_shape d Hy) as (s & E & Hs). injection E as <-. exact Hs.
Qed.

Lemma parseDateToMySQL_keeps_iso_witness :
  parseDateToMySQL refRuntime (JString (toISOString 1760411640000)) refTimeline 0%nat
  = (Normal (replaceT (slice 0 19 (toISOString 1760411640000))), 0%nat)
  /\ replaceT (slice 0 19 (toISOString 1760411640000)) = lit "2025-10-14 03:14:00".
Proof.
  split; [|vm_compute; reflexivity].
  apply (parseDateToMySQL_keeps_iso refRuntime 1760411640000 refTimeline 0%nat).
  - vm_compute. discriminate.
  - vm_compute. split; discriminate.
Defined.

(** ** The order of the keys *)

Lemma localeCompare_values a b :
  localeCompare a b = -1 \/ localeCompare a b = 0 \/ localeCompare a b = 1.
Proof.
  revert b. induction a as [|x a IH]; intros [|y b]; cbn [localeCompare]; auto.
  destruct (code x <? code y)%N; [auto|]. destruct (code y <? code x)%N; auto.
Qed.

Lemma code_inj x y : code x = code y -> x = y.
Proof.
  unfold code. intros H. rewrite <- (ascii_N_embedding x), <- (ascii_N_embedding y), H.
  reflexivity.
Qed.

Lemma localeCompare_eq a b : localeCompare a b = 0 <-> a = b.
Proof.
  revert b. induction a as [|x a IH]; intros [|y b]; cbn [localeCompare];
    try (split; [lia | discriminate]); [tauto|].
  destruct (N.ltb_spec (code x) (code y)); [split; [lia | intros E; injection E as -> _; lia]|].
  destruct (N.ltb_spec (code y) (code x)); [split; [lia | intros E; injection E as -> _; lia]|].
  assert (x = y) by (apply code_inj; lia). subst y. rewrite IH.
  split; [intros ->; reflexivity | intros E; injection E as ->; reflexivity].
Qed.

Lemma localeCompare_flip a b : localeCompare b a = - localeCompare a b.
Proof.
  revert b. induction a as [|x a IH]; intros [|y b]; cbn [localeCompare]; try reflexivity.
  destruct (N.ltb_spec (code x) (code y)), (N.ltb_spec (code y) (code x)); try lia.
  apply IH.
Qed.

Lemma localeCompare_trans a b c :
  localeCompare a b < 0 -> localeCompare b c < 0 -> localeCompare a c < 0.
Proof.
  revert b c. induction a as [|x a IH]; intros [|y b] [|z c]; cbn [localeCompare]; try lia.
  destruct (N.ltb_spec (code x) (code y)), (N.ltb_spec (code y) (code z)),
    (N.ltb_spec (code x) (code z)); try lia;
    destruct (N.ltb_spec (code y) (code x)), (N.ltb_spec (code z) (code y)),
      (N.ltb_spec (code z) (code x)); try lia.
  apply IH.
Qed.

Lemma localeCompare_app a1 a2 b1 b2 :
  length a1 = length a2 ->
  localeCompare (a1 ++ b1) (a2 ++ b2)
  = if localeCompare a1 a2 =? 0 then localeCompare b1 b2 else localeCompare a1 a2.
Proof.
  revert a2. induction a1 as [|x a1 IH]; intros [|y a2] L; try discriminate; [reflexivity|].
  cbn [app localeCompare].
  destruct (code x <? code y)%N; [reflexivity|].
  destruct (code y <? code x)%N; [reflexivity|].
  apply IH. injection L as L. exact L.
Qed.

Lemma localeCompare_cons c a b : localeCompare (c :: a) (c :: b) = localeCompare a b.
Proof. cbn [localeCompare]. rewrite N.ltb_irrefl. reflexivity. Qed.

Lemma digit_order x y :
  isDigit x = true -> isDigit y = true ->
  ((code x <? code y)%N = (digitVal x <? digitVal y)).
Proof.
  intros _ _. unfold digitVal.
  destruct (N.ltb_spec (code x) (code y)), (Z.ltb_spec (Z.of_N (code x) - 48) (Z.of_N (code y) - 48));
    try reflexivity; lia.
Qed.

(** Digit strings of one length compare as the numbers they write. *)
Lemma localeCompare_digits a b :
  length a = length b -> allDigits a = true -> allDigits b = true ->
  (localeCompare a b < 0 <-> Number a < Number b)
  /\ (localeCompare a b = 0 <-> Number a = Number b).
Proof.
  revert b. induction a as [|x a IH]; intros [|y b] L Da Db; try discriminate.
  - cbn. split; split; lia.
  - injection L as L. unfold allDigits in Da, Db. cbn [forallb] in Da, Db.
    apply andb_prop in Da as [Dx Da], Db as [Dy Db].
    destruct (IH b L Da Db) as [IH1 IH2].
    pose proof (Number_bounds a Da) as Ba. pose proof (Number_bounds b Db) as Bb.
    rewrite L in Ba. rewrite !Number_cons, L.
    set (P := 10 ^ Z.of_nat (length b)) in *.
    pose proof (isDigit_val x Dx). pose proof (isDigit_val y Dy).
    cbn [localeCompare]. rewrite (digit_order x y Dx Dy), (digit_order y x Dy Dx).
    destruct (Z.ltb_spec (digitVal x) (digitVal y)); [split; split; nia|].
    destruct (Z.ltb_spec (digitVal y) (digitVal x)); [split; split; nia|].
    assert (E : digitVal x = digitVal y) by lia. rewrite E.
    split; [rewrite IH1 | rewrite IH2]; split; lia.
Qed.

Lemma NumberToString_4 y : 1000 <= y <= 9999 -> digitsN 4 (NumberToString y).
Proof.
  intros H. destruct (@padded4 y ltac:(lia)) as [L D].
  destruct (NumberToString_digits y ltac:(lia)) as (Dy & Ny & _).
  pose proof (Number_bounds _ Dy) as B. rewrite Ny in B.
  assert (Hl : (4 <= length (NumberToString y))%nat).
  { destruct (le_lt_dec 4 (length (NumberToString y))) as [|Hlt]; [assumption|].
    exfalso.
    assert (10 ^ Z.of_nat (length (NumberToString y)) <= 10 ^ 3)
      by (apply Z.pow_le_mono_r; lia).
    change (10 ^ 3) with 1000 in *. lia. }
  unfold padStart0 in L. rewrite length_app, repeat_length in L.
  split; [lia | exact Dy].
Qed.

Lemma localeCompare_ymd c1 c2 :
  1000 <= fst (fst c1) <= 9999 -> 1000 <= fst (fst c2) <= 9999 ->
  0 <= snd (fst c1) <= 99 -> 0 <= snd (fst c2) <= 99 ->
  0 <= snd c1 <= 99 -> 0 <= snd c2 <= 99 ->
  (localeCompare (ymdText c1) (ymdText c2) < 0 <-> lex3 c1 c2).
Proof.
  destruct c1 as [[y1 m1] d1], c2 as [[y2 m2] d2]. unfold ymdText, lex3. cbn [fst snd].
  intros Hy1 Hy2 Hm1 Hm2 Hd1 Hd2.
  destruct (NumberToString_4 y1 Hy1) as [Ly1 Dy1], (NumberToString_4 y2 Hy2) as [Ly2 Dy2].
  destruct (@padded2 m1 Hm1) as [Lm1 Dm1], (@padded2 m2 Hm2) as [Lm2 Dm2].
  destruct (@padded2 d1 Hd1) as [Ld1 Dd1], (@padded2 d2 Hd2) as [Ld2 Dd2].
  destruct (localeCompare_digits _ _ (eq_trans Ly1 (eq_sym Ly2)) Dy1 Dy2) as [Y1 Y2].
  destruct (localeCompare_digits _ _ (eq_trans Lm1 (eq_sym Lm2)) Dm1 Dm2) as [M1 M2].
  destruct (localeCompare_digits _ _ (eq_trans Ld1 (eq_sym Ld2)) Dd1 Dd2) as [D1 D2].
  rewrite !Number_pad2 in M1, M2, D1, D2 by lia.
  destruct (NumberToString_digits y1 ltac:(lia)) as (_ & Ny1 & _).
  destruct (NumberToString_digits y2 ltac:(lia)) as (_ & Ny2 & _).
  rewrite Ny1, Ny2 in Y1, Y2.
  rewrite localeCompare_app by congruence.
  cbn [lit list_ascii_of_string app]. rewrite localeCompare_cons.
  rewrite localeCompare_app by congruence.
  cbn [app]. rewrite localeCompare_cons.
  pose proof (localeCompare_values (NumberToString y1) (NumberToString y2)).
  pose proof (localeCompare_values (pad2 m1) (pad2 m2)).
  pose proof (localeCompare_values (pad2 d1) (pad2 d2)).
  destruct (Z.eqb_spec (localeCompare (NumberToString y1) (NumberToString y2)) 0);
    destruct (Z.eqb_spec (localeCompare (pad2 m1) (pad2 m2)) 0); lia.
Qed.

Lemma lex3_asym a b : lex3 a b -> lex3 b a -> False.
Proof. unfold lex3. lia. Qed.

Lemma lex3_irrefl a : lex3 a a -> False.
Proof. unfold lex3. lia. Qed.

(** Civil dates come in the order of their day numbers. *)
Lemma civil_order z1 z2 : lex3 (civilFromDays z1) (civilFromDays z2) <-> z1 < z2.
Proof.
  split; [|apply civil_mono].
  intros H. destruct (Z.lt_trichotomy z1 z2) as [L | [E | G]]; [exact L | |].
  - subst z2. destruct (lex3_irrefl _ H).
  - destruct (lex3_asym _ _ H (civil_mono _ _ G)).
Qed.

Lemma dateKeyUTC_ymd d : dateKeyUTC d = ymdText (civilFromDays (Day d)).
Proof.
  unfold dateKeyUTC, ymdText, getUTCFullYear, getUTCMonth, getUTCDate, YearFromTime,
    MonthFromTime, DateFromTime.
  replace (snd (fst (civilFromDays (Day d))) - 1 + 1) with (snd (fst (civilFromDays (Day d))))
    by lia.
  reflexivity.
Qed.

Lemma dateKeyUTC_order_days d1 d2 :
  1000 <= YearFromTime d1 <= 9999 -> 1000 <= YearFromTime d2 <= 9999 ->
  (localeCompare (dateKeyUTC d1) (dateKeyUTC d2) < 0 <-> Day d1 < Day d2).
Proof.
  intros H1 H2. rewrite !dateKeyUTC_ymd.
  destruct (civil_ranges (Day d1)) as [Hm1 Hd1], (civil_ranges (Day d2)) as [Hm2 Hd2].
  etransitivity; [apply localeCompare_ymd; try assumption; lia | apply civil_order].
Qed.

(** X11.  For local years of four digits, the keys of two dates compare,
    code unit by code unit, as their local calendar days. *)
Theorem dateKey_order (rt : Runtime) (d1 d2 : Date) :
  1000 <= getFullYear rt d1 <= 9999 -> 1000 <= getFullYear rt d2 <= 9999 ->
  (localeCompare (dateKey rt d1) (dateKey rt d2) < 0
   <-> Day (LocalTime rt d1) < Day (LocalTime rt d2)).
Proof. apply (dateKeyUTC_order_days (LocalTime rt d1) (LocalTime rt d2)). Qed.

Lemma dateKey_order_witness :
  Day (LocalTime refRuntime 1760357982000) < Day (LocalTime refRuntime 1760404440000).
Proof.
  refine (proj1 (dateKey_order refRuntime 1760357982000 1760404440000 _ _) _).
  - vm_compute. split; discriminate.
  - vm_compute. split; discriminate.
  - vm_compute. reflexivity.
Defined.

(** X10.  Two dates have the same key exactly when they fall on the same
    calendar day, local for [dateKey] and UTC for [dateKeyUTC]. *)
Theorem date_keys_tell_days_apart (rt : Runtime) (d1 d2 : Date) :
  (dateKey rt d1 = dateKey rt d2 <-> Day (LocalTime rt d1) = Day (LocalTime rt d2))
  /\ (dateKeyUTC d1 = dateKeyUTC d2 <-> Day d1 = Day d2).
Proof. split; [apply dateKey_same_day | apply dateKeyUTC_same_day]. Qed.

(** ** Counters: one entry for each key *)

Lemma bump_keys (k k' : str) (o : counter) :
  In k' (map fst (bump k o)) -> k' = k \/ In k' (map fst o).
Proof.
  induction o as [|[k0 v] o IH]; cbn [bump map fst In].
  - intros [<- | []]. auto.
  - destruct (str_eqb k0 k); cbn [map fst In]; [tauto|].
    intros [H | H]; [tauto|]. destruct (IH H); auto.
Qed.

Lemma bump_nodup (k : str) (o : counter) :
  NoDup (map fst o) -> NoDup (map fst (bump k o)).
Proof.
  induction o as [|[k0 v] o IH]; cbn [bump map fst]; intros H.
  - constructor; [intros [] | constructor].
  - destruct (str_eqb k0 k) eqn:E; cbn [map fst]; [exact H|].
    inversion H as [|? ? Hn Hd]; subst. constructor; [|apply IH, Hd].
    intros Hin. apply bump_keys in Hin as [-> | Hin]; [|contradiction].
    rewrite str_eqb_refl in E. discriminate.
Qed.

Lemma bump_positive (k : str) (o : counter) :
  Forall (fun e => 1 <= snd e) o -> Forall (fun e => 1 <= snd e) (bump k o).
Proof.
  induction o as [|[k0 v] o IH]; cbn [bump]; intros H.
  - constructor; [cbn; lia | constructor].
  - inversion H as [|? ? Hv Ho]; subst. cbn [snd] in Hv.
    destruct (str_eqb k0 k); constructor; cbn [snd]; auto; lia.
Qed.

Section TallyFacts.
Variable A : Type.
Variable label : A -> str.

Lemma tally_keys (k : str) (l : list A) (o : counter) :
  In k (map fst (tally label l o)) -> In k (map fst o) \/ exists t, In t l /\ label t = k.
Proof.
  unfold tally. revert o. induction l as [|t l IH]; intros o; cbn [fold_left]; [auto|].
  intros H. apply IH in H as [H | (u & Hu & Eu)].
  - apply bump_keys in H as [-> | H]; [right; exists t; cbn; auto | auto].
  - right. exists u. cbn. auto.
Qed.

Lemma tally_nodup (l : list A) (o : counter) :
  NoDup (map fst o) -> NoDup (map fst (tally label l o)).
Proof.
  unfold tally. revert o. induction l as [|t l IH]; intros o H; cbn [fold_left]; [exact H|].
  apply IH, bump_nodup, H.
Qed.

Lemma tally_positive (l : list A) (o : counter) :
  Forall (fun e => 1 <= snd e) o -> Forall (fun e => 1 <= snd e) (tally label l o).
Proof.
  unfold tally. revert o. induction l as [|t l IH]; intros o H; cbn [fold_left]; [exact H|].
  apply IH, bump_positive, H.
Qed.
End TallyFacts.

Lemma nodup_count (k : str) (v : Z) (o : counter) :
  NoDup (map fst o) -> In (k, v) o -> getCount k o = v.
Proof.
  induction o as [|[k0 v0] o IH]; cbn [map fst In getCount]; [tauto|].
  intros Hn [E | Hin].
  - injection E as -> ->. rewrite str_eqb_refl. reflexivity.
  - inversion Hn as [|? ? Hk Hd]; subst.
    destruct (str_eqb k0 k) eqn:E; [|apply IH; assumption].
    apply str_eqb_eq in E. subst k0. exfalso. apply Hk.
    apply (in_map fst) in Hin. exact Hin.
Qed.

(** The entries of a counter filled by a [forEach] over [l]: one for each
    label met, with the number of items of that label. *)
Lemma tally_entries {A} (label : A -> str) (l : list A) (k : str) (n : Z) :
  In (k, n) (tally label l []) <->
  n = Z.of_nat (length (filter (fun t => str_eqb (label t) k) l)) /\ 1 <= n.
Proof.
  split.
  - intros Hin. split.
    + rewrite <- (nodup_count k n (tally label l [])); [|apply tally_nodup; constructor|exact Hin].
      rewrite tally_count. reflexivity.
    + pose proof (tally_positive _ label l [] (Forall_nil _)) as Hp.
      rewrite Forall_forall in Hp. apply (Hp (k, n) Hin).
  - intros [-> Hn].
    destruct (filter (fun t => str_eqb (label t) k) l) as [|t f] eqn:Ef; [cbn in Hn; lia|].
    assert (Ht : In t l /\ str_eqb (label t) k = true).
    { apply (filter_In (fun t => str_eqb (label t) k)). rewrite Ef. left. reflexivity. }
    destruct Ht as [Ht Ek]. apply str_eqb_eq in Ek.
    pose proof (key_has_count k (tally label l [])) as Hc.
    rewrite tally_count in Hc. cbn [getCount] in Hc. rewrite Ef in Hc. cbn [Z.add] in Hc.
    apply Hc. rewrite <- Ek. apply tally_has_key, Ht.
Qed.

Lemma ticketsByBrand_member (tickets : list TicketItem) (b : str) (n : Z) :
  In (b, n) (ticketsByBrand tickets) <->
  n = Z.of_nat (length (filter (fun t => str_eqb (normalizeBrand (brand t)) b) tickets))
  /\ 1 <= n.
Proof.
  pose proof (ticketsByBrand_perm tickets) as P.
  rewrite <- (tally_entries (fun t => normalizeBrand (brand t))). split.
  - apply Permutation_in, P.
  - apply Permutation_in. symmetry. exact P.
Qed.

(** X3.  [ticketsByBrand] has exactly one entry for each brand label
    borne by a ticket, and the count of an entry is the number of tickets
    of that label: no label is listed twice, none with a count of
    zero. *)
Theorem ticketsByBrand_entries (tickets : list TicketItem) :
  NoDup (map fst (ticketsByBrand tickets))
  /\ forall (b : str) (n : Z),
       In (b, n) (ticketsByBrand tickets) <->
       n = Z.of_nat (length (filter (fun t => str_eqb (normalizeBrand (brand t)) b) tickets))
       /\ 1 <= n.
Proof.
  split; [|apply ticketsByBrand_member].
  eapply Permutation_NoDup; [symmetry; apply Permutation_map, ticketsByBrand_perm|].
  apply tally_nodup. constructor.
Qed.

(** ** The brand chart *)

Lemma StronglySorted_app {A} (R : A -> A -> Prop) (l1 l2 : list A) :
  StronglySorted R (l1 ++ l2) -> forall x y, In x l1 -> In y l2 -> R x y.
Proof.
  induction l1 as [|a l1 IH]; cbn [app]; intros H x y Hx Hy; [destruct Hx|].
  inversion H as [|? ? Hs Hall]; subst. destruct Hx as [<- | Hx].
  - rewrite Forall_forall in Hall. apply Hall, in_or_app. auto.
  - apply IH; assumption.
Qed.

(** X4.  The chart shows at most eight brands, and no brand left out has
    more tickets than a brand shown. *)
Theorem brandChartData_top (tickets : list TicketItem) :
  (length (brandChartData tickets) <= 8)%nat
  /\ forall shown other,
       In shown (brandChartData tickets) ->
       In other (ticketsByBrand tickets) -> ~ In other (brandChartData tickets) ->
       snd other <= snd shown.
Proof.
  unfold brandChartData. split; [apply firstn_le_length|].
  intros shown other Hs Ho Hn.
  rewrite <- (firstn_skipn 8 (ticketsByBrand tickets)) in Ho.
  apply in_app_or in Ho as [Ho | Ho]; [contradiction|].
  pose proof (ticketsByBrand_ranked tickets) as R.
  rewrite <- (firstn_skipn 8 (ticketsByBrand tickets)) in R.
  exact (StronglySorted_app _ _ _ R shown other Hs Ho).
Qed.

Lemma fold_left_total (l : list (str * Z)) (a : Z) :
  fold_left (fun s b => s + snd b) l a = a + total l.
Proof.
  unfold total. revert a. induction l as [|e l IH]; intros a; cbn [fold_left map fold_right].
  - lia.
  - rewrite IH. lia.
Qed.

Lemma total_app (l1 l2 : list (str * Z)) : total (l1 ++ l2) = total l1 + total l2.
Proof.
  unfold total. induction l1 as [|e l1 IH]; cbn [app map fold_right]; lia.
Qed.

Lemma total_at_least (l : list (str * Z)) :
  Forall (fun e => 1 <= snd e) l -> Z.of_nat (length l) <= total l.
Proof.
  unfold total. induction 1 as [|e l He Hl IH]; cbn [length map fold_right]; lia.
Qed.

(** X5.  The total shown under the chart adds up the brands shown only:
    it is the number of tickets when there are at most eight brand
    labels, and less when there are more. *)
Theorem brandChartTotal_partial (tickets : list TicketItem) :
  brandChartTotal tickets <= Z.of_nat (length tickets)
  /\ (brandChartTotal tickets = Z.of_nat (length tickets)
      <-> (length (ticketsByBrand tickets) <= 8)%nat).
Proof.
  unfold brandChartTotal, brandChartData. rewrite fold_left_total, Z.add_0_l.
  assert (Ht : total (ticketsByBrand tickets) = Z.of_nat (length tickets)).
  { rewrite (total_perm (ticketsByBrand_perm tickets)), tally_total. reflexivity. }
  assert (Hp : Forall (fun e => 1 <= snd e) (ticketsByBrand tickets)).
  { apply Forall_forall. intros [b n] Hin.
    apply ticketsByBrand_member in Hin. cbn [snd]. lia. }
  rewrite <- (firstn_skipn 8 (ticketsByBrand tickets)) in Ht, Hp.
  rewrite total_app in Ht. apply Forall_app in Hp as [_ Hp].
  apply total_at_least in Hp. rewrite length_skipn in Hp.
  split; [lia|]. split; intros H.
  - lia.
  - assert (E : skipn 8 (ticketsByBrand tickets) = []).
    { apply length_zero_iff_nil. rewrite length_skipn. lia. }
    rewrite E in Ht. change (total []) with 0 in Ht. lia.
Qed.

(** X6.  The size of the bars of the brand chart does not vary: with at
    most eight bars it is always 40. *)
Theorem brandBarSize_constant (tickets : list TicketItem) :
  brandBarSize (Z.of_nat (length (brandChartData tickets))) = 40.
Proof.
  assert (H : (length (brandChartData tickets) <= 8)%nat) by apply firstn_le_length.
  unfold brandBarSize. set (n := Z.of_nat (length (brandChartData tickets))).
  assert (Hn : 0 <= n <= 8) by (subst n; lia). clearbody n.
  assert (40 <= 320 / Z.max 1 n).
  { apply Z.div_le_lower_bound; lia. }
  lia.
Qed.

(** X7.  The size of the bars of the daily chart: 48 up to six days, then
    the quotient of 320 by the number of days, and 18 from seventeen days
    on; it never grows with the number of days. *)
Theorem ticketsBarSize_steps (n : nat) :
  18 <= ticketsBarSize (Z.of_nat n) <= 48
  /\ ((n <= 6)%nat -> ticketsBarSize (Z.of_nat n) = 48)
  /\ ((7 <= n <= 17)%nat -> ticketsBarSize (Z.of_nat n) = 320 / Z.of_nat n)
  /\ ((17 <= n)%nat -> ticketsBarSize (Z.of_nat n) = 18)
  /\ ticketsBarSize (Z.of_nat (S n)) <= ticketsBarSize (Z.of_nat n).
Proof.
  unfold ticketsBarSize.
  assert (Hq : forall k, 1 <= k -> 320 / k * k <= 320 < (320 / k + 1) * k).
  { intros k Hk. Z.div_mod_to_equations. nia. }
  repeat split; try lia.
  - intros H. pose proof (Hq (Z.max 1 (Z.of_nat n)) ltac:(lia)). nia.
  - intros H. replace (Z.max 1 (Z.of_nat n)) with (Z.of_nat n) by lia.
    pose proof (Hq (Z.of_nat n) ltac:(lia)). nia.
  - intros H. pose proof (Hq (Z.max 1 (Z.of_nat n)) ltac:(lia)). nia.
  - assert (320 / Z.max 1 (Z.of_nat (S n)) <= 320 / Z.max 1 (Z.of_nat n)).
    { apply Z.div_le_compat_l; lia. }
    lia.
Qed.

(** ** The status counts *)

Lemma den_chars (l : str) : forall pv s pv' s',
  den (cat (map chr l)) pv s pv' s' <-> s = l ++ s' /\ pv' = lastOr pv l.
Proof.
  induction l as [|a l IH]; intros pv s pv' s'.
  - cbn. split; intros [H1 H2]; subst; auto.
  - destruct l as [|b l].
    + cbn. split.
      * intros (c & -> & Hc & ->). apply ascii_eqb_eq in Hc. subst c. auto.
      * intros [-> ->]. exists a. rewrite ascii_eqb_refl. auto.
    + change (cat (map chr (a :: b :: l))) with (Cat (chr a) (cat (map chr (b :: l)))).
      cbn [den]. split.
      * intros (pv1 & s1 & (c & -> & Hc & ->) & H2). apply ascii_eqb_eq in Hc. subst c.
        apply IH in H2 as [-> ->]. split; reflexivity.
      * intros [-> ->]. exists (Some a), (b :: l ++ s'). split.
        -- exists a. rewrite ascii_eqb_refl. auto.
        -- apply IH. split; reflexivity.
Qed.

Lemma den_word (w : string) pv s pv' s' :
  den (word w) pv s pv' s' <-> s = lit w ++ s' /\ pv' = lastOr pv (lit w).
Proof. apply den_chars. Qed.

Lemma test_contains (r : regex) (w s : str) :
  (forall pv post, exists pv', den r pv (w ++ post) pv' post) ->
  contains w s -> test r s = true.
Proof.
  intros H (pre & post & ->). apply test_spec.
  destruct (H (lastOr None pre) post) as (pv' & Hd).
  exists pre, (w ++ post), pv', post. split; [reflexivity | exact Hd].
Qed.

(** X1.  A ticket counts as unsolved exactly when its status, in lower case,
    contains one of the words "open", "pending", "waiting", "todo",
    "inprogress", or "in" and "progress" separated by one hyphen or
    blank. *)
Theorem unsolved_by_containment (t : TicketItem) :
  isUnsolved t = true <->
  (exists w, In w unsolvedWords /\ contains w (statusText t))
  \/ (exists c, dashOrSpace c = true
                /\ contains (lit "in" ++ c :: lit "progress") (statusText t)).
Proof.
  unfold isUnsolved. generalize (statusText t). intros s. split.
  - intros H. apply test_spec in H as (pre & suf & pv' & s' & -> & Hd).
    unfold re_unsolved in Hd.
    change (cat [word "in"; Opt (Cls dashOrSpace); word "progress"])
      with (Cat (word "in") (Cat (Opt (Cls dashOrSpace)) (word "progress"))) in Hd.
    cbn [den] in Hd.
    destruct Hd as [H | [H | [H | [H | H]]]].
    + apply den_word in H as [-> _]. left. exists (lit "open").
      split; [cbn; auto | exists pre, s'; reflexivity].
    + apply den_word in H as [-> _]. left. exists (lit "pending").
      split; [cbn; auto | exists pre, s'; reflexivity].
    + destruct H as (pv1 & s1 & H1 & pv2 & s2 & H2 & H3).
      apply den_word in H1 as [-> _]. apply den_word in H3 as [-> _].
      destruct H2 as [(c & -> & Hc & _) | [_ <-]].
      * right. exists c. split; [exact Hc|]. exists pre, s'.
        cbn [lit list_ascii_of_string app]. reflexivity.
      * left. exists (lit "inprogress").
        split; [cbn; auto 6 | exists pre, s'; cbn [lit list_ascii_of_string app]; reflexivity].
    + apply den_word in H as [-> _]. left. exists (lit "waiting").
      split; [cbn; auto 6 | exists pre, s'; reflexivity].
    + apply den_word in H as [-> _]. left. exists (lit "todo").
      split; [cbn; auto 6 | exists pre, s'; reflexivity].
  - unfold re_unsolved.
    change (cat [word "in"; Opt (Cls dashOrSpace); word "progress"])
      with (Cat (word "in") (Cat (Opt (Cls dashOrSpace)) (word "progress"))).
    intros [(w & Hw & Hc) | (c & Hc & Hin)].
    + cbn [unsolvedWords In] in Hw.
      destruct Hw as [<- | [<- | [<- | [<- | [<- | []]]]]];
        (eapply test_contains; [|exact Hc]); intros pv post; eexists; cbn [den].
      * left. apply den_word. split; reflexivity.
      * right; left. apply den_word. split; reflexivity.
      * right; right; left.
        exists (lastOr pv (lit "in")), (lit "progress" ++ post). split.
        -- apply den_word. split; reflexivity.
        -- exists (lastOr pv (lit "in")), (lit "progress" ++ post). split.
           ++ right. split; reflexivity.
           ++ apply den_word. split; reflexivity.
      * right; right; right; left. apply den_word. split; reflexivity.
      * right; right; right; right. apply den_word. split; reflexivity.
    + eapply test_contains; [|exact Hin]. intros pv post. eexists. cbn [den].
      right; right; left.
      exists (lastOr pv (lit "in")), (c :: lit "progress" ++ post). split.
      * apply den_word. split; reflexivity.
      * exists (Some c), (lit "progress" ++ post). split.
        -- left. exists c. auto.
        -- apply den_word. split; reflexivity.
Qed.

(** X2.  A ticket counts as resolved exactly when its status, in lower case,
    contains one of the words "resolved", "closed", "done",
    "completed". *)
Theorem resolved_by_containment (t : TicketItem) :
  isResolved t = true <-> exists w, In w resolvedWords /\ contains w (statusText t).
Proof.
  unfold isResolved. generalize (statusText t). intros s. split.
  - intros H. apply test_spec in H as (pre & suf & pv' & s' & -> & Hd).
    unfold re_resolved in Hd. cbn [den] in Hd.
    destruct Hd as [H | [H | [H | H]]]; apply den_word in H as [-> _];
      eexists; (split; [|exists pre, s'; reflexivity]); cbn; auto 6.
  - intros (w & Hw & Hc). cbn [resolvedWords In] in Hw. unfold re_resolved.
    destruct Hw as [<- | [<- | [<- | [<- | []]]]];
      (eapply test_contains; [|exact Hc]); intros pv post; eexists; cbn [den].
    + left. apply den_word. split; reflexivity.
    + right; left. apply den_word. split; reflexivity.
    + right; right; left. apply den_word. split; reflexivity.
    + right; right; right. apply den_word. split; reflexivity.
Qed.

(** ** [normalizeBrand] and the case of the letters *)

Lemma trimStart_low s : low (trimStart s) = trimStart (low s).
Proof.
  induction s as [|a s IH]; [reflexivity|]. cbn [trimStart low map].
  rewrite isSpace_toLower. destruct (isSpace a); [exact IH | reflexivity].
Qed.

Lemma trim_low s : low (trim s) = trim (low s).
Proof.
  unfold trim, trimEnd, low.
  rewrite map_rev. fold (low (trimStart (rev (trimStart s)))).
  rewrite trimStart_low. unfold low. rewrite map_rev.
  fold (low (trimStart s)). rewrite trimStart_low. reflexivity.
Qed.

Lemma dropWhile_underscore_low s :
  low (dropWhile isUnderscore s) = dropWhile isUnderscore (low s).
Proof.
  induction s as [|a s IH]; [reflexivity|]. cbn [dropWhile low map].
  rewrite isUnderscore_toLower. destruct (isUnderscore a); [exact IH | reflexivity].
Qed.

Lemma low_nil s : low s = [] -> s = [].
Proof. destruct s; [reflexivity | discriminate]. Qed.

Lemma normalizeBrand_low (a b : str) :
  isAscii a = true -> isAscii b = true ->
  low a = low b -> normalizeBrand (Some a) = normalizeBrand (Some b).
Proof.
  intros Ha Hb E. destruct a as [|x a], b as [|y b]; try discriminate; [reflexivity|].
  rewrite !normalizeBrand_eq by assumption. f_equal. apply rejoin_low.
  rewrite !dropWhile_underscore_low, !trim_low, E. reflexivity.
Qed.

(** X8.  Two brand names of the ASCII range that differ only by the case
    of their letters get the same label. *)
Theorem normalizeBrand_ignores_case (a b : str) :
  isAscii a = true -> isAscii b = true ->
  toLowerCase a = toLowerCase b -> normalizeBrand (Some a) = normalizeBrand (Some b).
Proof.
  intros Ha Hb E. apply normalizeBrand_low; [exact Ha | exact Hb|].
  rewrite <- (toLowerCase_ascii a Ha), <- (toLowerCase_ascii b Hb). exact E.
Qed.

Lemma normalizeBrand_ignores_case_witness :
  normalizeBrand (Some (lit "SHOPIFY.com")) = normalizeBrand (Some (lit "shopify.COM"))
  /\ normalizeBrand (Some (lit "shopify.COM")) = lit "Shopify.com".
Proof.
  split; [|vm_compute; reflexivity].
  apply (normalizeBrand_ignores_case (lit "SHOPIFY.com") (lit "shopify.COM"));
    vm_compute; reflexivity.
Defined.

(** No step of [normalizeBrand] brings a blank in. *)
Lemma isSpace_lowerUnit c : isSpace (lowerUnit c) = isSpace c.
Proof. all_chars c. Qed.

Lemma noSpace_upperUnit c : noSpace (upperUnit c) = negb (isSpace c).
Proof. all_chars c. Qed.

Lemma noSpace_app x y : noSpace (x ++ y) = noSpace x && noSpace y.
Proof. apply forallb_app. Qed.

Lemma noSpace_toLowerCase s : noSpace (toLowerCase s) = noSpace s.
Proof.
  induction s as [|a s IH]; [reflexivity|]. unfold noSpace in *.
  cbn [toLowerCase map forallb]. rewrite isSpace_lowerUnit. f_equal. exact IH.
Qed.

Lemma noSpace_titleCase t : noSpace t = true -> noSpace (titleCase t) = true.
Proof.
  destruct t as [|c t]; [reflexivity|]. intros H.
  change (noSpace (c :: t)) with (negb (isSpace c) && noSpace t) in H.
  apply andb_prop in H as [Hc Ht]. cbn [titleCase toUpperCase flat_map].
  rewrite app_nil_r, noSpace_app, noSpace_upperUnit, Hc, noSpace_toLowerCase. exact Ht.
Qed.

Lemma fieldsOf_noSpace : forall s i, Forall (fun t => noSpace t = true) (fieldsOf i s).
Proof.
  induction s as [|a s IH]; intros i; cbn [fieldsOf].
  - repeat constructor.
  - destruct (spaceOrDot a) eqn:Ha.
    + destruct i; [apply IH|]. constructor; [reflexivity | apply IH].
    + specialize (IH false). apply spaceOrDot_space in Ha.
      destruct IH as [|t ts Ht Hts]; cbn [consHead].
      * repeat constructor. unfold noSpace. cbn [forallb]. rewrite Ha. reflexivity.
      * constructor; [|exact Hts]. unfold noSpace in *. cbn [forallb]. rewrite Ha. exact Ht.
Qed.

Lemma noSpace_join l :
  Forall (fun t => noSpace t = true) l -> noSpace (join (lit ".") l) = true.
Proof.
  induction 1 as [|t ts Ht Hts IH]; [reflexivity|].
  destruct ts as [|u ts]; [exact Ht|].
  change (join (lit ".") (t :: u :: ts)) with (t ++ lit "." ++ join (lit ".") (u :: ts)).
  rewrite !noSpace_app, Ht, IH. reflexivity.
Qed.

(** A match ends within the text it started in. *)
Lemma den_suffix r : forall pv s pv' s', den r pv s pv' s' -> exists ds, s = ds ++ s'.
Proof.
  induction r as [|p|r1 IH1 r2 IH2|r1 IH1 r2 IH2|g lo hi p|r1 IH1|i r1 IH1| | |];
    intros pv s pv' s'; cbn [den].
  - intros [_ ->]. exists []. reflexivity.
  - intros (a & -> & _). exists [a]. reflexivity.
  - intros (pv1 & s1 & H1 & H2). apply IH1 in H1 as [d1 ->]. apply IH2 in H2 as [d2 ->].
    exists (d1 ++ d2). apply app_assoc.
  - intros [H|H]; [eapply IH1, H | eapply IH2, H].
  - intros (ds & -> & _). exists ds. reflexivity.
  - intros [H|[_ ->]]; [eapply IH1, H | exists []; reflexivity].
  - apply IH1.
  - intros (_ & _ & ->). exists []. reflexivity.
  - intros (_ & _ & ->). exists []. reflexivity.
  - intros (_ & _ & ->). exists []. reflexivity.
Qed.

Lemma replace1_noSpace r t s :
  noSpace t = true -> noSpace s = true -> noSpace (replace1 r (fun _ => t) s) = true.
Proof.
  intros Ht Hs.
  destruct (replace1_const r t s) as [->|(pre & suf & pv & pv' & s' & -> & Hd & ->)];
    [exact Hs|].
  apply den_suffix in Hd as [ds ->]. rewrite !noSpace_app in Hs |- *.
  apply andb_prop in Hs as [Hp Hs]. apply andb_prop in Hs as [_ Hs].
  rewrite Hp, Ht, Hs. reflexivity.
Qed.

(** X9.  A brand label holds no blank, whatever the name. *)
Theorem normalizeBrand_no_blank (name : option str) :
  noSpace (normalizeBrand name) = true.
Proof.
  destruct name as [[|a s]|]; [reflexivity| |reflexivity].
  unfold normalizeBrand. do 2 (apply replace1_noSpace; [reflexivity|]).
  rewrite split_spec. apply noSpace_join, Forall_map.
  eapply Forall_impl; [|apply fieldsOf_noSpace]. apply noSpace_titleCase.
Qed.

(** ** The days of the chart *)

(** [parseDate] takes from the clock the local year only. *)
Lemma parseDateAt_year rt now1 now2 ts :
  getFullYear rt now1 = getFullYear rt now2 -> parseDateAt rt now1 ts = parseDateAt rt now2 ts.
Proof.
  intros E. unfold parseDateAt, parseCleaned. rewrite E. reflexivity.
Qed.

Section OneYear.
Variable rt : Runtime.
Variable tl : Timeline.
Variable now : Date.
Hypothesis same_year : forall i, getFullYear rt (tl i) = getFullYear rt now.

Lemma parseDate_one_year ts n :
  fst (parseDate rt ts tl n) = parseDateAt rt now ts.
Proof.
  rewrite parseDate_run. destruct ts as [[|a s]|]; try reflexivity.
  cbn [fst]. apply parseDateAt_year, same_year.
Qed.

Lemma perDay_counts tickets : forall acc n,
  fst (forEachM (fun t counts =>
                   o <- parseDate rt (selectedDate t) ;;
                   match o with
                   | None => ret counts
                   | Some d => ret (bump (dateKey rt d) counts)
                   end) tickets acc tl n)
  = fold_left (fun counts t =>
                 match chartKeyAt rt now t with
                 | Some k => bump k counts
                 | None => counts
                 end) tickets acc.
Proof.
  induction tickets as [|t tickets IH]; intros acc n; [reflexivity|].
  cbn [forEachM fold_left]. unfold bind at 1. unfold bind at 1.
  pose proof (parseDate_one_year (selectedDate t) n) as E.
  destruct (parseDate rt (selectedDate t) tl n) as [o n1]. cbn [fst] in E. subst o.
  unfold chartKeyAt. destruct (parseDateAt rt now (selectedDate t)) as [d|];
    cbn [ret option_map]; apply IH.
Qed.

Lemma filtered_one_year k tickets : forall n,
  fst (filteredTickets rt k tickets tl n)
  = filter (fun t => keyIs k (filterKeyAt rt now t)) tickets.
Proof.
  intros n. unfold filteredTickets. apply filterM_fixed. intros t i.
  unfold bind. pose proof (parseDate_one_year (selectedDate t) i) as E.
  destruct (parseDate rt (selectedDate t) tl i) as [o n1]. cbn [fst] in E. subst o.
  unfold filterKeyAt, keyIs. destruct (parseDateAt rt now (selectedDate t)); reflexivity.
Qed.
End OneYear.

Lemma fold_keys {A} (key : A -> option str) (l : list A) : forall acc,
  fold_left (fun counts t => match key t with Some k => bump k counts | None => counts end)
            l acc
  = tally (fun k => k) (keysOf key l) acc.
Proof.
  unfold tally, keysOf. induction l as [|t l IH]; intros acc; [reflexivity|].
  cbn [fold_left flat_map]. rewrite fold_left_app, IH.
  destruct (key t); reflexivity.
Qed.

Lemma count_keys {A} (key : A -> option str) (l : list A) (k : str) :
  length (filter (fun x => str_eqb x k) (keysOf key l))
  = length (filter (fun t => keyIs k (key t)) l).
Proof.
  unfold keysOf, keyIs. induction l as [|t l IH]; [reflexivity|].
  cbn [flat_map filter]. rewrite filter_app, length_app, IH.
  destruct (key t) as [k'|]; [|reflexivity].
  cbn [filter]. destruct (str_eqb k' k); reflexivity.
Qed.

Lemma length_keysOf {A} (key : A -> option str) (l : list A) :
  length (keysOf key l)
  = length (filter (fun t => match key t with Some _ => true | None => false end) l).
Proof.
  unfold keysOf. induction l as [|t l IH]; [reflexivity|].
  cbn [flat_map filter]. rewrite length_app, IH. destruct (key t); reflexivity.
Qed.

Lemma in_keysOf {A} (key : A -> option str) (l : list A) (k : str) :
  In k (keysOf key l) <-> exists t, In t l /\ key t = Some k.
Proof.
  unfold keysOf. rewrite in_flat_map. split; intros (t & Ht & H); exists t; (split; [exact Ht|]).
  - destruct (key t) as [k'|]; [|destruct H]. destruct H as [-> | []]. reflexivity.
  - rewrite H. left. reflexivity.
Qed.

Lemma keys_perm (counts : counter) :
  Permutation (sortBy localeCompare (keys counts)) (map fst counts).
Proof.
  rewrite sortBy_perm. unfold keys. apply Permutation_map, entries_perm.
Qed.

Lemma listed_keys (counts : counter) : map fst (listed counts) = sortBy localeCompare (keys counts).
Proof.
  unfold listed. rewrite map_map. cbn [fst]. apply map_id.
Qed.

Lemma listed_entries (counts : counter) (k : str) (c : Z) :
  NoDup (map fst counts) -> (In (k, c) (listed counts) <-> In (k, c) counts).
Proof.
  intros Hn. unfold listed. rewrite in_map_iff. split.
  - intros (k' & E & Hin). injection E as -> <-.
    apply key_has_count. eapply Permutation_in; [apply keys_perm | exact Hin].
  - intros Hin. exists k. rewrite (nodup_count k c counts Hn Hin). split; [reflexivity|].
    eapply Permutation_in; [symmetry; apply keys_perm|].
    apply (in_map fst) in Hin. exact Hin.
Qed.

Lemma localeCompare_total x y : 0 < localeCompare x y -> localeCompare y x <= 0.
Proof. rewrite (localeCompare_flip x y). lia. Qed.

Lemma sorted_keys (l : list str) :
  NoDup l -> StronglySorted (fun a b => localeCompare a b < 0) (sortBy localeCompare l).
Proof.
  intros Hn.
  assert (Hd : NoDup (sortBy localeCompare l)).
  { eapply Permutation_NoDup; [symmetry; apply sortBy_perm | exact Hn]. }
  pose proof (sortBy_sorted localeCompare localeCompare_total l) as Hs.
  cbv zeta in Hs. revert Hd Hs. generalize (sortBy localeCompare l). clear l Hn.
  intros l Hd Hs. apply Sorted_StronglySorted.
  - intros a b c. apply localeCompare_trans.
  - induction Hs as [|a l Hs IH Hhd]; [constructor|].
    inversion Hd as [|? ? Ha Hd']; subst. constructor; [apply IH, Hd'|].
    destruct Hhd as [|b l Hab]; constructor.
    assert (localeCompare a b <> 0).
    { rewrite localeCompare_eq. intros ->. apply Ha. left. reflexivity. }
    lia.
Qed.

Lemma StronglySorted_map {A B} (f : A -> B) (R : B -> B -> Prop) (l : list A) :
  StronglySorted R (map f l) -> StronglySorted (fun a b => R (f a) (f b)) l.
Proof.
  induction l as [|a l IH]; cbn [map]; intros H; [constructor|].
  inversion H as [|? ? Hs Hall]; subst. constructor; [apply IH, Hs|].
  rewrite Forall_map in Hall. exact Hall.
Qed.

Lemma StronglySorted_weaken {A} (R R' : A -> A -> Prop) (l : list A) :
  (forall a b, In a l -> In b l -> R a b -> R' a b) ->
  StronglySorted R l -> StronglySorted R' l.
Proof.
  intros H Hs. induction Hs as [|a l Hs IH Hall]; [constructor|].
  constructor.
  - apply IH. intros x y Hx Hy. apply H; right; assumption.
  - rewrite Forall_forall in *. intros b Hb. apply H; [left; reflexivity | right; exact Hb|].
    apply Hall, Hb.
Qed.

Section PerDay.
Variable rt : Runtime.
Variable tl : Timeline.
Hypothesis same_year : forall i, getFullYear rt (tl i) = getFullYear rt (tl 0%nat).

Let now := tl 0%nat.
Let counts (tickets : list TicketItem) : counter :=
  tally (fun k => k) (keysOf (chartKeyAt rt now) tickets) [].

Lemma ticketsPerDay_listed tickets :
  runClock (ticketsPerDay rt tickets) tl = listed (counts tickets).
Proof.
  unfold runClock, ticketsPerDay, bind.
  match goal with |- context [forEachM ?f tickets [] tl 0%nat] =>
    assert (E : fst (forEachM f tickets [] tl 0%nat)
                = fold_left (fun counts t =>
                               match chartKeyAt rt now t with
                               | Some k => bump k counts
                               | None => counts
                               end) tickets [])
      by apply (perDay_counts rt tl now same_year);
    destruct (forEachM f tickets [] tl 0%nat) as [c n] end.
  cbn [fst] in E. subst c. cbn [ret fst]. rewrite fold_keys. reflexivity.
Qed.

Lemma counts_nodup tickets : NoDup (map fst (counts tickets)).
Proof. apply tally_nodup. constructor. Qed.

(** One entry for each day on which a ticket falls, with the number of
    tickets of that day. *)
Lemma perDay_member tickets k c :
  In (k, c) (runClock (ticketsPerDay rt tickets) tl) <->
  c = Z.of_nat (length (filter (fun t => keyIs k (chartKeyAt rt now t)) tickets)) /\ 1 <= c.
Proof.
  rewrite ticketsPerDay_listed, (listed_entries _ _ _ (counts_nodup tickets)).
  unfold counts. rewrite tally_entries, count_keys. reflexivity.
Qed.

Lemma perDay_keys_sorted tickets :
  StronglySorted (fun a b => localeCompare (fst a) (fst b) < 0)
                 (runClock (ticketsPerDay rt tickets) tl).
Proof.
  apply (StronglySorted_map fst (fun a b => localeCompare a b < 0)).
  rewrite ticketsPerDay_listed, listed_keys.
  apply sorted_keys. eapply Permutation_NoDup; [|apply (counts_nodup tickets)].
  symmetry. unfold keys. apply Permutation_map, entries_perm.
Qed.

Lemma perDay_key_date tickets k c :
  In (k, c) (runClock (ticketsPerDay rt tickets) tl) ->
  exists t d, In t tickets /\ parseDateAt rt now (selectedDate t) = Some d
              /\ k = dateKey rt d
              /\ 2000 <= getFullYear rt d <= getFullYear rt now + 2.
Proof.
  rewrite ticketsPerDay_listed, (listed_entries _ _ _ (counts_nodup tickets)).
  intros Hin. apply (in_map fst) in Hin. cbn [fst] in Hin.
  apply tally_keys in Hin as [[] | (k' & Hk & ->)].
  apply in_keysOf in Hk as (t & Ht & Hk). unfold chartKeyAt in Hk.
  destruct (parseDateAt rt now (selectedDate t)) as [d|] eqn:Ed; [|discriminate].
  injection Hk as <-. exists t, d. repeat split; try assumption.
  - unfold parseDateAt in Ed. destruct (selectedDate t) as [[|a s]|]; try discriminate.
    apply parseCleaned_sane, saneYear_bounds in Ed. lia.
  - unfold parseDateAt in Ed. destruct (selectedDate t) as [[|a s]|]; try discriminate.
    apply parseCleaned_sane, saneYear_bounds in Ed. lia.
Qed.
End PerDay.

(** X12.  While the clock stays within one local year, [ticketsPerDay] has
    one entry for each day key borne by a ticket whose date parses, with the
    number of those tickets; a ticket whose date does not parse is in no
    entry. *)
Theorem ticketsPerDay_entries (rt : Runtime) (tl : Timeline) (tickets : list TicketItem) :
  (forall i, getFullYear rt (tl i) = getFullYear rt (tl 0%nat)) ->
  NoDup (map fst (runClock (ticketsPerDay rt tickets) tl))
  /\ (forall k c,
        In (k, c) (runClock (ticketsPerDay rt tickets) tl) <->
        c = Z.of_nat (length (filter (fun t => keyIs k (chartKeyAt rt (tl 0%nat) t)) tickets))
        /\ 1 <= c)
  /\ total (runClock (ticketsPerDay rt tickets) tl)
     = Z.of_nat (length (filter (fun t => match chartKeyAt rt (tl 0%nat) t with
                                          | Some _ => true
                                          | None => false
                                          end) tickets)).
Proof.
  intros Hy. split; [|split].
  - rewrite (ticketsPerDay_listed rt tl Hy), listed_keys.
    eapply Permutation_NoDup; [symmetry; apply keys_perm|]. apply tally_nodup. constructor.
  - intros k c. apply (perDay_member rt tl Hy).
  - rewrite (ticketsPerDay_listed rt tl Hy).
    assert (P : Permutation (listed (tally (fun k => k) (keysOf (chartKeyAt rt (tl 0%nat)) tickets) []))
                            (tally (fun k => k) (keysOf (chartKeyAt rt (tl 0%nat)) tickets) [])).
    { apply NoDup_Permutation.
      - apply (NoDup_map_inv fst). rewrite listed_keys.
        eapply Permutation_NoDup; [symmetry; apply keys_perm|]. apply tally_nodup. constructor.
      - apply (NoDup_map_inv fst). apply tally_nodup. constructor.
      - intros [k c]. apply listed_entries. apply tally_nodup. constructor. }
    rewrite (total_perm P), tally_total. cbn [total map fold_right Z.add]. f_equal.
    apply length_keysOf.
Qed.

Lemma ticketsPerDay_entries_witness :
  runClock (ticketsPerDay refRuntime
              [ticketDated "Oct 14, 2025, 03:14 AM"; ticketDated "2025-10-14T03:14:00Z";
               ticketDated "no date"; ticketDated "Oct 13 2025 02:19:42 PM"]) refTimeline
  = [(lit "2025-10-13", 1); (lit "2025-10-14", 2)]
  /\ total (runClock (ticketsPerDay refRuntime
                        [ticketDated "Oct 14, 2025, 03:14 AM";
                         ticketDated "2025-10-14T03:14:00Z"; ticketDated "no date";
                         ticketDated "Oct 13 2025 02:19:42 PM"]) refTimeline) = 3.
Proof.
  split; [vm_compute; reflexivity|].
  destruct (ticketsPerDay_entries refRuntime refTimeline
              [ticketDated "Oct 14, 2025, 03:14 AM"; ticketDated "2025-10-14T03:14:00Z";
               ticketDated "no date"; ticketDated "Oct 13 2025 02:19:42 PM"])
    as (_ & _ & T).
  - intros i. reflexivity.
  - rewrite T. vm_compute. reflexivity.
Defined.

(** X13.  While the clock stays within one local year, no later than 9997,
    the days of [ticketsPerDay] come in calendar order: an entry is the key of
    an earlier local day than every entry after it. *)
Theorem ticketsPerDay_chronological (rt : Runtime) (tl : Timeline)
        (tickets : list TicketItem) :
  (forall i, getFullYear rt (tl i) = getFullYear rt (tl 0%nat)) ->
  getFullYear rt (tl 0%nat) <= 9997 ->
  StronglySorted
    (fun a b => forall d1 d2, dateKey rt d1 = fst a -> dateKey rt d2 = fst b ->
                              Day (LocalTime rt d1) < Day (LocalTime rt d2))
    (runClock (ticketsPerDay rt tickets) tl).
Proof.
  intros Hy Hmax.
  eapply StronglySorted_weaken; [|apply (perDay_keys_sorted rt tl Hy)].
  intros [ka ca] [kb cb] Ha Hb Hlt d1 d2 E1 E2. cbn [fst] in *.
  apply (perDay_key_date rt tl Hy) in Ha as (ta & da & _ & _ & Ea & Ya).
  apply (perDay_key_date rt tl Hy) in Hb as (tb & db & _ & _ & Eb & Yb).
  subst ka kb. apply dateKey_same_day in E1, E2. rewrite E1, E2.
  apply dateKeyUTC_order_days in Hlt; [exact Hlt | |]; unfold getFullYear in *; lia.
Qed.

Lemma ticketsPerDay_chronological_witness :
  StronglySorted
    (fun a b => forall d1 d2, dateKey refRuntime d1 = fst a -> dateKey refRuntime d2 = fst b ->
                              Day (LocalTime refRuntime d1) < Day (LocalTime refRuntime d2))
    (runClock (ticketsPerDay refRuntime
                 [ticketDated "Oct 14, 2025, 03:14 AM"; ticketDated "2025-10-14T03:14:00Z";
                  ticketDated "Oct 13 2025 02:19:42 PM"]) refTimeline).
Proof.
  apply (ticketsPerDay_chronological refRuntime refTimeline).
  - intros i. reflexivity.
  - vm_compute. discriminate.
Defined.

(** ** The date filter and the chart *)

Lemma dateKeyUTC_nonempty d : dateKeyUTC d <> [].
Proof.
  unfold dateKeyUTC. intros E. apply app_eq_nil in E as [_ E]. discriminate.
Qed.

Lemma dateKey_utc_zone rt d :
  (forall x, LocalTZA rt x true = 0) -> dateKey rt d = dateKeyUTC d.
Proof.
  intros H. unfold dateKey, dateKeyUTC, getFullYear, getMonth, getDate, getUTCFullYear,
    getUTCMonth, getUTCDate, LocalTime.
  rewrite H, Z.add_0_r. reflexivity.
Qed.

Lemma filterKey_chartKey rt now t :
  isIsoUTC (selectedDate t) = false \/ (forall x, LocalTZA rt x true = 0) ->
  filterKeyAt rt now t = chartKeyAt rt now t.
Proof.
  unfold filterKeyAt, chartKeyAt. intros [H | H].
  - rewrite H. reflexivity.
  - destruct (parseDateAt rt now (selectedDate t)) as [d|]; [|reflexivity].
    cbn [option_map]. rewrite (dateKey_utc_zone rt d H). destruct (isIsoUTC _); reflexivity.
Qed.

(** X14.  While the clock stays within one local year, and when no ticket
    bears an ISO timestamp in UTC or the local zone is UTC, selecting a
    day of the chart lists as many tickets as the chart counts for that
    day. *)
Theorem filter_lists_the_day (rt : Runtime) (tl tl' : Timeline) (tickets : list TicketItem)
        (k : str) (c : Z) :
  (forall i, getFullYear rt (tl i) = getFullYear rt (tl 0%nat)) ->
  (forall i, getFullYear rt (tl' i) = getFullYear rt (tl 0%nat)) ->
  (forall t, In t tickets -> isIsoUTC (selectedDate t) = false)
  \/ (forall x, LocalTZA rt x true = 0) ->
  In (k, c) (runClock (ticketsPerDay rt tickets) tl) ->
  Z.of_nat (length (runClock (filteredTicketsOf rt (Some k) tickets) tl')) = c.
Proof.
  intros Hy Hy' Hz Hin.
  pose proof (perDay_key_date rt tl Hy tickets k c Hin) as (t0 & d0 & _ & _ & Ek & _).
  apply (perDay_member rt tl Hy) in Hin as [-> _].
  unfold filteredTicketsOf. destruct k as [|a k].
  { exfalso. symmetry in Ek. revert Ek. apply (dateKeyUTC_nonempty (LocalTime rt d0)). }
  unfold runClock. rewrite (filtered_one_year rt tl' (tl 0%nat) Hy').
  f_equal. f_equal. apply filter_ext_in. intros t Ht. f_equal.
  apply filterKey_chartKey. destruct Hz as [Hz | Hz]; [left; apply Hz, Ht | right; exact Hz].
Qed.

Lemma filter_lists_the_day_witness :
  Z.of_nat (length (runClock (filteredTicketsOf refRuntime (Some (lit "2025-10-14"))
                                [ticketDated "Oct 14, 2025, 03:14 AM";
                                 ticketDated "Oct 13 2025 02:19:42 PM"]) refTimeline)) = 1.
Proof.
  apply (filter_lists_the_day refRuntime refTimeline refTimeline
           [ticketDated "Oct 14, 2025, 03:14 AM"; ticketDated "Oct 13 2025 02:19:42 PM"]
           (lit "2025-10-14") 1).
  - intros i. reflexivity.
  - intros i. reflexivity.
  - left. intros t [<- | [<- | []]]; vm_compute; reflexivity.
  - vm_compute. right. left. reflexivity.
Defined.

(** ** The label of a day *)

Lemma splitDash_digits x : forall s cur,
  allDigits x = true -> splitDash_from (x ++ s) cur = splitDash_from s (rev x ++ cur).
Proof.
  induction x as [|a x IH]; intros s cur H; [reflexivity|].
  unfold allDigits in H. cbn [forallb] in H. apply andb_prop in H as [Ha Hx].
  cbn [app splitDash_from]. rewrite (proj2 (digit_not_sign a Ha)).
  rewrite (IH s (a :: cur) Hx). cbn [rev]. rewrite <- app_assoc. reflexivity.
Qed.

Lemma splitDash_ymd Y M D :
  allDigits Y = true -> allDigits M = true -> allDigits D = true ->
  splitDash (Y ++ lit "-" ++ M ++ lit "-" ++ D) = [Y; M; D].
Proof.
  intros HY HM HD. unfold splitDash.
  rewrite (splitDash_digits Y _ _ HY). cbn [lit list_ascii_of_string app splitDash_from].
  change (ascii_eqb "-" "-") with true. cbv iota.
  rewrite (splitDash_digits M _ _ HM). cbn [app splitDash_from].
  change (ascii_eqb "-" "-") with true. cbv iota.
  rewrite <- (app_nil_r D) at 1. rewrite (splitDash_digits D _ _ HD).
  cbn [splitDash_from]. rewrite !app_nil_r, !rev_involutive. reflexivity.
Qed.

(** X15.  In a zone at a fixed offset from UTC, the date that labels the
    key of a date [d] of the year 100 or later is the local midnight that
    starts the day of [d]: its key is the key of [d] again. *)
Theorem labelDate_of_key (rt : Runtime) (off : Z) (d : Date) :
  (forall t b, LocalTZA rt t b = off) ->
  100 <= getFullYear rt d ->
  labelDate rt (dateKey rt d) = TimeClip (Day (LocalTime rt d) * msPerDay - off)
  /\ forall d', labelDate rt (dateKey rt d) = Some d' ->
                dateKey rt d' = dateKey rt d /\ d' <= d.
Proof.
  intros Hoff Hy.
  assert (E : labelDate rt (dateKey rt d) = TimeClip (Day (LocalTime rt d) * msPerDay - off)).
  { unfold labelDate, dateKey.
    destruct (civil_ranges (Day (LocalTime rt d))) as [Hm Hd].
    destruct (NumberToString_digits (getFullYear rt d) ltac:(lia)) as (DY & NY & _).
    assert (Hm' : 0 <= getMonth rt d + 1 <= 99) by (unfold getMonth, MonthFromTime; lia).
    assert (Hd' : 0 <= getDate rt d <= 99) by (unfold getDate, DateFromTime; lia).
    destruct (@padded2 _ Hm') as [_ DM]. destruct (@padded2 _ Hd') as [_ DD].
    rewrite (splitDash_ymd _ _ _ DY DM DD). cbn [map]. unfold NumberOfDigits.
    rewrite DY, DM, DD, NY, !Number_pad2 by lia.
    unfold newDateFields.
    replace ((0 <=? getFullYear rt d) && (getFullYear rt d <=? 99)) with false
      by (symmetry; apply andb_false_iff; right; apply Z.leb_gt; lia).
    replace (getMonth rt d + 1 - 1) with (getMonth rt d) by lia.
    unfold getFullYear, getMonth, getDate.
    rewrite <- (Z.add_0_r (DateFromTime (LocalTime rt d))), MakeDay_fields.
    unfold UTC, MakeDate, MakeTime. rewrite Hoff. f_equal. lia. }
  split; [exact E|]. intros d' E'. rewrite E in E'. unfold TimeClip in E'.
  destruct (Z.abs _ <=? _); [|discriminate]. injection E' as <-. split.
  - apply dateKey_same_day. unfold LocalTime. rewrite !Hoff. unfold Day, msPerDay.
    Z.div_mod_to_equations. lia.
  - unfold LocalTime. rewrite Hoff. unfold Day, msPerDay. Z.div_mod_to_equations. lia.
Qed.

Lemma labelDate_of_key_witness :
  dateKey refRuntime 1760404440000 = lit "2025-10-14"
  /\ labelDate refRuntime (dateKey refRuntime 1760404440000)
     = TimeClip (Day (LocalTime refRuntime 1760404440000) * msPerDay - 7200000).
Proof.
  split; [vm_compute; reflexivity|].
  apply (labelDate_of_key refRuntime 7200000 1760404440000).
  - intros t b. reflexivity.
  - vm_compute. discriminate.
Defined.

(** ** Today and yesterday do not overlap *)

Lemma dateKeyUTC_not_NaN d : dateKeyUTC d <> lit "NaN-NaN-NaN".
Proof.
  unfold dateKeyUTC. intros E. set (y := getUTCFullYear d) in *.
  destruct (Z.ltb_spec y 0) as [Hn | Hp].
  - rewrite (NumberToString_neg y Hn) in E. discriminate.
  - destruct (NumberToString_digits y Hp) as (D & _ & Hne & _).
    destruct (NumberToString y) as [|c s]; [contradiction|].
    unfold allDigits in D. cbn [forallb] in D. apply andb_prop in D as [D _].
    cbn [app lit list_ascii_of_string] in E. injection E as -> _. discriminate.
Qed.

Lemma str_eqb_neq s t : s <> t -> str_eqb s t = false.
Proof.
  intros H. destruct (str_eqb s t) eqn:E; [|reflexivity].
  apply str_eqb_eq in E. contradiction.
Qed.

Lemma utc_yesterday_differs now d :
  dateKeyUTC d = dateKeyUTC now ->
  str_eqb (dateKeyUTC d) (dateKeyUTCOf (TimeClip (now - 24 * 60 * 60 * 1000))) = false.
Proof.
  intros E. apply str_eqb_neq. unfold dateKeyUTCOf, TimeClip.
  destruct (Z.abs _ <=? _); [|apply dateKeyUTC_not_NaN].
  rewrite E. intros C. apply dateKeyUTC_same_day in C. unfold Day, msPerDay in C.
  Z.div_mod_to_equations. lia.
Qed.

Lemma local_yesterday_differs rt off now d :
  (forall t b, LocalTZA rt t b = off) ->
  2000 <= getFullYear rt d ->
  dateKey rt d = dateKey rt now ->
  str_eqb (dateKey rt d) (dateKeyOf rt (yesterdayOf rt now)) = false.
Proof.
  intros Hoff Hy E. apply str_eqb_neq.
  assert (Ey : getFullYear rt now = getFullYear rt d).
  { apply dateKey_same_day in E. unfold getFullYear, YearFromTime. rewrite E. reflexivity. }
  rewrite (@yesterdayOf_fixed_offset rt off now Hoff) by lia.
  unfold dateKeyOf, TimeClip.
  destruct (Z.abs _ <=? _); [|apply (dateKeyUTC_not_NaN (LocalTime rt d))].
  rewrite E. intros C. apply dateKey_same_day in C. unfold LocalTime in C. rewrite !Hoff in C.
  unfold Day, msPerDay in C. Z.div_mod_to_equations. lia.
Qed.

Lemma exclusive_filters {A} (p q : A -> bool) (l : list A) :
  (forall x, p x = true -> q x = false) ->
  (length (filter p l) + length (filter q l) <= length l)%nat.
Proof.
  intros H. induction l as [|x l IH]; [cbn; lia|].
  cbn [filter length]. destruct (p x) eqn:Ep.
  - rewrite (H x Ep). cbn [length]. lia.
  - destruct (q x); cbn [length]; lia.
Qed.

Lemma isToday_not_yesterday rt off now t :
  (forall x b, LocalTZA rt x b = off) ->
  isTodayAt rt now t = true -> isYesterdayAt rt now t = false.
Proof.
  intros Hoff. unfold isTodayAt, isYesterdayAt.
  destruct (parseDateAt rt now (selectedDate t)) as [d|] eqn:Ed; [|discriminate].
  destruct (isIsoUTC (selectedDate t)).
  - intros H. apply str_eqb_eq in H. apply utc_yesterday_differs, H.
  - intros H. apply str_eqb_eq in H. apply (local_yesterday_differs rt off now d Hoff); [|exact H].
    unfold parseDateAt in Ed. destruct (selectedDate t) as [[|a s]|]; try discriminate.
    apply parseCleaned_sane, saneYear_bounds in Ed. lia.
Qed.

(** X16.  At one evaluation instant, in a zone at a fixed offset from UTC,
    no ticket is counted both today and yesterday, so the two counts
    together never exceed the number of tickets. *)
Theorem today_excludes_yesterday (rt : Runtime) (off : Z) (now : Date) :
  (forall x b, LocalTZA rt x b = off) ->
  (forall t, isTodayAt rt now t = true -> isYesterdayAt rt now t = false)
  /\ forall tickets,
       (fst (countsAt rt now tickets) + snd (countsAt rt now tickets) <= length tickets)%nat.
Proof.
  intros Hoff. split; [intros t; apply (isToday_not_yesterday rt off now t Hoff)|].
  intros tickets. unfold countsAt. cbn [fst snd]. apply exclusive_filters.
  intros t. apply (isToday_not_yesterday rt off now t Hoff).
Qed.

Lemma today_excludes_yesterday_witness :
  isTodayAt refRuntime 1760411640000 (ticketDated "Oct 14, 2025, 03:14 AM") = true
  /\ isYesterdayAt refRuntime 1760411640000 (ticketDated "Oct 14, 2025, 03:14 AM") = false.
Proof.
  split; [vm_compute; reflexivity|].
  apply (proj1 (today_excludes_yesterday refRuntime 7200000 1760411640000
                  (fun x b => eq_refl))).
  vm_compute. reflexivity.
Defined.

(** ** The earlier day comparison *)

Lemma same_fields_same_day t1 t2 :
  (YearFromTime t1 =? YearFromTime t2) && (MonthFromTime t1 =? MonthFromTime t2)
  && (DateFromTime t1 =? DateFromTime t2) = true
  <-> Day t1 = Day t2.
Proof.
  unfold YearFromTime, MonthFromTime, DateFromTime. split.
  - intros H. apply andb_prop in H as [H Hd]. apply andb_prop in H as [Hy Hm].
    apply Z.eqb_eq in Hy, Hm, Hd. apply civil_inj.
    destruct (civilFromDays (Day t1)) as [[y1 m1] d1].
    destruct (civilFromDays (Day t2)) as [[y2 m2] d2]. cbn [fst snd] in *.
    f_equal; [f_equal|]; lia.
  - intros ->. rewrite !Z.eqb_refl. reflexivity.
Qed.

(** X25.  The comparison of the earlier version and the keys of the
    current one tell the same days apart: [sameDay] holds exactly when the text
    is read by the native parser as a date that has the key of the
    anchor. *)
Theorem sameDay_compares_keys (rt : Runtime) (ts : option str) (anchor : Date) :
  sameDay rt ts (Some anchor) = true <->
  exists s d, ts = Some s /\ s <> [] /\ newDateString rt s = Some d
              /\ dateKey rt d = dateKey rt anchor.
Proof.
  unfold sameDay. destruct ts as [[|c s]|].
  - split; [discriminate | intros (s & d & E & H & _); injection E as <-; contradiction].
  - destruct (newDateString rt (c :: s)) as [d|] eqn:E.
    + unfold getFullYear, getMonth, getDate.
      rewrite (same_fields_same_day (LocalTime rt d) (LocalTime rt anchor)),
        <- dateKey_same_day.
      split.
      * intros H. exists (c :: s), d. repeat split; try assumption. discriminate.
      * intros (s' & d' & Es & _ & Ed & H). injection Es as <-. rewrite E in Ed.
        injection Ed as <-. exact H.
    + split; [discriminate|]. intros (s' & d' & Es & _ & Ed & _). injection Es as <-.
      rewrite E in Ed. discriminate.
  - split; [discriminate | intros (s & d & E & _); discriminate].
Qed.

(** X26.  In a zone at a fixed offset from UTC, [startOfDay] of a date of
    the year 100 or later is the local midnight that starts its day: it
    has the key of the date, is not after it, and is its own start of
    day. *)
Theorem startOfDay_is_local_midnight (rt : Runtime) (off : Z) (d : Date) :
  (forall t b, LocalTZA rt t b = off) ->
  100 <= getFullYear rt d ->
  startOfDay rt d = TimeClip (Day (LocalTime rt d) * msPerDay - off)
  /\ forall d', startOfDay rt d = Some d' ->
                dateKey rt d' = dateKey rt d /\ d' <= d /\ startOfDay rt d' = Some d'.
Proof.
  intros Hoff Hy.
  assert (Hs : forall x, 100 <= getFullYear rt x ->
                         startOfDay rt x = TimeClip (Day (LocalTime rt x) * msPerDay - off)).
  { intros x Hx. unfold startOfDay, newDateFields.
    replace ((0 <=? getFullYear rt x) && (getFullYear rt x <=? 99)) with false
      by (symmetry; apply andb_false_iff; right; apply Z.leb_gt; lia).
    unfold getFullYear, getMonth, getDate.
    rewrite <- (Z.add_0_r (DateFromTime (LocalTime rt x))), MakeDay_fields.
    unfold UTC, MakeDate, MakeTime. rewrite Hoff. f_equal. lia. }
  split; [apply Hs, Hy|]. intros d' E. rewrite (Hs d Hy) in E.
  assert (Ed : d' = Day (LocalTime rt d) * msPerDay - off).
  { unfold TimeClip in E. destruct (Z.abs _ <=? _); [|discriminate].
    injection E as <-. reflexivity. }
  assert (Hday : Day (LocalTime rt d') = Day (LocalTime rt d)).
  { rewrite Ed. unfold LocalTime. rewrite !Hoff. unfold Day, msPerDay.
    Z.div_mod_to_equations. lia. }
  split; [apply dateKey_same_day, Hday|]. split.
  - rewrite Ed. unfold LocalTime. rewrite Hoff. unfold Day, msPerDay.
    Z.div_mod_to_equations. lia.
  - rewrite Hs.
    + rewrite Hday. exact E.
    + unfold getFullYear, YearFromTime in *. rewrite Hday. exact Hy.
Qed.

Lemma startOfDay_is_local_midnight_witness :
  startOfDay refRuntime 1760404440000
  = TimeClip (Day (LocalTime refRuntime 1760404440000) * msPerDay - 7200000)
  /\ TimeClip (Day (LocalTime refRuntime 1760404440000) * msPerDay - 7200000)
     = Some 1760392800000.
Proof.
  split; [|vm_compute; reflexivity].
  apply (startOfDay_is_local_midnight refRuntime 7200000 1760404440000).
  - intros t b. reflexivity.
  - vm_compute. discriminate.
Defined.

(** ** The handlers and the database *)

Lemma getField_run v k w tl st :
  getField v k w tl st
  = (match v with JNull => Err (Thrown "TypeError") | _ => Ok (field v k) end, st).
Proof. destruct v; reflexivity. Qed.

Lemma timestampOf_run rt o w tl st :
  exists s n',
    parseDateToMySQL rt (dateArg o) tl (readings st) = (Normal s, n')
    /\ timestampOf rt o w tl st = (Ok (JStr s), HState (trace st) (executes st) n' (conn st)).
Proof.
  destruct (parseDateToMySQL_total rt (dateArg o) tl (readings st)) as (s & E).
  unfold timestampOf, hbind, liftClock.
  destruct (parseDateToMySQL rt (dateArg o) tl (readings st)) as [r n'].
  cbn [fst] in E. subst r. exists s, n'. split; reflexivity.
Qed.

Lemma quiet_ret {A} (a : A) : quietStep (hret a).
Proof. intros w tl st r st' E. injection E as _ <-. auto. Qed.

Lemma quiet_throw {A} e : quietStep (@throw A e).
Proof. intros w tl st r st' E. injection E as _ <-. auto. Qed.

Lemma quiet_getField v k : quietStep (getField v k).
Proof. intros w tl st r st' E. rewrite getField_run in E. injection E as _ <-. auto. Qed.

Lemma quiet_timestampOf rt o : quietStep (timestampOf rt o).
Proof.
  intros w tl st r st' E. destruct (timestampOf_run rt o w tl st) as (s & n' & _ & E').
  rewrite E' in E. injection E as _ <-. auto.
Qed.

Lemma quiet_iterate v : quietStep (iterate v).
Proof.
  intros w tl st r st' E. destruct v as [[| | | | |]|]; injection E as _ <-; auto.
Qed.

Lemma quiet_bind {A B} (c : Handler A) (k : A -> Handler B) :
  quietStep c -> (forall a, quietStep (k a)) -> quietStep (hbind c k).
Proof.
  intros Hc Hk w tl st r st' E. unfold hbind in E.
  destruct (c w tl st) as [[a|e] st1] eqn:E1.
  - destruct (Hc _ _ _ _ _ E1) as (T1 & C1 & X1).
    destruct (Hk a _ _ _ _ _ E) as (T2 & C2 & X2). repeat split; congruence.
  - injection E as _ <-. exact (Hc _ _ _ _ _ E1).
Qed.

Lemma db_quiet {A} (c : Handler A) : quietStep c -> dbStep c.
Proof.
  intros Hc w tl st r st' E. destruct (Hc _ _ _ _ _ E) as (T & C & _).
  split; [exact C|]. exists []. rewrite app_nil_r. auto.
Qed.

Lemma db_query q ps : dbStep (query q ps).
Proof.
  intros w tl st r st' E. unfold query in E.
  destruct (executeFails w (executes st)); injection E as _ <-;
    (split; [reflexivity|]); exists [Execute q ps]; split; try reflexivity;
    repeat constructor.
Qed.

Lemma db_update q ps : dbStep (update q ps).
Proof.
  intros w tl st r st' E. unfold update in E.
  destruct (executeFails w (executes st)); injection E as _ <-;
    (split; [reflexivity|]); exists [Execute q ps]; split; try reflexivity;
    repeat constructor.
Qed.

Lemma db_bind {A B} (c : Handler A) (k : A -> Handler B) :
  dbStep c -> (forall a, dbStep (k a)) -> dbStep (hbind c k).
Proof.
  intros Hc Hk w tl st r st' E. unfold hbind in E.
  destruct (c w tl st) as [[a|e] st1] eqn:E1.
  - destruct (Hc _ _ _ _ _ E1) as (C1 & es1 & T1 & F1).
    destruct (Hk a _ _ _ _ _ E) as (C2 & es2 & T2 & F2).
    split; [congruence|]. exists (es1 ++ es2). rewrite T2, T1, app_assoc.
    split; [reflexivity | apply Forall_app; auto].
  - injection E as _ <-. exact (Hc _ _ _ _ _ E1).
Qed.

Lemma db_forEach {A} (f : A -> Handler unit) (l : list A) :
  (forall x, dbStep (f x)) -> dbStep (forEachH f l).
Proof.
  intros Hf. induction l as [|x l IH]; cbn [forEachH].
  - apply db_quiet, quiet_ret.
  - apply db_bind; [apply Hf | intros _; exact IH].
Qed.

Ltac steps :=
  repeat first
    [ apply quiet_ret | apply quiet_throw | apply quiet_getField | apply quiet_timestampOf
    | apply quiet_iterate
    | apply db_query | apply db_update
    | apply quiet_bind; [|intros ?] | apply db_bind; [|intros ?]
    | apply db_quiet ].

Lemma quiet_POST_timestamps rt data : quietStep (POST_timestamps rt data).
Proof. unfold POST_timestamps. steps. Qed.

Lemma db_POST_ticket data c u : dbStep (POST_ticket data c u).
Proof.
  unfold POST_ticket.
  apply db_bind; [apply db_quiet, quiet_getField | intros ticket_id].
  apply db_bind; [apply db_query | intros existing].
  do 7 (apply db_bind; [apply db_quiet, quiet_getField | intros ?]).
  apply db_bind; [|intros ?; apply db_quiet, quiet_ret].
  destruct existing; apply db_update.
Qed.

Lemma db_POST_message rt data msg : dbStep (POST_message rt data msg).
Proof.
  unfold POST_message.
  do 4 (apply db_bind; [apply db_quiet, quiet_getField | intros ?]).
  apply db_bind; [apply db_quiet, quiet_timestampOf | intros ?].
  apply db_bind; [apply db_update | intros ?; apply db_quiet, quiet_ret].
Qed.

Lemma db_POST_messages rt data : dbStep (POST_messages rt data).
Proof.
  unfold POST_messages.
  apply db_bind; [apply db_quiet, quiet_getField | intros messages].
  destruct (truthyOpt (lengthOf messages)); [|apply db_quiet, quiet_ret].
  apply db_bind; [apply db_quiet, quiet_iterate | intros items].
  apply db_forEach. intros msg. apply db_POST_message.
Qed.

Lemma settles_quiet {A} w (c : Handler A) : quietStep c -> settles w c.
Proof.
  intros Hc tl st r st' [Ht Hi] E. destruct (Hc _ _ _ _ _ E) as (T & C & _).
  left. split; congruence.
Qed.

Lemma settles_bind {A B} w (pre : Handler A) (k : A -> Handler B) :
  quietStep pre -> (forall a, settles w (k a)) -> settles w (hbind pre k).
Proof.
  intros Hpre Hk tl st r st' [Ht Hc] E. unfold hbind in E.
  destruct (pre w tl st) as [[a|e] st1] eqn:E1.
  - destruct (Hpre _ _ _ _ _ E1) as (T & C & _).
    apply (Hk a tl st1 r st'); [split; congruence | exact E].
  - injection E as _ <-. destruct (Hpre _ _ _ _ _ E1) as (T & C & _).
    left. split; congruence.
Qed.

Lemma settles_connect {B} w (post : unit -> Handler B) :
  dbStep (post tt) -> settles w (hbind connectDB post).
Proof.
  intros Hpost tl st r st' [Ht Hc] E. unfold hbind, connectDB in E.
  destruct (connectFails w) as [msg|] eqn:Ew.
  - injection E as _ <-. right; left. unfold refused, log. cbn [trace conn].
    rewrite Ht, Hc, Ew. repeat split. discriminate.
  - destruct (Hpost _ _ _ _ _ E) as (C2 & es & T2 & F2). right; right.
    unfold inSession. cbn [trace conn log] in *. rewrite C2. split; [reflexivity|].
    split; [exact Ew|]. exists es. rewrite T2, Ht. split; [reflexivity | exact F2].
Qed.

Lemma handle_bracket (handlerBody : Handler response) w tl n :
  settles w handlerBody -> wellBracketed w (trace (snd (handle handlerBody w tl n))).
Proof.
  intros H. unfold handle.
  destruct (handlerBody w tl (HState [] 0 n false)) as [r st] eqn:E.
  assert (Hi : idle (HState [] 0 n false)) by (split; reflexivity).
  destruct (H _ _ _ _ Hi E) as [[T C] | [(T & C & F) | (C & F & qs & T & Q)]].
  - rewrite C. cbn [snd]. rewrite T. constructor.
  - rewrite C. cbn [snd]. rewrite T. constructor. exact F.
  - rewrite C. destruct (endFails w); cbn [snd log trace]; rewrite T;
      apply (@wb_session w qs F Q).
Qed.

(** X19.  Whatever the request, the database and the clock, each handler
    leaves the database events of its call well bracketed: no event, or
    a refused connection, or a connection, statements only, and the end
    of the connection as the last event.  A connection that was opened
    is always closed, exactly once, and no statement runs outside it. *)
Theorem handlers_release_the_connection (rt : Runtime) (w : World) (tl : Timeline) (n : nat) :
  wellBracketed w (trace (snd (GET w tl n)))
  /\ (forall id, wellBracketed w (trace (snd (DELETE id w tl n))))
  /\ (forall request, wellBracketed w (trace (snd (POST rt request w tl n)))).
Proof.
  split; [|split].
  - unfold GET. apply handle_bracket, settles_connect.
    apply db_bind; [apply db_query | intros ?; apply db_quiet, quiet_ret].
  - intros id. unfold DELETE. apply handle_bracket.
    destruct id as [[|a ticketId]|]; try (apply settles_quiet, quiet_ret).
    apply settles_connect.
    apply db_bind; [apply db_update | intros [|k]; apply db_quiet, quiet_ret].
  - intros request. unfold POST. apply handle_bracket.
    apply settles_bind; [destruct request; [apply quiet_ret | apply quiet_throw]|].
    intros data. apply settles_bind; [apply quiet_POST_timestamps | intros stamps].
    apply settles_connect.
    apply db_bind; [apply db_POST_ticket | intros ?].
    apply db_bind; [apply db_POST_messages | intros ?; apply db_quiet, quiet_ret].
Qed.

(** *** The steps of [POST], one by one *)

Lemma json_null_dec (v : json) : {v = JNull} + {v <> JNull}.
Proof. destruct v; (left; reflexivity) || (right; discriminate). Qed.


Lemma hbind_ok {A B} (c : Handler A) (k : A -> Handler B) w tl st a st1 :
  c w tl st = (Ok a, st1) -> hbind c k w tl st = k a w tl st1.
Proof. intros E. unfold hbind. rewrite E. reflexivity. Qed.

Lemma hbind_err {A B} (c : Handler A) (k : A -> Handler B) w tl st e st1 :
  c w tl st = (Err e, st1) -> hbind c k w tl st = (Err e, st1).
Proof. intros E. unfold hbind. rewrite E. reflexivity. Qed.

Lemma getField_ok v k w tl st :
  v <> JNull -> getField v k w tl st = (Ok (field v k), st).
Proof. intros H. destruct v; try contradiction; reflexivity. Qed.

Ltac field_steps H := repeat (erewrite hbind_ok by (apply getField_ok; exact H)).

Lemma POST_timestamps_run rt data w tl st :
  data <> JNull ->
  exists c u n1 n2,
    parseDateToMySQL rt (dateArg (field data "created_at")) tl (readings st) = (Normal c, n1)
    /\ parseDateToMySQL rt (dateArg (field data "updated_at")) tl n1 = (Normal u, n2)
    /\ POST_timestamps rt data w tl st
       = (Ok (JStr c, JStr u), HState (trace st) (executes st) n2 (conn st)).
Proof.
  intros Hd. unfold POST_timestamps.
  destruct (timestampOf_run rt (field data "created_at") w tl st) as (c & n1 & P1 & E1).
  destruct (timestampOf_run rt (field data "updated_at") w tl
              (HState (trace st) (executes st) n1 (conn st))) as (u & n2 & P2 & E2).
  cbn [readings trace executes conn] in P2, E2.
  exists c, u, n1, n2. split; [exact P1|]. split; [exact P2|].
  field_steps Hd. erewrite hbind_ok by exact E1. field_steps Hd.
  erewrite hbind_ok by exact E2. reflexivity.
Qed.

Lemma POST_timestamps_null rt w tl st :
  POST_timestamps rt JNull w tl st = (Err (Thrown "TypeError"), st).
Proof. reflexivity. Qed.

Lemma POST_ticket_run data c u w tl st :
  data <> JNull ->
  POST_ticket data c u w tl st
  = let select := Execute SelectTicket [safe (field data "ticket_id")] in
    let write := ticketWrite data c u (rowsOf w (executes st)) in
    match executeFails w (executes st) with
    | Some msg => (Err (Rejected msg), after [select] st)
    | None =>
        match executeFails w (S (executes st)) with
        | Some msg => (Err (Rejected msg), after [select; write] st)
        | None => (Ok tt, after [select; write] st)
        end
    end.
Proof.
  intros Hd. unfold POST_ticket, after, ticketWrite. cbv zeta. field_steps Hd.
  unfold hbind at 1, query.
  destruct (executeFails w (executes st)) as [msg|]; [reflexivity|].
  field_steps Hd. unfold hbind, update, hret, executed.
  destruct (rowsOf w (executes st)); cbn [trace executes readings conn length Nat.add];
    destruct (executeFails w (S (executes st))); rewrite <- ?app_assoc; reflexivity.
Qed.

Lemma POST_message_run rt data msg w tl st :
  data <> JNull -> msg <> JNull ->
  exists stamp n',
    let e := Execute InsertMessage
               [safe (field data "ticket_id"); safe (field msg "author");
                safe (field msg "content"); JStr stamp] in
    let st' := HState (trace st ++ [e]) (S (executes st)) n' (conn st) in
    POST_message rt data msg w tl st
    = match executeFails w (executes st) with
      | Some m => (Err (Rejected m), st')
      | None => (Ok tt, st')
      end.
Proof.
  intros Hd Hm.
  destruct (timestampOf_run rt (field msg "timestamp") w tl st) as (s & n' & _ & E).
  exists s, n'. cbv zeta. unfold POST_message. field_steps Hd. field_steps Hm.
  erewrite hbind_ok by exact E. unfold hbind, update, executed, hret.
  cbn [trace executes readings conn].
  destruct (executeFails w (executes st)); reflexivity.
Qed.

Lemma POST_message_null rt data w tl st :
  data <> JNull -> POST_message rt data JNull w tl st = (Err (Thrown "TypeError"), st).
Proof.
  intros Hd. unfold POST_message. field_steps Hd. reflexivity.
Qed.

Lemma messages_saved rt data w tl : forall items st st',
  data <> JNull ->
  forEachH (POST_message rt data) items w tl st = (Ok tt, st') ->
  exists es,
    trace st' = trace st ++ es
    /\ Forall2 (messageInsert (safe (field data "ticket_id"))) items es
    /\ executes st' = (length items + executes st)%nat
    /\ conn st' = conn st
    /\ (forall i, (i < length items)%nat -> executeFails w (i + executes st) = None).
Proof.
  induction items as [|msg items IH]; intros st st' Hd E.
  - injection E as <-. exists []. rewrite app_nil_r. repeat split; try constructor.
    intros i Hi. cbn in Hi. lia.
  - cbn [forEachH] in E. unfold hbind in E.
    destruct (json_null_dec msg) as [-> | Hm].
    { rewrite (POST_message_null rt data w tl st Hd) in E. discriminate. }
    destruct (POST_message_run rt data msg w tl st Hd Hm) as (s & n' & E1). cbv zeta in E1.
    rewrite E1 in E. destruct (executeFails w (executes st)) eqn:Ef; [discriminate|].
    apply IH in E as (es & T & F & X & C & N); [|exact Hd].
    cbn [trace executes conn] in T, X, C, N.
    eexists (_ :: es). rewrite T, <- app_assoc. split; [reflexivity|].
    split; [constructor; [exists s; reflexivity | exact F]|].
    split; [cbn [length]; lia|]. split; [exact C|].
    intros [|i] Hi; [exact Ef|]. cbn [length] in Hi.
    replace (S i + executes st)%nat with (i + S (executes st))%nat by lia.
    apply N. lia.
Qed.

Lemma messages_run rt data w tl st st' :
  data <> JNull ->
  POST_messages rt data w tl st = (Ok tt, st') ->
  exists es,
    trace st' = trace st ++ es
    /\ Forall2 (messageInsert (safe (field data "ticket_id")))
               (itemsOf (field data "messages")) es
    /\ conn st' = conn st
    /\ (forall i, (i < length es)%nat -> executeFails w (i + executes st) = None).
Proof.
  intros Hd. unfold POST_messages. field_steps Hd.
  destruct (truthyOpt (lengthOf (field data "messages"))) eqn:El.
  - destruct (field data "messages") as [[| | | s | items | members]|] eqn:Em;
      try (intros E; discriminate E).
    + cbn [iterate]. erewrite hbind_ok by reflexivity. intros E.
      apply messages_saved in E as (es & T & F & _ & C & N); [|exact Hd].
      exists es. cbn [itemsOf]. repeat split; try assumption.
      intros i Hi. apply N. rewrite (Forall2_length F). exact Hi.
    + cbn [iterate]. erewrite hbind_ok by reflexivity. intros E.
      apply messages_saved in E as (es & T & F & _ & C & N); [|exact Hd].
      exists es. cbn [itemsOf]. repeat split; try assumption.
      intros i Hi. apply N. rewrite (Forall2_length F). exact Hi.
  - intros E. injection E as <-. exists []. rewrite app_nil_r.
    split; [reflexivity|]. split; [|split; [reflexivity | intros i Hi; cbn in Hi; lia]].
    destruct (field data "messages") as [[| | | s | items | members]|]; cbn [itemsOf];
      try constructor.
    + destruct s; [constructor | discriminate El].
    + destruct items; [constructor | discriminate El].
Qed.

(** X20.  When [POST] answers 200, the body was a non-null value and the call
    ran, in this order and without failure: the connection, the lookup of
    the ticket, its update if a row was found and its insertion
    otherwise, one insertion for each message, the end of the
    connection.  The creation time that is stored is the result of
    [parseDateToMySQL] on the member [created_at]. *)
Theorem POST_saves_ticket_then_messages (rt : Runtime) (request : requestBody) (w : World)
        (tl : Timeline) (n : nat) (r : response) (st : hstate) :
  POST rt request w tl n = (Responded r, st) ->
  statusCode r = 200 ->
  exists data c u es,
    request = Parsed data /\ data <> JNull
    /\ fst (parseDateToMySQL rt (dateArg (field data "created_at")) tl n) = Normal c
    /\ trace st = Connect :: Execute SelectTicket [safe (field data "ticket_id")]
                    :: ticketWrite data (JStr c) (JStr u) (rowsOf w 0%nat) :: es ++ [End]
    /\ Forall2 (messageInsert (safe (field data "ticket_id")))
               (itemsOf (field data "messages")) es
    /\ connectFails w = None /\ endFails w = None
    /\ (forall i, (i < 2 + length es)%nat -> executeFails w i = None)
    /\ body r = Some (JObj [member "success" (JBool true);
                            member "message" (JStr (lit "Ticket saved successfully"))]).
Proof.
  unfold POST, handle. intros E S200.
  destruct request as [data|msg].
  2:{ cbn in E. injection E as <- _. discriminate S200. }
  erewrite hbind_ok in E by reflexivity.
  destruct (json_null_dec data) as [-> | Hd].
  { cbn in E. injection E as <- _. discriminate S200. }
  destruct (POST_timestamps_run rt data w tl (HState [] 0 n false) Hd)
    as (c & u & n1 & n2 & P1 & P2 & Ets).
  cbn [trace executes readings conn] in P1, Ets.
  erewrite hbind_ok in E by exact Ets. cbn [fst snd] in E.
  unfold hbind at 1, connectDB in E. cbn [log trace executes readings conn app] in E.
  destruct (connectFails w) as [m|] eqn:Ec.
  { injection E as <- _. discriminate S200. }
  unfold hbind at 1 in E. rewrite (POST_ticket_run data (JStr c) (JStr u) w tl _ Hd) in E.
  cbv zeta in E. cbn [executes] in E.
  destruct (executeFails w 0%nat) as [m|] eqn:E0.
  { cbn [after conn] in E. destruct (endFails w); [discriminate E|].
    injection E as <- _. discriminate S200. }
  destruct (executeFails w 1%nat) as [m|] eqn:E1.
  { cbn [after conn] in E. destruct (endFails w); [discriminate E|].
    injection E as <- _. discriminate S200. }
  unfold hbind at 1 in E.
  destruct (POST_messages rt data w tl _) as [[[]|e] st2] eqn:Em.
  2:{ apply db_POST_messages in Em as (C & _). cbn [after conn] in C. rewrite C in E.
      destruct (endFails w); [discriminate E|]. injection E as <- _. discriminate S200. }
  apply messages_run in Em as (es & T & F & C & N); [|exact Hd].
  cbn [after trace conn executes length Nat.add app] in T, C, N.
  cbn [hret] in E. rewrite C in E. destruct (endFails w) as [m|] eqn:Ee; [discriminate E|].
  injection E as <- <-. exists data, c, u, es.
  split; [reflexivity|]. split; [exact Hd|]. split; [rewrite P1; reflexivity|].
  split; [cbn [log trace]; rewrite T; reflexivity|]. split; [exact F|].
  split; [reflexivity|]. split; [reflexivity|]. split; [|reflexivity].
  intros [|[|i]] Hi; [exact E0 | exact E1 |].
  replace (S (S i)) with (i + 2)%nat by lia. apply N. lia.
Qed.

Lemma POST_saves_ticket_then_messages_witness :
  exists r st,
    POST refRuntime (Parsed refPayload) refWorld refTimeline 0 = (Responded r, st)
    /\ statusCode r = 200
    /\ exists c u es,
         trace st = Connect :: Execute SelectTicket [JStr (lit "T-1")]
                      :: ticketWrite refPayload (JStr c) (JStr u) [] :: es ++ [End]
         /\ length es = 1%nat.
Proof.
  assert (E : exists r st,
             POST refRuntime (Parsed refPayload) refWorld refTimeline 0 = (Responded r, st)
             /\ statusCode r = 200)
    by (do 2 eexists; split; vm_compute; reflexivity).
  destruct E as (r & st & E & S200). exists r, st. split; [exact E|]. split; [exact S200|].
  destruct (POST_saves_ticket_then_messages refRuntime (Parsed refPayload) refWorld
              refTimeline 0 r st E S200)
    as (data & c & u & es & Er & _ & _ & T & F & _).
  injection Er as <-. exists c, u, es. split; [exact T|].
  apply Forall2_length in F. rewrite <- F. reflexivity.
Defined.

(** [POST] once the ticket is written. *)
Lemma POST_after_ticket rt data w tl n :
  data <> JNull -> connectFails w = None ->
  executeFails w 0%nat = None -> executeFails w 1%nat = None ->
  exists c u n2,
    fst (parseDateToMySQL rt (dateArg (field data "created_at")) tl n) = Normal c
    /\ POST rt (Parsed data) w tl n
       = let st1 := HState [Connect; Execute SelectTicket [safe (field data "ticket_id")];
                            ticketWrite data (JStr c) (JStr u) (rowsOf w 0%nat)]
                           2 n2 true in
         let (r, st2) := POST_messages rt data w tl st1 in
         let resp :=
           match r with
           | Ok _ => respond 200 (JObj [member "success" (JBool true);
                                        member "message"
                                          (JStr (lit "Ticket saved successfully"))])
           | Err e => respond 500 (JObj [member "success" (JBool false);
                                         member "error" (JStr (messageOf w e))])
           end in
         match endFails w with
         | Some msg => (Unhandled (Rejected msg), log End st2)
         | None => (Responded resp, log End st2)
         end.
Proof.
  intros Hd Ec E0 E1.
  destruct (POST_timestamps_run rt data w tl (HState [] 0 n false) Hd)
    as (c & u & n1 & n2 & P1 & P2 & Ets).
  cbn [trace executes readings conn] in P1, Ets.
  exists c, u, n2. split; [rewrite P1; reflexivity|].
  unfold POST, handle. erewrite hbind_ok by reflexivity.
  erewrite hbind_ok by exact Ets. cbn [fst snd].
  unfold hbind at 1, connectDB. cbn [log trace executes readings conn app]. rewrite Ec.
  unfold hbind at 1. rewrite (POST_ticket_run data (JStr c) (JStr u) w tl _ Hd).
  cbv zeta. cbn [executes]. rewrite E0, E1. cbn [after trace executes readings conn length app Nat.add].
  unfold hbind at 1.
  destruct (POST_messages rt data w tl _) as [[[]|e] st2] eqn:Em;
    apply db_POST_messages in Em as (C & _); cbn [conn] in C; cbn [hret]; rewrite C;
    reflexivity.
Qed.

(** X21.  The ticket is written before its messages, and nothing undoes
    it: when the first message cannot be inserted, because it is [null]
    or because its statement fails, the database events of the call are
    the connection, the lookup, the update or the insertion of the
    ticket, the statement of the message if the message is not [null],
    and the end of the connection, with no other statement.  The call
    answers 500 with the message of the error, the one of the engine for
    a [null] message and the one of the database for a statement that
    fails, unless the end of the connection fails too. *)
Theorem POST_keeps_the_ticket_when_a_message_fails (rt : Runtime) (data : json) (w : World)
        (tl : Timeline) (n : nat) (msg : json) (rest : list json) :
  data <> JNull -> connectFails w = None ->
  executeFails w 0%nat = None -> executeFails w 1%nat = None ->
  field data "messages" = Some (JArr (msg :: rest)) ->
  msg = JNull \/ executeFails w 2%nat <> None ->
  exists c u es m,
    trace (snd (POST rt (Parsed data) w tl n))
    = Connect :: Execute SelectTicket [safe (field data "ticket_id")]
        :: ticketWrite data (JStr c) (JStr u) (rowsOf w 0%nat) :: es ++ [End]
    /\ (msg = JNull -> es = [] /\ m = engineMessage w "TypeError")
    /\ (msg <> JNull ->
        executeFails w 2%nat = Some m
        /\ exists e, es = [e] /\ messageInsert (safe (field data "ticket_id")) msg e)
    /\ fst (POST rt (Parsed data) w tl n)
       = match endFails w with
         | Some msg' => Unhandled (Rejected msg')
         | None => Responded (failure m)
         end.
Proof.
  intros Hd Ec E0 E1 Em Hf.
  destruct (POST_after_ticket rt data w tl n Hd Ec E0 E1) as (c & u & n2 & _ & ->).
  cbv zeta. unfold POST_messages. field_steps Hd. rewrite Em.
  cbn [lengthOf truthyOpt truthyJson length iterate].
  replace (negb (Z.of_nat (S (length rest)) =? 0)) with true
    by (symmetry; apply negb_true_iff, Z.eqb_neq; lia).
  erewrite hbind_ok by reflexivity. cbn [forEachH].
  destruct (json_null_dec msg) as [-> | Hm].
  - erewrite hbind_err by (apply POST_message_null; exact Hd).
    exists c, u, [], (engineMessage w "TypeError").
    split; [destruct (endFails w); reflexivity|].
    split; [intros _; split; reflexivity|].
    split; [intros H; exfalso; apply H; reflexivity|].
    destruct (endFails w); reflexivity.
  - destruct Hf as [Hf | Hf]; [contradiction|].
    destruct (POST_message_run rt data msg w tl
                (HState [Connect; Execute SelectTicket [safe (field data "ticket_id")];
                         ticketWrite data (JStr c) (JStr u) (rowsOf w 0%nat)] 2 n2 true)
                Hd Hm) as (s & n' & E).
    cbv zeta in E. cbn [executes trace conn] in E.
    destruct (executeFails w 2%nat) as [m|]; [|contradiction].
    erewrite hbind_err by exact E.
    exists c, u,
      [Execute InsertMessage [safe (field data "ticket_id"); safe (field msg "author");
                              safe (field msg "content"); JStr s]], m.
    split; [destruct (endFails w); reflexivity|].
    split; [intros H; contradiction|].
    split; [|destruct (endFails w); reflexivity].
    intros _. split; [reflexivity|]. eexists. split; [reflexivity|]. exists s. reflexivity.
Qed.

Lemma POST_keeps_the_ticket_when_a_message_fails_witness :
  exists c u stamp,
    trace (snd (POST refRuntime (Parsed refPayload) failingWorld refTimeline 0))
    = [Connect; Execute SelectTicket [JStr (lit "T-1")];
       ticketWrite refPayload (JStr c) (JStr u) [];
       Execute InsertMessage
         [JStr (lit "T-1"); JStr (lit "Ann"); JStr (lit "Hello"); JStr stamp]; End]
    /\ fst (POST refRuntime (Parsed refPayload) failingWorld refTimeline 0)
       = Responded (failure (lit "ER_LOCK_DEADLOCK")).
Proof.
  destruct (POST_keeps_the_ticket_when_a_message_fails refRuntime refPayload failingWorld
              refTimeline 0
              (JObj [member "author" (JStr (lit "Ann")); member "content" (JStr (lit "Hello"))])
              [])
    as (c & u & es & m & T & _ & M & R).
  - discriminate.
  - reflexivity.
  - reflexivity.
  - reflexivity.
  - reflexivity.
  - right. discriminate.
  - destruct M as (Hm & e & -> & stamp & ->); [discriminate|].
    injection Hm as <-. exists c, u, stamp. split; [exact T | exact R].
Defined.

(** X22.  An update takes its creation time from the request: when the ticket
    exists and the body has no member [created_at], the statement that
    updates the ticket sets its creation time to the time of the
    call. *)
Theorem POST_update_resets_created_at (rt : Runtime) (data : json) (w : World)
        (tl : Timeline) (n : nat) (row : json) (rows : list json) :
  data <> JNull -> field data "created_at" = None ->
  connectFails w = None -> executeFails w 0%nat = None -> executeFails w 1%nat = None ->
  rowsOf w 0%nat = row :: rows ->
  exists now u,
    mysqlFormat (Some (tl n)) = Normal now
    /\ In (Execute UpdateTicket
             [safe (field data "subject"); safe (field data "brand");
              safe (field data "status"); safe (field data "assigned_to");
              safe (field data "client_name"); safe (field data "client_email");
              JStr now; u; safe (field data "ticket_url"); safe (field data "ticket_id")])
          (trace (snd (POST rt (Parsed data) w tl n))).
Proof.
  intros Hd Hc Ec E0 E1 Er.
  destruct (POST_after_ticket rt data w tl n Hd Ec E0 E1) as (c & u & n2 & P & ->).
  rewrite Hc in P. cbn [dateArg] in P.
  rewrite parseDateToMySQL_absent in P by (left; discriminate).
  exists c, (JStr u). split; [exact P|]. cbv zeta. rewrite Er.
  destruct (POST_messages rt data w tl _) as [r st2] eqn:Em.
  apply db_POST_messages in Em as (_ & es & T & _). cbn [trace] in T.
  assert (Hin : In (ticketWrite data (JStr c) (JStr u) (row :: rows)) (trace (log End st2))).
  { cbn [log trace]. rewrite T. apply in_or_app. left. apply in_or_app. left.
    right; right; left. reflexivity. }
  destruct (endFails w); exact Hin.
Qed.

Lemma POST_update_resets_created_at_witness :
  exists u,
    In (Execute UpdateTicket
          [JStr (lit "Login fails"); JNull; JNull; JNull; JNull; JNull;
           JStr (lit "2025-10-14 03:14:00"); u; JNull; JStr (lit "T-1")])
       (trace (snd (POST refRuntime (Parsed refPayload) foundWorld refTimeline 0))).
Proof.
  destruct (POST_update_resets_created_at refRuntime refPayload foundWorld refTimeline 0
              (JObj [member "id" (JNum 7)]) [])
    as (now & u & P & Hin).
  - discriminate.
  - reflexivity.
  - reflexivity.
  - reflexivity.
  - reflexivity.
  - reflexivity.
  - exists u. vm_compute in P. injection P as <-. exact Hin.
Defined.

(** *** [DELETE] and the list of the dashboard *)

Lemma DELETE_run id w tl n :
  fst (DELETE id w tl n)
  = match id with
    | None | Some [] =>
        Responded (respond 400 (JObj [member "success" (JBool false);
                                      member "error"
                                        (JStr (lit "Missing ticket_id parameter"))]))
    | Some ticketId =>
        match connectFails w with
        | Some m => Responded (failure m)
        | None =>
            match endFails w with
            | Some m => Unhandled (Rejected m)
            | None =>
                match executeFails w 0%nat with
                | Some m => Responded (failure m)
                | None =>
                    match affectedRowsOf w 0%nat with
                    | O =>
                        Responded
                          (respond 404 (JObj [member "success" (JBool false);
                                              member "message"
                                                (JStr (lit "No matching ticket found"))]))
                    | S _ =>
                        Responded
                          (respond 200
                             (JObj [member "success" (JBool true);
                                    member "message"
                                      (JStr (lit "Ticket " ++ ticketId
                                               ++ lit " deleted successfully"))]))
                    end
                end
            end
        end
    end.
Proof.
  unfold DELETE, handle, failure. destruct id as [[|a s]|]; try reflexivity.
  unfold hbind, connectDB, update, log, executed, hret.
  destruct (connectFails w); [reflexivity|]. simpl.
  destruct (executeFails w 0%nat); simpl; [destruct (endFails w); reflexivity|].
  destruct (affectedRowsOf w 0%nat); simpl; destruct (endFails w); reflexivity.
Qed.

(** X23.  The answers of [DELETE]: 400 when the identifier is missing or
    empty, and then the database is not touched; 500 when the
    connection or the statement fails; 404 when the statement affects
    no row; 200 when it affects one or more. *)
Theorem DELETE_status (id : option str) (w : World) (tl : Timeline) (n : nat) (r : response) :
  fst (DELETE id w tl n) = Responded r ->
  (statusCode r = 400 <-> id = None \/ id = Some [])
  /\ (statusCode r = 400 -> trace (snd (DELETE id w tl n)) = [])
  /\ (statusCode r = 500 <->
      (exists a s, id = Some (a :: s))
      /\ (connectFails w <> None \/ executeFails w 0%nat <> None))
  /\ (statusCode r = 404 <->
      (exists a s, id = Some (a :: s)) /\ connectFails w = None
      /\ executeFails w 0%nat = None /\ affectedRowsOf w 0%nat = 0%nat)
  /\ (statusCode r = 200 <->
      (exists a s, id = Some (a :: s)) /\ connectFails w = None
      /\ executeFails w 0%nat = None /\ affectedRowsOf w 0%nat <> 0%nat).
Proof.
  rewrite DELETE_run. intros E.
  assert (Hid : forall a s, exists a' s', Some (a :: s) = Some (a' :: s' : str))
    by (intros a s; exists a, s; reflexivity).
  destruct id as [[|a s]|].
  - injection E as <-. cbn [statusCode respond].
    repeat split; try (intros; discriminate); try (intros; reflexivity); auto;
      try (intros ((? & ? & ?) & _); discriminate).
  - destruct (connectFails w) as [m|] eqn:Ec.
    + injection E as <-. cbn [statusCode respond failure].
      repeat split; try (intros; discriminate); auto;
        try (intros [? | ?]; discriminate); try (intros (_ & ? & _); discriminate).
      * left. discriminate.
    + destruct (endFails w) as [m|]; [discriminate E|].
      destruct (executeFails w 0%nat) as [m|] eqn:E0.
      * injection E as <-. cbn [statusCode respond failure].
        repeat split; try (intros; discriminate); auto;
          try (intros [? | ?]; discriminate); try (intros (_ & _ & ? & _); discriminate).
        right. discriminate.
      * destruct (affectedRowsOf w 0%nat) as [|k] eqn:Ea; injection E as <-;
          cbn [statusCode respond]; unfold DELETE, handle, hbind, connectDB, update;
          repeat split; try (intros; discriminate); auto;
          try (intros [? | ?]; discriminate);
          try (intros (_ & [? | ?]); congruence);
          try (intros (_ & _ & _ & ?); congruence).
  - injection E as <-. cbn [statusCode respond].
    repeat split; try (intros; discriminate); try (intros; reflexivity); auto;
      try (intros ((? & ? & ?) & _); discriminate).
Qed.

Lemma DELETE_status_witness :
  exists r,
    fst (DELETE (Some (lit "T-1")) refWorld refTimeline 0) = Responded r
    /\ statusCode r = 200.
Proof.
  eexists. split; [reflexivity|].
  apply (DELETE_status (Some (lit "T-1")) refWorld refTimeline 0 _ eq_refl).
  split; [exists "T"%char, (lit "-1"); reflexivity|].
  split; [reflexivity|]. split; [reflexivity|]. discriminate.
Defined.

(** X24.  The dashboard and the server agree on a deletion: once the user has
    confirmed, [handleDelete] drops the tickets of the identifier sent
    exactly when the answer of [DELETE] is 200, that is when the
    statement affected a row; on every other answer the list is left as
    it is and a message is shown. *)
Theorem handleDelete_follows_DELETE (id : str) (w : World) (tl : Timeline) (n : nat)
        (r : response) (tickets : list TicketItem) :
  fst (DELETE (Some id) w tl n) = Responded r ->
  (statusCode r = 200 <->
   id <> [] /\ connectFails w = None /\ executeFails w 0%nat = None
   /\ affectedRowsOf w 0%nat <> 0%nat)
  /\ (statusCode r = 200 ->
      handleDelete true (body r) id tickets
      = (filter (fun t => negb (str_eqb (ticket_id t) id)) tickets, None))
  /\ (statusCode r <> 200 ->
      fst (handleDelete true (body r) id tickets) = tickets
      /\ snd (handleDelete true (body r) id tickets) <> None).
Proof.
  rewrite DELETE_run. intros E. destruct id as [|a s].
  - injection E as <-. cbn [statusCode respond body].
    split; [split; [discriminate | intros (H & _); contradiction]|].
    split; [discriminate|]. intros _. split; [reflexivity | discriminate].
  - destruct (connectFails w) as [m|] eqn:Ec.
    + injection E as <-. cbn [statusCode respond failure body].
      split; [split; [discriminate | intros (_ & H & _); discriminate]|].
      split; [discriminate|]. intros _. split; [reflexivity|].
      cbn. destruct m; discriminate.
    + destruct (endFails w) as [m|]; [discriminate E|].
      destruct (executeFails w 0%nat) as [m|] eqn:E0.
      * injection E as <-. cbn [statusCode respond failure body].
        split; [split; [discriminate | intros (_ & _ & H & _); discriminate]|].
        split; [discriminate|]. intros _. split; [reflexivity|].
        cbn. destruct m; discriminate.
      * destruct (affectedRowsOf w 0%nat) as [|k] eqn:Ea; injection E as <-;
          cbn [statusCode respond body].
        -- split; [split; [discriminate | intros (_ & _ & _ & H); contradiction]|].
           split; [discriminate|]. intros _. split; [reflexivity | discriminate].
        -- split; [split; [intros _; repeat split; discriminate | reflexivity]|].
           split; [reflexivity|]. intros H. contradiction.
Qed.

Lemma handleDelete_follows_DELETE_witness :
  exists r,
    fst (DELETE (Some (lit "T-1")) refWorld refTimeline 0) = Responded r
    /\ handleDelete true (body r) (lit "T-1")
                    [ticketDated "2025-10-14T03:14:00Z"; ticketBranded None]
       = ([], None).
Proof.
  eexists. split; [reflexivity|].
  refine (proj1 (proj2 (handleDelete_follows_DELETE (lit "T-1") refWorld refTimeline 0 _
                          [ticketDated "2025-10-14T03:14:00Z"; ticketBranded None]
                          eq_refl)) _).
  reflexivity.
Defined.

(** ** The clean-up, rule by rule *)

(** A word under the [i] flag is read in one way at most. *)
Lemma m_chars_i : forall w st,
  m (cat (map chr_i w)) st
  = if prefix_i w (rest st)
    then [MState (caps st) (lastOr (prev st) (firstn (length w) (rest st)))
                 (skipn (length w) (rest st))]
    else [].
Proof.
  induction w as [|a w IH]; intros [c pv s]; [reflexivity|].
  assert (E : m (chr_i a) (MState c pv s)
              = match s with
                | c0 :: s' =>
                    if ascii_eqb (toLower c0) (toLower a) then [MState c (Some c0) s'] else []
                | [] => []
                end) by reflexivity.
  destruct w as [|b w].
  - cbn [map cat]. rewrite E. cbn [rest prefix_i length firstn skipn caps prev].
    destruct s as [|c0 s']; [reflexivity|].
    destruct (ascii_eqb (toLower c0) (toLower a)); reflexivity.
  - change (cat (map chr_i (a :: b :: w))) with (Cat (chr_i a) (cat (map chr_i (b :: w)))).
    cbn [m]. rewrite E. cbn [rest caps prev].
    destruct s as [|c0 s']; [reflexivity|].
    change (prefix_i (a :: b :: w) (c0 :: s'))
      with (ascii_eqb (toLower c0) (toLower a) && prefix_i (b :: w) s').
    destruct (ascii_eqb (toLower c0) (toLower a)); [|reflexivity].
    cbn [flat_map andb]. rewrite app_nil_r, IH. cbn [rest caps prev].
    destruct (prefix_i (b :: w) s'); reflexivity.
Qed.

Lemma m_word_i (w : string) (st : mstate) :
  m (word_i w) st
  = if prefix_i (lit w) (rest st)
    then [MState (caps st) (lastOr (prev st) (firstn (length (lit w)) (rest st)))
                 (skipn (length (lit w)) (rest st))]
    else [].
Proof. apply m_chars_i. Qed.

Lemma prefix_i_length : forall w s, prefix_i w s = true -> (length w <= length s)%nat.
Proof.
  induction w as [|a w IH]; intros s; [cbn [length]; lia|].
  destruct s as [|c s]; cbn [prefix_i length]; [discriminate|].
  intros H. apply andb_prop in H as [_ H]. apply IH in H. lia.
Qed.

(** The states listed by the matcher are the ways to match, and there is
    none exactly when the expression does not match. *)
Lemma m_in_den r st st' :
  In st' (m r st) -> den r (prev st) (rest st) (prev st') (rest st').
Proof. intros H. apply m_den. exists st'. auto. Qed.

Lemma m_nil_den r st :
  m r st = [] <-> ~ exists pv' s', den r (prev st) (rest st) pv' s'.
Proof.
  split.
  - intros E (pv' & s' & H). apply m_den in H as (st' & Hin & _). rewrite E in Hin.
    destruct Hin.
  - intros H. destruct (m r st) as [|st' l] eqn:E; [reflexivity|]. exfalso. apply H.
    exists (prev st'), (rest st'). apply m_in_den. rewrite E. left. reflexivity.
Qed.

Lemma den_word_i (w : string) pv s pv' s' :
  den (word_i w) pv s pv' s' <->
  prefix_i (lit w) s = true /\ pv' = lastOr pv (firstn (length (lit w)) s)
  /\ s' = skipn (length (lit w)) s.
Proof.
  rewrite <- (m_den (word_i w) (MState [] pv s) pv' s'), m_word_i. cbn [rest prev caps].
  destruct (prefix_i (lit w) s); split.
  - intros (st' & [<-|[]] & <- & <-). auto.
  - intros (_ & -> & ->). eexists. split; [left; reflexivity|]. auto.
  - intros (st' & [] & _).
  - intros (H & _). discriminate.
Qed.

(** The length of a run and the text after it. *)
Lemma run_split p s : exists ds, s = ds ++ dropWhile p s /\ forallb p ds = true.
Proof.
  induction s as [|a s (ds & E & H)]; [exists []; auto|]. cbn [dropWhile].
  destruct (p a) eqn:Ha; [|exists []; auto].
  exists (a :: ds). cbn [app forallb]. rewrite Ha, H, <- E. auto.
Qed.

Lemma dropWhile_app p ds t : forallb p ds = true -> dropWhile p (ds ++ t) = dropWhile p t.
Proof.
  induction ds as [|a ds IH]; [reflexivity|]. cbn [forallb app dropWhile].
  intros H. apply andb_prop in H as [-> H]. apply IH, H.
Qed.

(** *** Replacements that cut the end of the text *)

Lemma search_cut r stop :
  (forall pv s, m r (MState [] pv s) = [] <-> stop s = false) ->
  (forall pv s st, In st (m r (MState [] pv s)) -> rest st = []) ->
  forall s pv,
    match search r pv s with
    | None => cutAt stop s = s
    | Some f => firstn (length s - length (from f)) s = cutAt stop s
                /\ rest (final f) = [] /\ (length (from f) <= length s)%nat
    end.
Proof.
  intros Hstop Hend. induction s as [|a s IH]; intros pv; cbn [search].
  - destruct (m r (MState [] pv [])) as [|st l] eqn:E; [reflexivity|].
    cbn [from final length]. repeat split; [|lia].
    apply (Hend pv []). rewrite E. left. reflexivity.
  - destruct (m r (MState [] pv (a :: s))) as [|st l] eqn:E.
    + apply Hstop in E. cbn [cutAt]. rewrite E. specialize (IH (Some a)).
      destruct (search r (Some a) s) as [f|].
      * destruct IH as (H1 & H2 & H3). repeat split; [|exact H2|cbn [length]; lia].
        cbn [length]. replace (S (length s) - length (from f))%nat
          with (S (length s - length (from f))) by lia.
        cbn [firstn]. rewrite H1. reflexivity.
      * rewrite IH. reflexivity.
    + cbn [from final]. rewrite Nat.sub_diag. cbn [firstn cutAt].
      destruct (stop (a :: s)) eqn:Es.
      * repeat split; [|lia]. apply (Hend pv (a :: s)). rewrite E. left. reflexivity.
      * apply (proj2 (Hstop pv (a :: s))) in Es. congruence.
Qed.

Lemma replace1_cut r stop :
  (forall pv s, m r (MState [] pv s) = [] <-> stop s = false) ->
  (forall pv s st, In st (m r (MState [] pv s)) -> rest st = []) ->
  forall s, replace1 r noText s = cutAt stop s.
Proof.
  intros Hstop Hend s. unfold replace1. pose proof (search_cut r stop Hstop Hend s None) as H.
  destruct (search r None s) as [f|]; [|symmetry; exact H].
  destruct H as (H1 & H2 & _). rewrite H1, H2. unfold noText. apply app_nil_r.
Qed.

(** *** The suffix that starts with "from IP" *)

Lemma fromIP_den pv s pv' s' :
  den re_fromIP pv s pv' s' -> fromIPStop s = true /\ s' = [].
Proof.
  unfold re_fromIP.
  change (cat [word_i "from IP"; star anyChar; Eol])
    with (Cat (word_i "from IP") (Cat (star anyChar) Eol)).
  unfold star. cbn [den].
  intros (pv1 & s1 & Hw & pv2 & s2 & (ds & E & Hds & _) & (-> & _ & ->)).
  apply den_word_i in Hw as (Hp & _ & ->). split; [|reflexivity].
  unfold fromIPStop. rewrite Hp. cbn [andb].
  change (length (lit "from IP")) with 7%nat in E. rewrite E, app_nil_r. exact Hds.
Qed.

Lemma fromIP_matches pv s :
  fromIPStop s = true -> exists pv' s', den re_fromIP pv s pv' s'.
Proof.
  unfold fromIPStop. intros H. apply andb_prop in H as [Hp Ht].
  unfold re_fromIP.
  change (cat [word_i "from IP"; star anyChar; Eol])
    with (Cat (word_i "from IP") (Cat (star anyChar) Eol)).
  unfold star. cbn [den].
  exists (lastOr (lastOr pv (firstn 7 s)) (skipn 7 s)), [].
  exists (lastOr pv (firstn 7 s)), (skipn 7 s). split.
  - apply den_word_i. auto.
  - exists (lastOr (lastOr pv (firstn 7 s)) (skipn 7 s)), []. split; [|auto].
    exists (skipn 7 s). rewrite app_nil_r. repeat split; [exact Ht | lia].
Qed.

(** [replace (/from IP.*$/i, '')] cuts the text at the first "from IP"
    that no line terminator follows. *)
Lemma fromIP_spec s : replace1 re_fromIP noText s = fromIPOff s.
Proof.
  apply replace1_cut.
  - intros pv x. rewrite m_nil_den. cbn [prev rest]. split.
    + intros H. destruct (fromIPStop x) eqn:E; [|reflexivity].
      exfalso. apply H, fromIP_matches, E.
    + intros E (pv' & s' & H). apply fromIP_den in H as [H _]. congruence.
  - intros pv x st H. apply m_in_den in H. cbn [prev rest] in H.
    apply fromIP_den in H. tauto.
Qed.

(** *** The offset annotation *)

Lemma gmt_not_space c :
  ascii_eqb (toLower c) (toLower "G") = true -> isSpace c = false.
Proof. intros H. ascii_chars c H. Qed.

Lemma gmt_den pv s pv' s' :
  den re_gmt pv s pv' s' -> gmtStop s = true /\ s' = [].
Proof.
  unfold re_gmt.
  change (cat [plus isSpace; word_i "GMT"; Cls (oneOf "+-"); times 2 4 isDigit; Eol])
    with (Cat (plus isSpace)
           (Cat (word_i "GMT") (Cat (Cls (oneOf "+-")) (Cat (times 2 4 isDigit) Eol)))).
  unfold plus, times. cbn [den].
  intros (pv1 & s1 & (ws & -> & Hws & Hlen & _) & pv2 & s2 & Hw & pv3 & s3
          & (sg & E2 & Hsg & _) & pv4 & s4 & (ds & -> & Hds & Hlo & Hhi & _)
          & (-> & _ & ->)).
  apply den_word_i in Hw as (Hp & _ & E3). split; [|reflexivity].
  assert (Hd : dropWhile isSpace (ws ++ s1) = s1).
  { rewrite (dropWhile_app isSpace ws s1 Hws).
    destruct s1 as [|c s1]; [discriminate|]. cbn [prefix_i lit list_ascii_of_string] in Hp.
    apply andb_prop in Hp as [Hc _]. cbn [dropWhile]. rewrite (gmt_not_space c Hc).
    reflexivity. }
  unfold gmtStop. rewrite Hd. apply andb_true_intro. split.
  - destruct ws as [|w0 ws]; [cbn [length] in Hlen; lia|]. cbn [forallb] in Hws.
    apply andb_prop in Hws as [Hw0 _]. exact Hw0.
  - unfold gmtText. rewrite Hp. change (length (lit "GMT")) with 3%nat in E3.
    rewrite <- E3, E2, app_nil_r. rewrite Hsg, Hds. cbn [andb within] in *.
    apply andb_true_intro. split; apply Nat.leb_le; assumption.
Qed.

Lemma gmt_matches pv s :
  gmtStop s = true -> exists pv' s', den re_gmt pv s pv' s'.
Proof.
  unfold gmtStop. intros H. apply andb_prop in H as [Hh Hg].
  destruct s as [|a s]; [discriminate|]. cbn [headIs] in Hh.
  cbn [dropWhile] in Hg. rewrite Hh in Hg.
  destruct (run_split isSpace s) as (ws & Es & Hws).
  set (t := dropWhile isSpace s) in *. clearbody t. subst s.
  unfold gmtText in Hg. apply andb_prop in Hg as [Hp Hg].
  destruct (skipn 3 t) as [|sg ds] eqn:Et; [discriminate|].
  repeat (apply andb_prop in Hg as [Hg ?]).
  unfold re_gmt.
  change (cat [plus isSpace; word_i "GMT"; Cls (oneOf "+-"); times 2 4 isDigit; Eol])
    with (Cat (plus isSpace)
           (Cat (word_i "GMT") (Cat (Cls (oneOf "+-")) (Cat (times 2 4 isDigit) Eol)))).
  unfold plus, times. cbn [den].
  do 2 eexists. exists (lastOr pv (a :: ws)), t. split.
  { exists (a :: ws). cbn [app forallb length]. rewrite Hh, Hws.
    repeat split; lia. }
  do 2 eexists. split; [apply den_word_i; split; [exact Hp | split; reflexivity]|].
  change (length (lit "GMT")) with 3%nat. rewrite Et.
  do 2 eexists. split; [exists sg; repeat split; assumption|].
  do 2 eexists. split; [|repeat split].
  exists ds. rewrite app_nil_r. cbn [within].
  repeat split; try assumption; apply Nat.leb_le; assumption.
Qed.

(** [replace (/\s+GMT[+\-]\d{2,4}$/i, '')] cuts an offset annotation that
    ends the text, with the blanks before it. *)
Lemma gmt_spec s : replace1 re_gmt noText s = gmtOff s.
Proof.
  apply replace1_cut.
  - intros pv x. rewrite m_nil_den. cbn [prev rest]. split.
    + intros H. destruct (gmtStop x) eqn:E; [|reflexivity].
      exfalso. apply H, gmt_matches, E.
    + intros E (pv' & s' & H). apply gmt_den in H as [H _]. congruence.
  - intros pv x st H. apply m_in_den in H. cbn [prev rest] in H.
    apply gmt_den in H. tauto.
Qed.

(** *** Replacements that drop every piece *)

Lemma replaceAll_erase r hit :
  (forall pv s, match m r (MState [] pv s) with
                | [] => hit pv s = 0%nat
                | st :: _ => hit pv s = (length s - length (rest st))%nat
                end) ->
  forall s skip pv, replaceAll_from r noText skip pv s = erase hit skip pv s.
Proof.
  intros Hhit. induction s as [|a s IH]; intros skip pv.
  - destruct skip; cbn [replaceAll_from erase]; [|reflexivity].
    destruct (m r (MState [] pv [])); reflexivity.
  - destruct skip as [|k]; cbn [replaceAll_from erase]; [|apply IH].
    specialize (Hhit pv (a :: s)).
    destruct (m r (MState [] pv (a :: s))) as [|st l].
    + rewrite Hhit, IH. reflexivity.
    + rewrite Hhit. unfold noText at 1. cbn [app].
      destruct (length (a :: s) - length (rest st))%nat; rewrite IH; reflexivity.
Qed.

(** [replace (/Updated|Created/gi, '')] drops the two words wherever they
    are. *)
Lemma labels_spec s : replaceAll re_labels noText s = labelsOff s.
Proof.
  unfold replaceAll, labelsOff. apply replaceAll_erase. intros pv x.
  unfold re_labels, labelHit. cbn [m]. rewrite !m_word_i. cbn [rest caps prev].
  change (length (lit "Updated")) with 7%nat. change (length (lit "Created")) with 7%nat.
  destruct (prefix_i (lit "Updated") x) eqn:Eu.
  - cbn [app orb rest]. apply prefix_i_length in Eu.
    change (length (lit "Updated")) with 7%nat in Eu. rewrite length_skipn. lia.
  - destruct (prefix_i (lit "Created") x) eqn:Ec; [|reflexivity].
    cbn [app orb rest]. apply prefix_i_length in Ec.
    change (length (lit "Created")) with 7%nat in Ec. rewrite length_skipn. lia.
Qed.

(** *** Ordinal suffixes *)

Lemma ordinal_letter c s : ordinalHead (c :: s) = true -> isDigit c = false.
Proof.
  unfold ordinalHead. cbn [prefix_i lit list_ascii_of_string]. intros H.
  assert (Hc : ascii_eqb (toLower c) "s" || ascii_eqb (toLower c) "n"
               || ascii_eqb (toLower c) "r" || ascii_eqb (toLower c) "t" = true).
  { repeat (apply orb_prop in H as [H|H]); apply andb_prop in H as [H _];
      change (toLower "s") with "s"%char in *; change (toLower "n") with "n"%char in *;
      change (toLower "r") with "r"%char in *; change (toLower "t") with "t"%char in *;
      rewrite H; rewrite ?orb_true_r; reflexivity. }
  clear H. ascii_chars c Hc.
Qed.

Lemma ordinalHead_digit c s : isDigit c = true -> ordinalHead (c :: s) = false.
Proof.
  intros H. destruct (ordinalHead (c :: s)) eqn:E; [|reflexivity].
  apply ordinal_letter in E. congruence.
Qed.

Lemma ordinalHead_two s :
  ordinalHead s = true -> exists a b t, s = a :: b :: t /\ isDigit b = false.
Proof.
  destruct s as [|a [|b t]]; [discriminate| |].
  - unfold ordinalHead. cbn. rewrite !andb_false_r. discriminate.
  - intros H. exists a, b, t. split; [reflexivity|].
    unfold ordinalHead in H. cbn [prefix_i lit list_ascii_of_string] in H.
    assert (Hb : ascii_eqb (toLower b) "t" || ascii_eqb (toLower b) "d"
                 || ascii_eqb (toLower b) "h" = true).
    { change (toLower "t") with "t"%char in *; change (toLower "d") with "d"%char in *;
        change (toLower "h") with "h"%char in *.
      repeat (apply orb_prop in H as [H|H]); apply andb_prop in H as [_ H];
        apply andb_prop in H as [H _]; rewrite H; rewrite ?orb_true_r; reflexivity. }
    clear H. ascii_chars b Hb.
Qed.

Lemma m_suffix st :
  exists l,
    m re_suffix st
    = if ordinalHead (rest st)
      then MState (caps st) (lastOr (prev st) (firstn 2 (rest st))) (skipn 2 (rest st)) :: l
      else [].
Proof.
  unfold re_suffix, ordinalHead. cbn [m]. rewrite !m_word_i.
  change (length (lit "st")) with 2%nat. change (length (lit "nd")) with 2%nat.
  change (length (lit "rd")) with 2%nat. change (length (lit "th")) with 2%nat.
  destruct (prefix_i (lit "st") (rest st)), (prefix_i (lit "nd") (rest st)),
    (prefix_i (lit "rd") (rest st)), (prefix_i (lit "th") (rest st));
    cbn [app orb]; first [exists []; reflexivity | eexists; reflexivity].
Qed.

Lemma flat_map_nil {A B} (f : A -> list B) (l : list A) :
  (forall x, In x l -> f x = []) -> flat_map f l = [].
Proof.
  induction l as [|x l IH]; intros H; [reflexivity|]. cbn [flat_map].
  rewrite (H x (or_introl eq_refl)), IH; [reflexivity|]. intros y Hy. apply H. right. exact Hy.
Qed.

(** No match where no run of digits starts, or where the run is not
    followed by a suffix. *)
Lemma m_ordinal_miss pv s :
  ordinalHead (dropWhile isDigit s) = false \/ headIs isDigit s = false ->
  m re_ordinal (MState [] pv s) = [].
Proof.
  intros H. unfold re_ordinal. fold re_suffix. unfold plus. cbn [m caps prev rest].
  apply flat_map_nil. intros st1 Hin. apply in_map_iff in Hin as (st' & <- & Hin).
  apply in_rev in Hin. apply runs_spec in Hin as (ds & Es & Hds & Hlen & _).
  cbn [m]. destruct (m_suffix (setcap 1 (length s, length (rest st')) st')) as [l ->].
  cbn [setcap rest].
  replace (ordinalHead (rest st')) with false; [reflexivity|]. symmetry.
  destruct H as [H|H].
  - rewrite Es, (dropWhile_app isDigit ds (rest st') Hds) in H.
    destruct (rest st') as [|c t]; [reflexivity|]. cbn [dropWhile] in H.
    destruct (isDigit c) eqn:Ec; [apply ordinalHead_digit, Ec | exact H].
  - exfalso. destruct ds as [|d ds]; [cbn [length] in Hlen; lia|].
    rewrite Es in H. cbn [app headIs forallb] in H, Hds.
    apply andb_prop in Hds as [Hd _]. congruence.
Qed.

(** A run of digits followed by a suffix: the match takes them, and its
    first group is the run. *)
Lemma m_ordinal_hit pv ds t :
  ds <> [] -> forallb isDigit ds = true -> ordinalHead t = true ->
  exists st l,
    m re_ordinal (MState [] pv (ds ++ t)) = st :: l
    /\ rest st = skipn 2 t /\ dollar1 (Found (ds ++ t) st) = ds.
Proof.
  intros Hne Hds Ht. unfold re_ordinal. fold re_suffix. unfold plus. cbn [m caps prev rest].
  assert (Hd : dropWhile isDigit (ds ++ t) = t).
  { rewrite (dropWhile_app isDigit ds t Hds). destruct t as [|c t]; [reflexivity|].
    cbn [dropWhile]. rewrite (ordinal_letter c t Ht). reflexivity. }
  destruct (@runs_longest isDigit [] (ds ++ t) pv 1%nat) as (pv' & l & E).
  { destruct ds as [|d ds]; [congruence|]. cbn [app runLength forallb] in *.
    apply andb_prop in Hds as [-> _]. lia. }
  rewrite E, Hd. cbn [map flat_map m rest caps prev]. unfold setcap.
  cbn [rest caps prev].
  destruct (m_suffix (MState [(1%nat, (length (ds ++ t), length t))] pv' t)) as [l' El].
  cbn [rest caps prev] in El. rewrite Ht in El. rewrite El. cbn [map app rest caps prev].
  do 2 eexists. split; [reflexivity|]. cbn [rest]. split; [reflexivity|].
  unfold dollar1, group. cbn [final caps from lookup_cap Nat.eqb].
  rewrite Nat.sub_diag. cbn [skipn]. rewrite length_app.
  replace (length ds + length t - length t)%nat with (length ds) by lia.
  rewrite firstn_app, Nat.sub_diag, firstn_all. cbn [firstn]. apply app_nil_r.
Qed.

Lemma replaceAll_skip r repl : forall x k pv,
  (k <= length x)%nat ->
  replaceAll_from r repl k pv x
  = replaceAll_from r repl 0 (lastOr pv (firstn k x)) (skipn k x).
Proof.
  induction x as [|a x IH]; intros k pv Hk.
  - destruct k; [reflexivity | cbn [length] in Hk; lia].
  - destruct k as [|k]; [reflexivity|].
    cbn [replaceAll_from firstn skipn]. rewrite lastOr_cons. apply IH. cbn [length] in Hk. lia.
Qed.

Lemma erase_skip hit : forall x k pv,
  (k <= length x)%nat ->
  erase hit k pv x = erase hit 0 (lastOr pv (firstn k x)) (skipn k x).
Proof.
  induction x as [|a x IH]; intros k pv Hk.
  - destruct k; [reflexivity | cbn [length] in Hk; lia].
  - destruct k as [|k]; [reflexivity|].
    cbn [erase firstn skipn]. rewrite lastOr_cons. apply IH. cbn [length] in Hk. lia.
Qed.

Lemma dropWhile_idem p s : dropWhile p (dropWhile p s) = dropWhile p s.
Proof. apply dropWhile_id, dropWhile_head. Qed.

Lemma digitBefore_lastOr : forall ds pv,
  ds <> [] -> forallb isDigit ds = true -> digitBefore (lastOr pv ds) = true.
Proof.
  induction ds as [|d ds IH]; intros pv Hne H; [congruence|].
  cbn [forallb] in H. apply andb_prop in H as [Hd H]. rewrite lastOr_cons.
  destruct ds as [|d' ds]; [exact Hd|]. apply IH; [discriminate | exact H].
Qed.

(** Through a run of digits that no suffix follows. *)
Lemma ordinal_run_regex : forall ds t pv,
  forallb isDigit ds = true -> ordinalHead (dropWhile isDigit t) = false ->
  replaceAll_from re_ordinal dollar1 0 pv (ds ++ t)
  = ds ++ replaceAll_from re_ordinal dollar1 0 (lastOr pv ds) t.
Proof.
  induction ds as [|d ds IH]; intros t pv Hds Ht; [reflexivity|].
  cbn [forallb] in Hds. apply andb_prop in Hds as [Hd Hds].
  cbn [app replaceAll_from]. rewrite m_ordinal_miss.
  - rewrite lastOr_cons, (IH t (Some d) Hds Ht). reflexivity.
  - left. cbn [dropWhile]. rewrite Hd, (dropWhile_app isDigit ds t Hds). exact Ht.
Qed.

Lemma ordinal_run_erase : forall ds t pv,
  forallb isDigit ds = true ->
  erase ordinalHit 0 pv (ds ++ t) = ds ++ erase ordinalHit 0 (lastOr pv ds) t.
Proof.
  induction ds as [|d ds IH]; intros t pv Hds; [reflexivity|].
  cbn [forallb] in Hds. apply andb_prop in Hds as [Hd Hds].
  cbn [app erase]. unfold ordinalHit at 1.
  rewrite (ordinalHead_digit d (ds ++ t) Hd), andb_false_r, lastOr_cons, (IH t (Some d) Hds).
  reflexivity.
Qed.

Lemma ordinal_steps : forall n s pv,
  (length s <= n)%nat -> digitBefore pv = false ->
  replaceAll_from re_ordinal dollar1 0 pv s = erase ordinalHit 0 pv s.
Proof.
  induction n as [|n IH]; intros s pv Hn Hpv.
  - destruct s; [|cbn [length] in Hn; lia].
    cbn [replaceAll_from erase]. rewrite m_ordinal_miss; [reflexivity | right; reflexivity].
  - destruct s as [|a s].
    { cbn [replaceAll_from erase].
      rewrite m_ordinal_miss; [reflexivity | right; reflexivity]. }
    cbn [length] in Hn. destruct (isDigit a) eqn:Ha.
    + destruct (run_split isDigit s) as (ds & Es & Hds).
      set (t := dropWhile isDigit s) in *.
      assert (Et : dropWhile isDigit t = t) by apply dropWhile_idem.
      assert (Hall : forallb isDigit (a :: ds) = true) by (cbn [forallb]; rewrite Ha; exact Hds).
      assert (Hlen : (length ds + length t <= n)%nat).
      { rewrite <- length_app, <- Es. lia. }
      clearbody t. subst s. change (a :: ds ++ t) with ((a :: ds) ++ t).
      rewrite (ordinal_run_erase (a :: ds) t pv Hall).
      assert (Hq : digitBefore (lastOr pv (a :: ds)) = true)
        by (apply digitBefore_lastOr; [discriminate | exact Hall]).
      set (q := lastOr pv (a :: ds)) in *. clearbody q.
      destruct (ordinalHead t) eqn:Eo.
      * destruct (ordinalHead_two t Eo) as (x & y & t2 & -> & Hy).
        destruct (m_ordinal_hit pv (a :: ds) (x :: y :: t2)) as (st & l & Em & Er & Ed);
          [discriminate | exact Hall | exact Eo |].
        cbn [app] in Em, Ed. cbn [app replaceAll_from].
        rewrite Em, Ed, Er. cbn [skipn app length].
        rewrite !length_app. cbn [length].
        replace (S (length ds + S (S (length t2))) - length t2)%nat
          with (S (length ds + 2)) by lia.
        rewrite replaceAll_skip by (rewrite length_app; cbn [length]; lia).
        replace (firstn (length ds + 2) (ds ++ x :: y :: t2)) with (ds ++ [x; y]).
        2:{ rewrite firstn_app. replace (length ds + 2 - length ds)%nat with 2%nat by lia.
            rewrite firstn_all2 by lia. reflexivity. }
        replace (skipn (length ds + 2) (ds ++ x :: y :: t2)) with t2.
        2:{ rewrite skipn_app. replace (length ds + 2 - length ds)%nat with 2%nat by lia.
            rewrite skipn_all2 by lia. reflexivity. }
        rewrite lastOr_app. change (lastOr (lastOr (Some a) ds) [x; y]) with (Some y).
        rewrite (IH t2 (Some y)); [|cbn [length] in Hlen; lia | exact Hy].
        f_equal. f_equal.
        assert (Hh : ordinalHit q (x :: y :: t2) = 2%nat)
          by (unfold ordinalHit; rewrite Hq, Eo; reflexivity).
        cbn [erase]. rewrite Hh. reflexivity.
      * rewrite (ordinal_run_regex (a :: ds) t pv Hall) by (rewrite Et; exact Eo).
        f_equal. destruct t as [|c t'].
        { cbn [replaceAll_from erase].
          rewrite m_ordinal_miss; [reflexivity | right; reflexivity]. }
        assert (Hc : isDigit c = false).
        { cbn [dropWhile] in Et. destruct (isDigit c) eqn:Ec; [|reflexivity].
          exfalso. pose proof (length_dropWhile isDigit t') as Hl. rewrite Et in Hl.
          cbn [length] in Hl. lia. }
        cbn [replaceAll_from erase]. rewrite m_ordinal_miss by (right; exact Hc).
        unfold ordinalHit at 1. rewrite Eo, andb_false_r.
        rewrite (IH t' (Some c)); [reflexivity | cbn [length] in Hlen; lia | exact Hc].
    + cbn [replaceAll_from erase]. rewrite m_ordinal_miss by (right; exact Ha).
      unfold ordinalHit at 1. rewrite Hpv. cbn [andb].
      rewrite (IH s (Some a)); [reflexivity | lia | exact Ha].
Qed.

(** [replace (/(\d+)(st|nd|rd|th)/gi, '$1')] drops every st, nd, rd or
    th that comes right after a digit. *)
Lemma ordinals_spec s : replaceAll re_ordinal dollar1 s = ordinalsOff s.
Proof. apply (ordinal_steps (length s) s None); [apply Nat.le_refl | reflexivity]. Qed.

(** The clean-up of the two entry points, step by step. *)
Lemma cleanupDisplay_steps s :
  cleanupDisplay s = trim (gmtOff (labelsOff (fromIPOff (ordinalsOff (trim s))))).
Proof.
  unfold cleanupDisplay. rewrite ordinals_spec, fromIP_spec, labels_spec, gmt_spec.
  reflexivity.
Qed.

Lemma cleanupStorage_steps s :
  cleanupStorage s = trim (labelsOff (fromIPOff (ordinalsOff s))).
Proof.
  unfold cleanupStorage. rewrite ordinals_spec, fromIP_spec, labels_spec. reflexivity.
Qed.

Lemma trimStart_blanks ws s : forallb isSpace ws = true -> trimStart (ws ++ s) = trimStart s.
Proof.
  induction ws as [|w ws IH]; [reflexivity|]. cbn [forallb app trimStart].
  intros H. apply andb_prop in H as [-> H]. apply IH, H.
Qed.

Lemma forallb_rev {A} (p : A -> bool) (l : list A) : forallb p (rev l) = forallb p l.
Proof.
  induction l as [|a l IH]; [reflexivity|]. cbn [rev forallb].
  rewrite forallb_app, IH. cbn [forallb]. rewrite andb_true_r. apply andb_comm.
Qed.

Lemma trimStart_app_kept s x :
  trimStart s <> [] -> trimStart (s ++ x) = trimStart s ++ x.
Proof.
  induction s as [|a s IH]; [intros H; exfalso; apply H; reflexivity|].
  cbn [app trimStart]. destruct (isSpace a); [exact IH | reflexivity].
Qed.

Lemma trimStart_all_blank s x :
  trimStart s = [] -> trimStart (s ++ x) = trimStart x.
Proof.
  induction s as [|a s IH]; [reflexivity|]. cbn [app trimStart].
  destruct (isSpace a); [exact IH | discriminate].
Qed.

(** White space around a text is not seen by [trim]. *)
Lemma trim_blanks ws1 ws2 s :
  forallb isSpace ws1 = true -> forallb isSpace ws2 = true ->
  trim (ws1 ++ s ++ ws2) = trim s.
Proof.
  intros H1 H2. unfold trim, trimEnd. rewrite (trimStart_blanks ws1 _ H1). f_equal.
  destruct (trimStart s) as [|a t] eqn:E.
  - rewrite (trimStart_all_blank s ws2 E).
    assert (Hw : trimStart ws2 = []).
    { clear - H2. induction ws2 as [|w ws IH]; [reflexivity|]. cbn [forallb trimStart] in *.
      apply andb_prop in H2 as [-> H2]. apply IH, H2. }
    rewrite Hw. reflexivity.
  - rewrite (trimStart_app_kept s ws2) by (rewrite E; discriminate). rewrite E.
    rewrite rev_app_distr, trimStart_blanks by (rewrite forallb_rev; exact H2).
    reflexivity.
Qed.

(** C4, amended.  The clean-up of the display path trims the text, drops
    every st, nd, rd or th that comes right after a digit, cuts the text
    at the first "from IP" that no line terminator follows, drops the
    words Updated and Created wherever they are, cuts an offset
    annotation (blanks, GMT, a sign, two to four digits) that now ends
    the text, and trims again, letters being read in any case.  The
    clean-up of the storage path does the same without the first
    trimming and without the step of the offset annotation.  Each entry
    point reads a non-empty raw string through its cleaned form only:
    two raw strings with the same cleaned form give the same result, and
    on the display path white space around the raw string changes
    nothing. *)
Theorem cleanup_rules (rt : Runtime) (s : str) :
  cleanupDisplay s = trim (gmtOff (labelsOff (fromIPOff (ordinalsOff (trim s)))))
  /\ cleanupStorage s = trim (labelsOff (fromIPOff (ordinalsOff s)))
  /\ (forall s' tl n,
        s <> [] -> s' <> [] -> cleanupDisplay s = cleanupDisplay s' ->
        parseDate rt (Some s) tl n = parseDate rt (Some s') tl n)
  /\ (forall s' tl n,
        s <> [] -> s' <> [] -> cleanupStorage s = cleanupStorage s' ->
        parseDateToMySQL rt (JString s) tl n = parseDateToMySQL rt (JString s') tl n)
  /\ (forall ws1 ws2,
        forallb isSpace ws1 = true -> forallb isSpace ws2 = true ->
        cleanupDisplay (ws1 ++ s ++ ws2) = cleanupDisplay s).
Proof.
  split; [apply cleanupDisplay_steps|]. split; [apply cleanupStorage_steps|].
  split; [|split].
  - intros s' tl n H1 H2 E. destruct s as [|a1 s1]; [congruence|].
    destruct s' as [|a2 s2]; [congruence|].
    rewrite !parseDate_run. unfold parseDateAt. rewrite E. reflexivity.
  - intros s' tl n H1 H2 E. destruct s as [|a1 s1]; [congruence|].
    destruct s' as [|a2 s2]; [congruence|].
    unfold parseDateToMySQL, parseDateToMySQL_try. cbn [truthy negb]. rewrite E. reflexivity.
  - intros ws1 ws2 H1 H2. unfold cleanupDisplay. rewrite (trim_blanks ws1 ws2 s H1 H2).
    reflexivity.
Qed.

Lemma cleanup_rules_witness :
  (parseDate refRuntime (Some (lit "Updated Oct 13th, 2025 02:19:42 PM from IP 10.0.0.1"))
             refTimeline 0%nat
   = parseDate refRuntime (Some (lit "Oct 13, 2025 02:19:42 PM")) refTimeline 0%nat
   /\ fst (parseDate refRuntime (Some (lit "Oct 13, 2025 02:19:42 PM")) refTimeline 0%nat)
      = Some 1760357982000)
  /\ (parseDateToMySQL legacyRuntime
        (JString (lit "Updated Oct 13th, 2025 02:19:42 PM from IP 10.0.0.1")) refTimeline 0%nat
      = parseDateToMySQL legacyRuntime (JString (lit "Oct 13, 2025 02:19:42 PM"))
          refTimeline 0%nat
      /\ fst (parseDateToMySQL legacyRuntime (JString (lit "Oct 13, 2025 02:19:42 PM"))
                refTimeline 0%nat)
         = Normal (lit "2025-10-13 12:19:42")).
Proof.
  split; (split; [|vm_compute; reflexivity]).
  - apply (proj1 (proj2 (proj2 (cleanup_rules refRuntime
             (lit "Updated Oct 13th, 2025 02:19:42 PM from IP 10.0.0.1")))));
      [discriminate | discriminate | vm_compute; reflexivity].
  - apply (proj1 (proj2 (proj2 (proj2 (cleanup_rules legacyRuntime
             (lit "Updated Oct 13th, 2025 02:19:42 PM from IP 10.0.0.1"))))));
      [discriminate | discriminate | vm_compute; reflexivity].
Defined.
